(** * Roman Dzongkha converters: a shallow embedding and its properties

    The repository holds several overlapping JavaScript converters from
    Dzongkha written in the Tibetan script (Ucen) to Roman Dzongkha.  They
    are embedded here, each in a module of its own:

    - [Checked]: the cluster-aware converter with the validated exception
      table ([normalizeKey], [findClusterMap], [decomposeSyllableRaw],
      [convertSyllable], [convertDzongkhaText]);
    - [Complete]: the tokenizing converter with dictionary and prefix rules
      ([tokenizeSyllable], [buildRomanFromToken], [applyRules],
      [normalizeWord], [convertLine], [convertDzongkha]);
    - [Extended]: the converter with hard and soft initials
      ([decomposeSyllable], [convertSyllable]);
    - [Phonological] and [Escaped]: the two short converters
      ([convertSyllable] or [parseSyllable], the prefix rules,
      [convertDzongkha]).

    A JavaScript string is represented by the list of its code points, the
    sequence that [Array.from] and the spread operator produce.  Every
    character the converters test for lies in the Basic Multilingual Plane,
    where code points and UTF-16 code units coincide.  An object literal is
    the list of its properties in insertion order; the exception table,
    which the program fills by assignments, is a finite map. *)

From Stdlib Require Import NArith List String Ascii Lia.
From stdpp Require Import gmap list.
Import ListNotations.
Local Open Scope N_scope.

Abbreviation str := (list N).

(** ** String literals

    The tables below are written with the same literals as the source; a
    literal is read as UTF-8 and decoded to its code points. *)

Fixpoint utf8 (bs : list N) : str :=
  match bs with
  | [] => []
  | b0 :: r =>
      if b0 <? 0x80 then b0 :: utf8 r
      else if b0 <? 0xE0 then
        match r with
        | b1 :: r1 => ((b0 - 0xC0) * 64 + (b1 - 0x80)) :: utf8 r1
        | _ => []
        end
      else if b0 <? 0xF0 then
        match r with
        | b1 :: b2 :: r2 =>
            ((b0 - 0xE0) * 4096 + (b1 - 0x80) * 64 + (b2 - 0x80)) :: utf8 r2
        | _ => []
        end
      else
        match r with
        | b1 :: b2 :: b3 :: r3 =>
            ((b0 - 0xF0) * 262144 + (b1 - 0x80) * 4096
             + (b2 - 0x80) * 64 + (b3 - 0x80)) :: utf8 r3
        | _ => []
        end
  end.

Definition u (s : string) : str :=
  utf8 (List.map N_of_ascii (list_ascii_of_string s)).

(** ** The fragment of the JavaScript string and array library in use *)

Module JS.

(** The class [\s] of a regular expression, which is also the set of
    characters that [String.prototype.trim] strips: WhiteSpace and
    LineTerminator of ECMAScript. *)
Definition is_space (c : N) : bool :=
  (c =? 0x09) || (c =? 0x0A) || (c =? 0x0B) || (c =? 0x0C) || (c =? 0x0D)
  || (c =? 0x20) || (c =? 0xA0) || (c =? 0x1680)
  || ((0x2000 <=? c) && (c <=? 0x200A))
  || (c =? 0x2028) || (c =? 0x2029) || (c =? 0x202F) || (c =? 0x205F)
  || (c =? 0x3000) || (c =? 0xFEFF).

(** Truthiness of a string: [!s] holds of the empty string only. *)
Definition truthy (s : str) : bool :=
  match s with [] => false | _ :: _ => true end.

Fixpoint trimStart (s : str) : str :=
  match s with
  | [] => []
  | c :: r => if is_space c then trimStart r else s
  end.

Definition trimEnd (s : str) : str := rev (trimStart (rev s)).

Definition trim (s : str) : str := trimEnd (trimStart s).

(** [s.replace(/[...]/g, '')] for a character class [cls]. *)
Definition removeAll (cls : N -> bool) (s : str) : str :=
  List.filter (fun c => negb (cls c)) s.

Fixpoint startsWith (s k : str) {struct k} : bool :=
  match k, s with
  | [], _ => true
  | _ :: _, [] => false
  | a :: k', b :: s' => (a =? b) && startsWith s' k'
  end.

Definition endsWith (s k : str) : bool := startsWith (rev s) (rev k).

(** [s.includes(k)]: [k] occurs in [s] as a contiguous substring. *)
Fixpoint includes (s k : str) : bool :=
  startsWith s k ||
  match s with
  | [] => false
  | _ :: s' => includes s' k
  end.

(** [a.join(sep)]. *)
Fixpoint join (sep : str) (a : list str) : str :=
  match a with
  | [] => []
  | x :: r =>
      match r with
      | [] => x
      | _ :: _ => x ++ sep ++ join sep r
      end
  end.

(** [s.split(/[...]+/)] for a character class [sep]: the pieces between
    the maximal runs of separators, with an empty piece before a leading
    run and after a trailing one.  [cur] is the piece being read, in
    reverse; [inRun] tells that the previous character was a separator. *)
Fixpoint splitRuns (sep : N -> bool) (s cur : str) (inRun : bool)
  : list str :=
  match s with
  | [] => [rev cur]
  | c :: r =>
      if sep c then
        if inRun then splitRuns sep r cur true
        else rev cur :: splitRuns sep r [] true
      else splitRuns sep r (c :: cur) false
  end.

Definition split (sep : N -> bool) (s : str) : list str :=
  splitRuns sep s [] false.

(** An object literal with string keys: its own properties in insertion
    order, which is the order of [Object.keys]. *)
Definition obj (V : Type) : Type := list (str * V).

Fixpoint get {V : Type} (o : obj V) (k : str) : option V :=
  match o with
  | [] => None
  | (k', v) :: o' => if bool_decide (k' = k) then Some v else get o' k
  end.

Definition keys {V : Type} (o : obj V) : list str := List.map fst o.

(** Truthiness of [o[k]] for an object of strings: the property exists
    and its value is not the empty string. *)
Definition has_truthy (o : obj str) (k : str) : bool :=
  match get o k with
  | Some v => truthy v
  | None => false
  end.

(** [o[k] || d]. *)
Definition get_or (o : obj str) (k d : str) : str :=
  match get o k with
  | Some v => if truthy v then v else d
  | None => d
  end.

(** [new Set([...]).has(x)]. *)
Definition set_has (s : list str) (x : str) : bool :=
  bool_decide (x ∈ s).

(** [a.includes(v)] on an array of one-code-point strings. *)
Definition array_includes (a : str) (v : str) : bool :=
  existsb (fun ch => bool_decide ([ch] = v)) a.

(** [a.splice(a.indexOf(v), 1)] when [v] occurs in [a]. *)
Fixpoint splice_first (a : str) (v : str) : str :=
  match a with
  | [] => []
  | ch :: r => if bool_decide ([ch] = v) then r else ch :: splice_first r v
  end.

(** Insertion of [k] in a list already sorted by decreasing length,
    after the keys that are at least as long: [Array.prototype.sort] is
    stable, so keys of equal length keep their order. *)
Fixpoint insert_by_length (k : str) (l : list str) : list str :=
  match l with
  | [] => [k]
  | x :: r =>
      if (length x <? length k)%nat then k :: l
      else x :: insert_by_length k r
  end.

(** [a.sort((a,b) => b.length - a.length)]. *)
Definition sort_longest_first (a : list str) : list str :=
  fold_left (fun acc k => insert_by_length k acc) a [].

(** [s.split(sep)] for a one-character separator or a class without
    repetition: every separator ends a piece, empty pieces are kept. *)
Fixpoint splitEachFrom (sep : N -> bool) (s cur : str) : list str :=
  match s with
  | [] => [rev cur]
  | c :: r =>
      if sep c then rev cur :: splitEachFrom sep r []
      else splitEachFrom sep r (c :: cur)
  end.

Definition splitEach (sep : N -> bool) (s : str) : list str :=
  splitEachFrom sep s [].

(** [s.replace(/\s+/g, " ")]: every maximal run of white space becomes one
    space. *)
Fixpoint collapseSpaces (s : str) (inRun : bool) : str :=
  match s with
  | [] => []
  | c :: r =>
      if is_space c then
        if inRun then collapseSpaces r true else 0x20 :: collapseSpaces r true
      else c :: collapseSpaces r false
  end.

(** [s.replace(/^p/, r)] for a literal [p]. *)
Definition replacePrefix (p r s : str) : str :=
  if startsWith s p then r ++ drop (length p) s else s.

(** [s.replace(/p$/, r)] for a literal [p]. *)
Definition replaceSuffix (p r s : str) : str :=
  if endsWith s p then take (length s - length p) s ++ r else s.

(** [s.replace(/^p$/, r)] for a literal [p]. *)
Definition replaceWhole (p r s : str) : str :=
  if bool_decide (s = p) then r else s.

(** [s.replace(/cc+/g, c)] for a character [c]: every run of two or more
    [c] becomes a single one, so that no two [c] remain adjacent. *)
Fixpoint collapseRepeats (c : N) (s : str) : str :=
  match s with
  | [] => []
  | a :: r =>
      match r with
      | b :: _ => if (a =? c) && (b =? c) then collapseRepeats c r
                  else a :: collapseRepeats c r
      | [] => [a]
      end
  end.

(** [s.replace(/\s+\./g, ".")]: a run of white space that stands right
    before a full stop is removed. *)
Fixpoint dropSpacesBeforeDot (s : str) : str :=
  match s with
  | [] => []
  | c :: r =>
      let r' := dropSpacesBeforeDot r in
      if is_space c && startsWith r' [0x2E] then r' else c :: r'
  end.

(** The state of the left-to-right search for [/\.\s+\./]: nothing
    pending, a full stop pending, or a full stop and the white space read
    after it (in reverse) pending. *)
Inductive dotState : Type :=
| Idle
| Dot
| DotSpaces (buf : str).

(** [s.replace(/\.\s+\./g, ".")]: matches are found from left to right and
    do not overlap. *)
Fixpoint replaceDotSpacesDot (s : str) (st : dotState) : str :=
  match s with
  | [] =>
      match st with
      | Idle => []
      | Dot => [0x2E]
      | DotSpaces buf => 0x2E :: rev buf
      end
  | c :: r =>
      match st with
      | Idle =>
          if c =? 0x2E then replaceDotSpacesDot r Dot
          else c :: replaceDotSpacesDot r Idle
      | Dot =>
          if is_space c then replaceDotSpacesDot r (DotSpaces [c])
          else if c =? 0x2E then 0x2E :: replaceDotSpacesDot r Dot
          else 0x2E :: c :: replaceDotSpacesDot r Idle
      | DotSpaces buf =>
          if is_space c then replaceDotSpacesDot r (DotSpaces (c :: buf))
          else if c =? 0x2E then 0x2E :: replaceDotSpacesDot r Idle
          else (0x2E :: rev buf) ++ c :: replaceDotSpacesDot r Idle
      end
  end.

(** [s.replace(/^p(?=a1|a2|...)/, "")]: the literal [p] is dropped from
    the start of [s] when one of the literals [alts] follows it. *)
Definition dropPrefixBefore (p : str) (alts : list str) (s : str) : str :=
  if startsWith s p && existsb (startsWith (drop (length p) s)) alts
  then drop (length p) s
  else s.

(** The state of a split on an alternation [/a+|b+/] of two runs: outside
    a separator, or inside a run of the first or of the second class. *)
Inductive runState : Type :=
| NoRun
| RunA
| RunB.

(** [s.split(/a+|b+/)] for two character classes [a] and [b]: a match is a
    maximal run of one class, so that two runs of different classes that
    touch are two matches, with an empty piece between them. *)
Fixpoint splitAltRuns (a b : N -> bool) (s cur : str) (run : runState)
  : list str :=
  match s with
  | [] => [rev cur]
  | c :: r =>
      if a c then
        match run with
        | RunA => splitAltRuns a b r cur RunA
        | _ => rev cur :: splitAltRuns a b r [] RunA
        end
      else if b c then
        match run with
        | RunB => splitAltRuns a b r cur RunB
        | _ => rev cur :: splitAltRuns a b r [] RunB
        end
      else splitAltRuns a b r (c :: cur) NoRun
  end.

Definition splitAlt (a b : N -> bool) (s : str) : list str :=
  splitAltRuns a b s [] NoRun.

End JS.

(** ** The checked converter (cluster-aware, exceptions validated) *)

Module Checked.

(** *** Core mappings *)

Definition INITIAL_BASE : JS.obj str := Eval vm_compute in
  [ (u "ཀ", u "k"); (u "ཁ", u "kh"); (u "ག", u "g"); (u "ང", u "ng");
    (u "ཅ", u "c"); (u "ཆ", u "ch"); (u "ཇ", u "j"); (u "ཉ", u "ny");
    (u "ཏ", u "t"); (u "ཐ", u "th"); (u "ད", u "d"); (u "ན", u "n");
    (u "པ", u "p"); (u "ཕ", u "ph"); (u "བ", u "b"); (u "མ", u "m");
    (u "ཙ", u "ts"); (u "ཚ", u "tsh"); (u "ཛ", u "dz"); (u "ཝ", u "w");
    (u "ཞ", u "zh"); (u "ཟ", u "z"); (u "འ", u "a"); (u "ཡ", u "y");
    (u "ར", u "r"); (u "ལ", u "l"); (u "ཤ", u "sh"); (u "ས", u "s");
    (u "ཧ", u "h"); (u "ཨ", u "a") ].

Definition DEVOICE_CANDIDATES : list str := Eval vm_compute in
  [ u "ག"; u "ཇ"; u "ད"; u "བ"; u "བྱ"; u "དྲ"; u "ཞ"; u "ཟ" ].

Definition VOWELS : JS.obj str := Eval vm_compute in
  [ (u "", u "a"); (u "ི", u "i"); (u "ུ", u "u"); (u "ེ", u "e");
    (u "ོ", u "o") ].

Definition LONG_MARK : N := 0x0F71.

Definition FINAL_MAP : JS.obj str := Eval vm_compute in
  [ (u "ཀ", u "k"); (u "ཏ", u "t"); (u "པ", u "p"); (u "ན", u "n");
    (u "ཤ", u "sh"); (u "ལ", u "l"); (u "ར", u "r"); (u "ང", u "ng") ].

Definition PREFIX_SET : list str := Eval vm_compute in
  [ u "ག"; u "ད"; u "བ"; u "མ"; u "འ" ].

Definition MEDIALS : JS.obj str := Eval vm_compute in
  [ (u "ྱ", u "y"); (u "ྭ", u "w"); (u "ྲ", u "r") ].

(** An entry of the cluster table; a field that the literal leaves out is
    [undefined] in the source, which every test reads as false. *)
Record cluster : Type := mkCluster {
  roman : str;
  whole : bool;
  preferHard : bool
}.

Definition CLUSTER_INITIAL_MAP : JS.obj cluster := Eval vm_compute in
  [ (u "བརྒྱ", mkCluster (u "gä") true false);
    (u "བརྒ", mkCluster (u "g") false true);
    (u "རྒྱ", mkCluster (u "gya") false true);
    (u "གྱ", mkCluster (u "j") false false);
    (u "གྲ", mkCluster (u "dr") false false);
    (u "ལྷ", mkCluster (u "lh") false true);
    (u "སྒྲ", mkCluster (u "dr") false true);
    (u "སྦྱ", mkCluster (u "bj") false true);
    (u "སླ", mkCluster (u "l") false true) ].

(** *** Exceptions (normalized keys) *)

Definition TSHEG : N := 0x0F0B.

(** The class [[།༎༏༔\s]]. *)
Definition is_shad_or_space (c : N) : bool :=
  existsb (N.eqb c) (u "།༎༏༔") || JS.is_space c.

Definition normalizeKey (s : str) : str :=
  if negb (JS.truthy s) then s
  else JS.trim (JS.removeAll is_shad_or_space (JS.removeAll (N.eqb TSHEG) s)).

Definition addException (E : gmap str str) (uScript roman : str)
  : gmap str str :=
  <[ normalizeKey uScript := roman ]> E.

(** The calls of [addException], in program order. *)
Definition exception_entries : list (str * str) := Eval vm_compute in
  [ (u "བརྒྱད", u "gä");
    (u "རྒསཔ", u "gep");
    (u "སྐུ", u "ku");
    (u "ཀུཝ", u "kû");
    (u "ཀེཔ", u "kep");
    (u "རྒེན", u "gen");
    (u "རྒེཔ", u "gep");
    (u "རྒོཔ", u "gop");
    (u "ཀྲོ", u "tro");
    (u "སློས་རྦོས", u "’löbö");
    (u "བཀྲ་ཤིས", u "Trashi");
    (u "བཟོ་རིག", u "Zori");
    (u "བཟང་འབྲེལ", u "zangdre");
    (u "ཡར་འདྲེན", u "yâdren");
    (u "རྒྱལ་མཚན", u "gätshe");
    (u "ཆོས་སྒྲ", u "Chödra");
    (u "རྣམ་རྒུསང", u "'namgüng") ].

Definition EXCEPTIONS : gmap str str :=
  fold_left (fun E e => addException E (fst e) (snd e)) exception_entries ∅.

(** *** Utility helpers *)

Definition normToken (t : str) : str := normalizeKey t.

Definition findClusterMap (s : str) : option cluster :=
  let keys := JS.sort_longest_first (JS.keys CLUSTER_INITIAL_MAP) in
  match List.find (fun k => JS.includes s k) keys with
  | Some k => JS.get CLUSTER_INITIAL_MAP k
  | None => None
  end.

Record Decomposition : Type := mkDecomposition {
  baseInitial : option N;
  vowelSign : str;
  longMark : bool;
  hasPrefix : bool;
  medialsFound : list str;
  finalChar : option N;
  rawChars : str
}.

(** The loop over [Object.keys(VOWELS)]: the first key, in table order,
    that is not empty and occurs in [cleaned]; its first occurrence is
    spliced out.  The result is [(vowelSign, cleaned)] after the loop. *)
Fixpoint findVowelSign (ks : list str) (cleaned : str) : str * str :=
  match ks with
  | [] => ([], cleaned)
  | v :: ks' =>
      if JS.truthy v && JS.array_includes cleaned v
      then (v, JS.splice_first cleaned v)
      else findVowelSign ks' cleaned
  end.

Definition decomposeSyllableRaw (syll : str) : Decomposition :=
  let chars :=
    List.filter (fun ch => negb (ch =? TSHEG) && negb (is_shad_or_space ch))
                syll in
  let longMark := existsb (N.eqb LONG_MARK) chars in
  let cleaned := List.filter (fun ch => negb (ch =? LONG_MARK)) chars in
  let '(vowelSign, cleaned) := findVowelSign (JS.keys VOWELS) cleaned in
  let hasPrefix :=
    existsb (fun ch => JS.set_has PREFIX_SET [ch]) (removelast cleaned) in
  let medialsFound :=
    List.map (fun ch => default [] (JS.get MEDIALS [ch]))
             (List.filter (fun ch => JS.has_truthy MEDIALS [ch]) cleaned) in
  let baseInitial :=
    List.find (fun ch => JS.has_truthy INITIAL_BASE [ch]) cleaned in
  let finalChar :=
    List.find (fun ch => JS.has_truthy FINAL_MAP [ch]) (rev cleaned) in
  mkDecomposition baseInitial vowelSign longMark hasPrefix medialsFound
                  finalChar chars.

(** *** Conversion primitives *)

(** The cluster entry that serves as a cluster-initial hint:
    [clmap && clmap.roman && !clmap.whole]. *)
Definition clusterHint (clmap : option cluster) : option cluster :=
  match clmap with
  | Some cm => if JS.truthy (roman cm) && negb (whole cm) then Some cm else None
  | None => None
  end.

(** [initialRoman] before the devoicing rule: the canonical base form,
    or the cluster hint when there is one. *)
Definition initialHint (clmap : option cluster) (b : N) : str :=
  match clusterHint clmap with
  | Some cm => roman cm
  | None => JS.get_or INITIAL_BASE [b] [b]
  end.

(** [comp.hasPrefix] once a hint that prefers the hard form has set it. *)
Definition hardened (clmap : option cluster) (comp : Decomposition) : bool :=
  match clusterHint clmap with
  | Some cm => if preferHard cm then true else hasPrefix comp
  | None => hasPrefix comp
  end.

Definition APOSTROPHE : str := [0x27].

(** The devoicing rule. *)
Definition devoice (hasPrefix' : bool) (b : N) (initialRoman : str) : str :=
  if negb hasPrefix' && JS.set_has DEVOICE_CANDIDATES [b] then
    if negb (JS.endsWith initialRoman APOSTROPHE)
    then initialRoman ++ APOSTROPHE
    else initialRoman
  else initialRoman.

(** The loop that appends the medials not yet at the end. *)
Definition addMedials (medials : list str) (initialRoman : str) : str :=
  fold_left (fun acc m => if negb (JS.endsWith acc m) then acc ++ m else acc)
            medials initialRoman.

Definition circ : JS.obj str := Eval vm_compute in
  [ (u "a", u "â"); (u "e", u "ê"); (u "i", u "î"); (u "o", u "ô");
    (u "u", u "û") ].

Definition NGA : N := 0x0F44.

(** The vowel, with the long-vowel handling. *)
Definition vowelOf (comp : Decomposition) : str :=
  let vowelRoman := JS.get_or VOWELS (vowelSign comp) (u "a") in
  let finalIsNg := bool_decide (finalChar comp = Some NGA) in
  if longMark comp && negb finalIsNg
  then JS.get_or circ vowelRoman vowelRoman
  else vowelRoman.

Definition finalOf (comp : Decomposition) : str :=
  match finalChar comp with
  | Some f => if JS.has_truthy FINAL_MAP [f]
              then default [] (JS.get FINAL_MAP [f]) else []
  | None => []
  end.

Definition convertSyllable (syll : str) : str :=
  if negb (JS.truthy syll) then []
  else
    let raw := JS.trim syll in
    if negb (JS.truthy raw) then []
    else
      let normalized := normToken raw in
      match EXCEPTIONS !! normalized with
      | Some r => r
      | None =>
          let clmap := findClusterMap raw in
          match clmap with
          | Some (mkCluster r true _) => r
          | _ =>
              let comp := decomposeSyllableRaw raw in
              match baseInitial comp with
              | None => if JS.truthy normalized then normalized else raw
              | Some b =>
                  let initialRoman := initialHint clmap b in
                  let initialRoman :=
                    devoice (hardened clmap comp) b initialRoman in
                  let initialRoman :=
                    addMedials (medialsFound comp) initialRoman in
                  initialRoman ++ vowelOf comp ++ finalOf comp
              end
          end
      end.

(** *** Multi-token conversion *)

(** The class [[\s་]]. *)
Definition is_space_or_tsheg (c : N) : bool :=
  JS.is_space c || (c =? TSHEG).

(** The inner loop over the widths: the first width [w] whose window
    [rawTokens.slice(i, i + w)] fits and, joined and normalized, is a key
    of the exception table. *)
Fixpoint matchWindow (rawTokens : list str) (i : nat) (ws : list nat)
  : option (nat * str) :=
  match ws with
  | [] => None
  | w :: ws' =>
      if (i + w <=? length rawTokens)%nat then
        let slice := JS.join [] (take w (drop i rawTokens)) in
        let normSlice := normalizeKey slice in
        match EXCEPTIONS !! normSlice with
        | Some r => Some (w, r)
        | None => matchWindow rawTokens i ws'
        end
      else matchWindow rawTokens i ws'
  end.

(** One iteration of the outer loop on the state [(i, out)]. *)
Definition scanStep (rawTokens : list str) (st : nat * list str)
  : nat * list str :=
  let '(i, out) := st in
  match matchWindow rawTokens i [3; 2]%nat with
  | Some (w, r) => ((i + w)%nat, out ++ [r])
  | None => ((i + 1)%nat, out ++ [convertSyllable (nth i rawTokens [])])
  end.

(** The outer loop [for (let i = 0; i < rawTokens.length; )], run for at
    most [fuel] iterations. *)
Fixpoint scanLoop (fuel : nat) (rawTokens : list str) (st : nat * list str)
  : option (list str) :=
  if (fst st <? length rawTokens)%nat then
    match fuel with
    | O => None
    | S fuel' => scanLoop fuel' rawTokens (scanStep rawTokens st)
    end
  else Some (snd st).

Definition tokenize (trimmed : str) : list str :=
  List.filter JS.truthy (JS.split is_space_or_tsheg trimmed).

Definition convertDzongkhaText (input : str) : option str :=
  if negb (JS.truthy input) then Some []
  else
    let trimmed := JS.trim input in
    if negb (JS.truthy trimmed) then Some []
    else
      let normalizedFull := normalizeKey trimmed in
      match EXCEPTIONS !! normalizedFull with
      | Some r => Some r
      | None =>
          let rawTokens := tokenize trimmed in
          match scanLoop (length rawTokens) rawTokens (O, []) with
          | Some out => Some (JS.join (u " ") out)
          | None => None
          end
      end.

End Checked.

(** ** The complete single-file converter (tokenizer, dictionary, rules) *)

Module Complete.

(** *** Core mapping tables *)

Definition ROOT : JS.obj str := Eval vm_compute in
  [ (u "ཀ", u "k"); (u "ཁ", u "kh"); (u "ག", u "g"); (u "ང", u "ng");
    (u "ཅ", u "c"); (u "ཆ", u "ch"); (u "ཇ", u "j"); (u "ཉ", u "ny");
    (u "ཏ", u "t"); (u "ཐ", u "th"); (u "ད", u "d"); (u "ན", u "n");
    (u "པ", u "p"); (u "ཕ", u "ph"); (u "བ", u "b"); (u "མ", u "m");
    (u "ཙ", u "ts"); (u "ཚ", u "tsh"); (u "ཛ", u "dz");
    (u "ཝ", u "w"); (u "ཞ", u "zh"); (u "ཟ", u "z");
    (u "འ", u "’"); (u "ཡ", u "y"); (u "ར", u "r");
    (u "ལ", u "l"); (u "ཤ", u "sh"); (u "ས", u "s"); (u "ཧ", u "h");
    (u "ཨ", u "a") ].

Definition SUB : JS.obj str := Eval vm_compute in
  [ (u "ྐ", u "k"); (u "ྑ", u "kh"); (u "ྒ", u "g"); (u "ྔ", u "ng");
    (u "ྕ", u "c"); (u "ྖ", u "ch"); (u "ྗ", u "j"); (u "ྙ", u "ny");
    (u "ྟ", u "t"); (u "ྠ", u "th"); (u "ྡ", u "d"); (u "ྣ", u "n");
    (u "ྤ", u "p"); (u "ྥ", u "ph"); (u "ྦ", u "b"); (u "ྨ", u "m");
    (u "ྩ", u "ts"); (u "ྪ", u "tsh"); (u "ྫ", u "dz");
    (u "ྭ", u "w"); (u "ྱ", u "y"); (u "ྲ", u "r");
    (u "ླ", u "l"); (u "ྴ", u "sh"); (u "ྶ", u "s"); (u "ྷ", u "h") ].

Definition VOWEL : JS.obj str := Eval vm_compute in
  [ (u "", u "a");
    (u "ི", u "i");
    (u "ུ", u "u");
    (u "ེ", u "e");
    (u "ོ", u "o");
    (u "ཱ", u "â");
    (u "ཻ", u "ai");
    (u "ཽ", u "au") ].

Definition FINAL : JS.obj str := Eval vm_compute in
  [ (u "ག", u "g");
    (u "ང", u "ng");
    (u "ད", u "d");
    (u "ན", u "n");
    (u "བ", u "b");
    (u "མ", u "m");
    (u "འ", u "’");
    (u "ར", u "r");
    (u "ལ", u "l");
    (u "ས", u "s") ].

Definition TSHEG : N := 0x0F0B.
Definition TSEC : N := 0x0F0C.
Definition SHAD : N := 0x0F0D.
Definition NYIS : N := 0x0F0E.

(** *** Helper utilities *)

Definition splitSyllables (line : str) : list str :=
  JS.splitEach (N.eqb TSHEG) line.

Record Token : Type := mkToken {
  head : str;
  stacks : list N;
  vowels : list N;
  finals : list N;
  rest : list N
}.

(** The loop over the characters after the first one. *)
Fixpoint classify (chars : list N) (token : Token) : Token :=
  match chars with
  | [] => token
  | ch :: r =>
      let '(mkToken h st vo fi re) := token in
      classify r
        (if JS.has_truthy SUB [ch] then mkToken h (st ++ [ch]) vo fi re
         else if JS.has_truthy VOWEL [ch] then mkToken h st (vo ++ [ch]) fi re
         else if JS.has_truthy FINAL [ch] then mkToken h st vo (fi ++ [ch]) re
         else mkToken h st vo fi (re ++ [ch]))
  end.

Definition tokenizeSyllable (syl : str) : Token :=
  let token := mkToken [] [] [] [] [] in
  match syl with
  | [] => token
  | first :: others =>
      classify others
        (if JS.has_truthy ROOT [first]
         then mkToken [first] [] [] [] []
         else mkToken [] [] [] [] [first])
  end.

(** The class [[aeiouâ]]. *)
Definition is_vowel_letter (c : N) : bool :=
  existsb (N.eqb c) (u "aeiouâ").

(** Raw Roman of a token.  The tables are read at keys that
    [tokenizeSyllable] found in them. *)
Definition buildRomanFromToken (token : Token) : str :=
  let rom := [] in
  let rom :=
    if JS.truthy (head token)
    then rom ++ default [] (JS.get ROOT (head token)) else rom in
  let rom :=
    fold_left (fun rom s => rom ++ default [] (JS.get SUB [s]))
              (stacks token) rom in
  let '(rom, vowelApplied) :=
    fold_left
      (fun '(rom, _) v =>
         let rom :=
           if JS.endsWith rom (u "a") then JS.replaceSuffix (u "a") [] rom
           else rom in
         (rom ++ default [] (JS.get VOWEL [v]), true))
      (vowels token) (rom, false) in
  let rom :=
    fold_left (fun rom f => rom ++ default [] (JS.get FINAL [f]))
              (finals token) rom in
  if negb vowelApplied
     && negb (existsb is_vowel_letter (drop (length rom - 1) rom))
  then rom ++ u "a"
  else rom.

(** *** Normalization *)

Definition DICT : JS.obj str := Eval vm_compute in
  [ (u "brgyad", u "gä");
    (u "sdod", u "dö");
    (u "hbah", u "ba");
    (u "dkar", u "kâ");
    (u "dkarpo", u "kâp");
    (u "bzlogthabs", u "dokthap");
    (u "’brug", u "’druk") ].

Definition applyRules (word : str) : str :=
  let w := word in
  let w := JS.replacePrefix (u "dk") (u "k") w in
  let w := JS.replacePrefix (u "dg") (u "g") w in
  let w := JS.replacePrefix (u "bz") (u "z") w in
  let w := JS.replacePrefix (u "bzh") (u "zh") w in
  let w := JS.replacePrefix (u "bdz") (u "dz") w in
  let w := JS.replacePrefix (u "sd") (u "d") w in
  let w := JS.replacePrefix (u "hb") (u "b") w in
  let w := JS.replaceWhole (u "’brug") (u "’druk") w in
  let w := JS.replaceSuffix (u "bo") (u "po") w in
  let w := JS.collapseRepeats 0x2019 w in
  w.

(** The dictionary is read at the Roman form of one syllable, which is made
    of the phonemes of the tables and names no inherited property. *)
Definition normalizeWord (word : str) : str :=
  if JS.has_truthy DICT word then default [] (JS.get DICT word)
  else applyRules word.

(** *** Top-level conversion *)

Definition convertLine (line : str) : str :=
  let syls := splitSyllables line in
  let rawSyls :=
    List.map (fun syl => if negb (JS.truthy syl) then []
                         else buildRomanFromToken (tokenizeSyllable syl))
             syls in
  let roman := JS.trim (JS.collapseSpaces (JS.join (u " ") rawSyls) false) in
  let tokens := List.map normalizeWord (JS.splitEach (N.eqb 0x20) roman) in
  JS.join (u " ") tokens.

(** The loop that restores the punctuation, on the state [(out, cursor)].
    The cursor stands on the separator that ended the part, so that
    counting code points or code units gives the same character. *)
Definition restoreStep (text : str) (st : str * nat) (part : str)
  : str * nat :=
  let '(out, cursor) := st in
  let out := out ++ convertLine part in
  let cursor := (cursor + length part)%nat in
  let nextChar := nth_error text cursor in
  let out := if bool_decide (nextChar = Some SHAD) then out ++ u ". " else out in
  let out := if bool_decide (nextChar = Some NYIS) then out ++ u ". " else out in
  let out := if bool_decide (nextChar = Some TSEC) then out ++ u " " else out in
  let cursor :=
    if bool_decide (nextChar = Some SHAD) || bool_decide (nextChar = Some NYIS)
       || bool_decide (nextChar = Some TSEC)
    then (cursor + 1)%nat else cursor in
  (out, cursor).

(** The first loop of the source, over [converted], builds a list that
    nothing reads; the result comes from the second one. *)
Definition convertDzongkha (text : str) : str :=
  let parts := JS.splitEach (fun c => (c =? SHAD) || (c =? NYIS)) text in
  let '(out, _) := fold_left (restoreStep text) parts ([], O) in
  JS.replaceDotSpacesDot (JS.dropSpacesBeforeDot (JS.trim out)) JS.Idle.

End Complete.

(** ** The extended converter (hard and soft initials) *)

Module Extended.

(** The hard and the soft (devoiced) form of an initial. *)
Record initial : Type := mkInitial {
  hard : str;
  soft : str
}.

Definition initialMap : JS.obj initial := Eval vm_compute in
  [ (u "ཀ", mkInitial (u "k") (u "k"));
    (u "ཁ", mkInitial (u "kh") (u "kh"));
    (u "ག", mkInitial (u "g") (u "g'"));
    (u "ང", mkInitial (u "ng") (u "ng"));
    (u "ཅ", mkInitial (u "c") (u "c"));
    (u "ཆ", mkInitial (u "ch") (u "ch"));
    (u "ཇ", mkInitial (u "j") (u "j'"));
    (u "ཉ", mkInitial (u "ny") (u "ny"));
    (u "ཏ", mkInitial (u "t") (u "t"));
    (u "ཐ", mkInitial (u "th") (u "th"));
    (u "ད", mkInitial (u "d") (u "d'"));
    (u "ན", mkInitial (u "n") (u "n"));
    (u "པ", mkInitial (u "p") (u "p"));
    (u "ཕ", mkInitial (u "ph") (u "ph"));
    (u "བ", mkInitial (u "b") (u "b'"));
    (u "མ", mkInitial (u "m") (u "m"));
    (u "ཙ", mkInitial (u "ts") (u "ts"));
    (u "ཚ", mkInitial (u "tsh") (u "tsh"));
    (u "ཛ", mkInitial (u "dz") (u "dz"));
    (u "ཝ", mkInitial (u "w") (u "w"));
    (u "ཞ", mkInitial (u "zh") (u "zh'"));
    (u "ཟ", mkInitial (u "z") (u "z'"));
    (u "འ", mkInitial (u "a") (u "a"));
    (u "ཡ", mkInitial (u "y") (u "y"));
    (u "ར", mkInitial (u "r") (u "r"));
    (u "ལ", mkInitial (u "l") (u "l"));
    (u "ཤ", mkInitial (u "sh") (u "sh"));
    (u "ས", mkInitial (u "s") (u "s"));
    (u "ཧ", mkInitial (u "h") (u "h"));
    (u "ཨ", mkInitial (u "a") (u "a")) ].

Definition vowelSigns : JS.obj str := Eval vm_compute in
  [ (u "", u "a");
    (u "ི", u "i");
    (u "ུ", u "u");
    (u "ེ", u "e");
    (u "ོ", u "o") ].

Definition LONG_MARK : N := 0x0F71.

Definition prefixChars : list str := Eval vm_compute in
  [ u "ག"; u "ད"; u "བ"; u "མ"; u "འ" ].

(** The subjoined letters, U+0F90 to U+0FB8, one code point each. *)
Definition subjoinedChars : list str :=
  [ [0x0F90]; [0x0F91]; [0x0F92]; [0x0F93]; [0x0F94]; [0x0F95]; [0x0F96];
    [0x0F97]; [0x0F98]; [0x0F99]; [0x0F9A]; [0x0F9B]; [0x0F9C]; [0x0F9D];
    [0x0F9E]; [0x0F9F]; [0x0FA0]; [0x0FA1]; [0x0FA2]; [0x0FA3]; [0x0FA4];
    [0x0FA5]; [0x0FA6]; [0x0FA7]; [0x0FA8]; [0x0FA9]; [0x0FAA]; [0x0FAB];
    [0x0FAC]; [0x0FAD]; [0x0FAE]; [0x0FAF]; [0x0FB0]; [0x0FB1]; [0x0FB2];
    [0x0FB3]; [0x0FB4]; [0x0FB5]; [0x0FB6]; [0x0FB7]; [0x0FB8] ].

Definition finalMap : JS.obj str := Eval vm_compute in
  [ (u "ཀ", u "k");
    (u "ཏ", u "t");
    (u "པ", u "p");
    (u "ན", u "n");
    (u "ཤ", u "sh");
    (u "ལ", u "l");
    (u "ར", u "r");
    (u "ང", u "ng") ].

Definition exceptions : JS.obj str := Eval vm_compute in
  [ (u "བརྒྱད", u "gä");
    (u "རྨགཔ", u "'map");
    (u "རྒསཔ", u "gep");
    (u "སྐུ", u "ku");
    (u "ཀུཝ", u "kû") ].

(** What [convertSyllable] returns: a string or, when the syllable is the
    name of a property that the exception object inherits from
    [Object.prototype], the value found there, which is no string. *)
Inductive value : Type :=
| Str (s : str)
| Inherited (name : str).

(** The names of the properties of [Object.prototype]. *)
Definition prototype_names : list str := Eval vm_compute in
  [ u "constructor"; u "hasOwnProperty"; u "isPrototypeOf";
    u "propertyIsEnumerable"; u "toLocaleString"; u "toString"; u "valueOf";
    u "__proto__"; u "__defineGetter__"; u "__defineSetter__";
    u "__lookupGetter__"; u "__lookupSetter__" ].

(** The property read [exceptions[k]] when it is truthy. *)
Definition read (o : JS.obj str) (k : str) : option value :=
  match JS.get o k with
  | Some v => if JS.truthy v then Some (Str v) else None
  | None => if JS.set_has prototype_names k then Some (Inherited k) else None
  end.

Record Decomposition : Type := mkDecomposition {
  baseInitial : option N;
  vowelSign : str;
  longMarkPresent : bool;
  hasPrefix : bool;
  hasSubjoined : bool;
  finalChar : option N
}.

(** The loop over [Object.keys(vowelSigns)]; the result is the vowel sign
    and [remaining] after the loop. *)
Fixpoint findVowelSign (ks : list str) (remaining : str) : str * str :=
  match ks with
  | [] => ([], remaining)
  | v :: ks' =>
      if JS.truthy v && JS.array_includes remaining v
      then (v, JS.splice_first remaining v)
      else findVowelSign ks' remaining
  end.

Definition decomposeSyllable (syll : str) : Decomposition :=
  let chars := syll in
  let cleaned :=
    List.filter
      (fun c => negb (c =? 0x0F0B) && negb (c =? 0x20) && negb (c =? 0x0F0D)
                && negb (c =? 0x0F0E) && negb (c =? 0x0F0F)
                && negb (c =? 0x0F14))
      chars in
  let longMarkPresent := existsb (fun ch => ch =? LONG_MARK) cleaned in
  let remaining := List.filter (fun ch => negb (ch =? LONG_MARK)) cleaned in
  let '(vowelSign, remaining) :=
    findVowelSign (JS.keys vowelSigns) remaining in
  let hasPrefix :=
    existsb (fun ch => JS.set_has prefixChars [ch]) (removelast remaining) in
  let hasSubjoined :=
    existsb (fun ch => JS.set_has subjoinedChars [ch]) remaining in
  let baseInitial :=
    List.find (fun ch => match JS.get initialMap [ch] with
                         | Some _ => true
                         | None => false
                         end) remaining in
  let finalChar :=
    List.find (fun ch => JS.has_truthy finalMap [ch]) (rev remaining) in
  mkDecomposition baseInitial vowelSign longMarkPresent hasPrefix
                  hasSubjoined finalChar.

(** The class [[་\s]]. *)
Definition is_tsheg_or_space (c : N) : bool := (c =? 0x0F0B) || JS.is_space c.

Fixpoint dropStart (cls : N -> bool) (s : str) : str :=
  match s with
  | [] => []
  | c :: r => if cls c then dropStart cls r else s
  end.

(** [s.replace(/^[...]+|[...]+$/g, '')]. *)
Definition stripEnds (cls : N -> bool) (s : str) : str :=
  rev (dropStart cls (rev (dropStart cls s))).

Definition circ : JS.obj str := Eval vm_compute in
  [ (u "a", u "â"); (u "e", u "ê"); (u "i", u "î"); (u "o", u "ô");
    (u "u", u "û") ].

Definition convertSyllable (syll : str) : value :=
  if negb (JS.truthy syll) then Str []
  else
    let trimmed := stripEnds is_tsheg_or_space (JS.trim syll) in
    match read exceptions trimmed with
    | Some v => v
    | None =>
        let decomp := decomposeSyllable trimmed in
        match baseInitial decomp with
        | None => Str trimmed
        | Some b =>
            let preferHard := hasPrefix decomp || hasSubjoined decomp in
            let initialRoman :=
              match JS.get initialMap [b] with
              | Some initialInfo =>
                  if preferHard then hard initialInfo else soft initialInfo
              | None => [b]
              end in
            let vowelRoman := JS.get_or vowelSigns (vowelSign decomp) (u "a") in
            let finalIsNg := bool_decide (finalChar decomp = Some 0x0F44) in
            let vowelRoman :=
              if longMarkPresent decomp && negb finalIsNg
              then JS.get_or circ vowelRoman vowelRoman
              else vowelRoman in
            let finalRoman :=
              match finalChar decomp with
              | Some f => if JS.has_truthy finalMap [f]
                          then default [] (JS.get finalMap [f]) else []
              | None => []
              end in
            Str (initialRoman ++ vowelRoman ++ finalRoman)
        end
    end.

(** *** Utilities and the conversion of a whole text *)

(** [isTibetanChar]: the first code unit of [ch] lies in the Tibetan
    block.  There is no first code unit in the empty string, and a code
    point above the Basic Multilingual Plane starts with a surrogate, which
    lies outside the block as the code point does. *)
Definition isTibetanChar (ch : str) : bool :=
  match ch with
  | [] => false
  | code :: _ => (0x0F00 <=? code) && (code <=? 0x0FFF)
  end.

Definition charsOf (s : str) : list N := s.

(** [input.split(/\s+|[་]+/g).filter(t => t !== '')]. *)
Definition tokenize (input : str) : list str :=
  List.filter JS.truthy (JS.splitAlt JS.is_space (N.eqb 0x0F0B) input).

(** The text that [join] makes of a token: a string stands for itself; an
    inherited property is rendered by its own [toString], whose text the
    language leaves to the implementation, and no result is given for
    it. *)
Definition rendered (v : value) : option str :=
  match v with
  | Str s => Some s
  | Inherited _ => None
  end.

Definition convertDzongkhaText (input : str) : option str :=
  if negb (JS.truthy input) then Some []
  else
    let tokens := tokenize input in
    let romanTokens := List.map convertSyllable tokens in
    JS.join (u " ") <$> mapM rendered romanTokens.

End Extended.

(** ** The phonological converter *)

Module Phonological.

Definition consonantMap : JS.obj str := Eval vm_compute in
  [ (u "ཀ", u "k"); (u "ཁ", u "kh"); (u "ག", u "g"); (u "ང", u "ng");
    (u "ཅ", u "ch"); (u "ཆ", u "chh"); (u "ཇ", u "j"); (u "ཉ", u "ny");
    (u "ཏ", u "t"); (u "ཐ", u "th"); (u "ད", u "d"); (u "ན", u "n");
    (u "པ", u "p"); (u "ཕ", u "ph"); (u "བ", u "b"); (u "མ", u "m");
    (u "ཙ", u "ts"); (u "ཚ", u "tsh"); (u "ཛ", u "dz"); (u "ཝ", u "w");
    (u "ཞ", u "zh"); (u "ཟ", u "z"); (u "འ", u "’"); (u "ཡ", u "y");
    (u "ར", u "r"); (u "ལ", u "l"); (u "ཤ", u "sh"); (u "ས", u "s");
    (u "ཧ", u "h"); (u "ཨ", u "a") ].

Definition subjoinedMap : JS.obj str := Eval vm_compute in
  [ (u "ྐ", u "k"); (u "ྑ", u "kh"); (u "ྒ", u "g"); (u "ྔ", u "ng");
    (u "ྕ", u "ch"); (u "ྖ", u "chh"); (u "ྗ", u "j"); (u "ྙ", u "ny");
    (u "ྟ", u "t"); (u "ྠ", u "th"); (u "ྡ", u "d"); (u "ྣ", u "n");
    (u "ྤ", u "p"); (u "ྥ", u "ph"); (u "ྦ", u "b"); (u "ྨ", u "m");
    (u "ྩ", u "ts"); (u "ྪ", u "tsh"); (u "ྫ", u "dz"); (u "ྭ", u "w");
    (u "ྱ", u "y"); (u "ྲ", u "r"); (u "ླ", u "l"); (u "ྴ", u "sh");
    (u "ྶ", u "s"); (u "ྷ", u "h") ].

Definition vowelMap : JS.obj str := Eval vm_compute in
  [ (u "", u "a"); (u "ི", u "i"); (u "ུ", u "u"); (u "ེ", u "e");
    (u "ོ", u "o"); (u "ཱ", u "â"); (u "ཻ", u "ai"); (u "ཽ", u "au") ].

Definition finalMap : JS.obj str := Eval vm_compute in
  [ (u "ག", u "g"); (u "ང", u "ng"); (u "ད", u "d"); (u "ན", u "n");
    (u "བ", u "b"); (u "མ", u "m"); (u "འ", u "’"); (u "ར", u "r");
    (u "ལ", u "l"); (u "ས", u "s") ].

(** The class [[aeiouâ]]. *)
Definition is_vowel_letter (c : N) : bool :=
  existsb (N.eqb c) (u "aeiouâ").

Definition convertSyllable (syllable : str) : str :=
  let chars := syllable in
  let result := [] in
  let result :=
    match chars with
    | first :: _ =>
        if JS.has_truthy consonantMap [first]
        then result ++ default [] (JS.get consonantMap [first])
        else result
    | [] => result
    end in
  let result :=
    fold_left
      (fun result ch =>
         if JS.has_truthy subjoinedMap [ch]
         then result ++ default [] (JS.get subjoinedMap [ch])
         else result)
      (tail chars) result in
  let '(result, vowelApplied) :=
    fold_left
      (fun '(result, vowelApplied) ch =>
         if JS.has_truthy vowelMap [ch]
         then (JS.replaceSuffix (u "a") [] result
                 ++ default [] (JS.get vowelMap [ch]), true)
         else (result, vowelApplied))
      (tail chars) (result, false) in
  let result :=
    fold_left
      (fun result ch =>
         if JS.has_truthy finalMap [ch]
         then result ++ default [] (JS.get finalMap [ch])
         else result)
      (tail chars) result in
  if negb vowelApplied
     && negb (existsb is_vowel_letter (drop (length result - 1) result))
  then result ++ u "a"
  else result.

Definition applyPhonologicalRules (word : str) : str :=
  let w := word in
  let w := JS.dropPrefixBefore (u "d") [u "k"; u "g"] w in
  let w := JS.dropPrefixBefore (u "b") [u "z"] w in
  let w := JS.dropPrefixBefore (u "s") [u "d"] w in
  let w := JS.dropPrefixBefore (u "h") [u "b"] w in
  let w := JS.replacePrefix (u "brg") (u "g") w in
  let w := JS.replaceWhole (u "bzlogthabs") (u "dokthap") w in
  let w := JS.replaceSuffix (u "bo") (u "po") w in
  w.

Definition normalizeSyllables (syllables : list str) : str :=
  let raw := JS.join [] (List.map convertSyllable syllables) in
  applyPhonologicalRules raw.

Definition convertDzongkha (text : str) : str :=
  let syllables := List.filter JS.truthy (JS.splitEach (N.eqb 0x0F0B) text) in
  normalizeSyllables syllables.

End Phonological.

(** ** The converter with escaped code points *)

Module Escaped.

Definition consonantMap : JS.obj str := Eval vm_compute in
  [ ([0x0F40], u "k"); ([0x0F41], u "kh"); ([0x0F42], u "g");
    ([0x0F44], u "ch"); ([0x0F45], u "chh"); ([0x0F46], u "j");
    ([0x0F47], u "ny"); ([0x0F49], u "t"); ([0x0F4A], u "th");
    ([0x0F4B], u "d"); ([0x0F4C], u "n"); ([0x0F4E], u "p");
    ([0x0F4F], u "ph"); ([0x0F50], u "b"); ([0x0F51], u "m");
    ([0x0F53], u "ts"); ([0x0F54], u "tsh"); ([0x0F55], u "dz");
    ([0x0F5D], u "w"); ([0x0F5E], u "zh"); ([0x0F5F], u "z");
    ([0x0F60], u "’"); ([0x0F61], u "y"); ([0x0F62], u "r");
    ([0x0F63], u "l"); ([0x0F64], u "sh"); ([0x0F66], u "s");
    ([0x0F67], u "h"); ([0x0F68], u "a") ].

Definition subjoinedMap : JS.obj str := Eval vm_compute in
  [ ([0x0F90], u "k"); ([0x0F91], u "kh"); ([0x0F92], u "g");
    ([0x0F93], u "ng"); ([0x0F94], u "ch"); ([0x0F95], u "chh");
    ([0x0F96], u "j"); ([0x0F97], u "ny"); ([0x0F99], u "t");
    ([0x0F9A], u "th"); ([0x0F9B], u "d"); ([0x0F9C], u "n");
    ([0x0F9E], u "p"); ([0x0F9F], u "ph"); ([0x0FA0], u "b");
    ([0x0FA1], u "m"); ([0x0FA3], u "ts"); ([0x0FA4], u "tsh");
    ([0x0FA5], u "dz"); ([0x0FA9], u "w"); ([0x0FBB], u "y");
    ([0x0FBA], u "r"); ([0x0FBC], u "l"); ([0x0FB4], u "sh");
    ([0x0FB6], u "s"); ([0x0FB7], u "h") ].

Definition vowelMap : JS.obj str := Eval vm_compute in
  [ ([0x0F72], u "i"); ([0x0F74], u "u"); ([0x0F7A], u "e");
    ([0x0F7C], u "o"); ([0x0F71], u "â"); ([0x0F7D], u "ai");
    ([0x0F7E], u "au") ].

Definition finalMap : JS.obj str := Eval vm_compute in
  [ ([0x0F42], u "g"); ([0x0F43], u "ng"); ([0x0F4B], u "d");
    ([0x0F4C], u "n"); ([0x0F50], u "b"); ([0x0F51], u "m");
    ([0x0F60], u "’"); ([0x0F62], u "r"); ([0x0F63], u "l");
    ([0x0F66], u "s") ].

(** The loop over the characters after the first one, on the state
    [(subjoined, vowel, final)]. *)
Definition parseStep (st : str * str * str) (ch : N) : str * str * str :=
  let '(subjoined, vowel, final) := st in
  if JS.has_truthy subjoinedMap [ch]
  then (subjoined ++ default [] (JS.get subjoinedMap [ch]), vowel, final)
  else if JS.has_truthy vowelMap [ch]
  then (subjoined, default [] (JS.get vowelMap [ch]), final)
  else if JS.has_truthy finalMap [ch]
  then (subjoined, vowel, final ++ default [] (JS.get finalMap [ch]))
  else st.

Definition parseSyllable (syllable : str) : str :=
  match syllable with
  | [] => []
  | first :: others =>
      let root := JS.get_or consonantMap [first] [] in
      let '(subjoined, vowel, final) :=
        fold_left parseStep others ([], [], []) in
      let nucleus := if JS.truthy vowel then vowel else u "a" in
      let '(nucleus, root) :=
        if bool_decide (vowel = u "â") then
          (if bool_decide (nucleus = u "a") then u "â" else nucleus, root)
        else if JS.truthy vowel then
          (nucleus,
           if negb (bool_decide (nucleus = u "a"))
           then JS.replaceSuffix (u "a") [] root else root)
        else (nucleus, root) in
      root ++ subjoined ++ nucleus ++ final
  end.

Definition applyRules (word : str) : str :=
  let w := word in
  let w := JS.dropPrefixBefore (u "d") [u "k"; u "g"] w in
  let w := JS.dropPrefixBefore (u "b") [u "z"; u "zh"] w in
  let w := JS.dropPrefixBefore (u "s") [u "d"] w in
  let w := JS.dropPrefixBefore (u "h") [u "b"] w in
  let w := JS.replacePrefix (u "brg") (u "g") w in
  let w := JS.replaceWhole (u "bzlogthabs") (u "dokthap") w in
  let w := JS.replaceSuffix (u "bo") (u "po") w in
  w.

Definition convertDzongkha (text : str) : str :=
  let syllables := List.filter JS.truthy (JS.splitEach (N.eqb 0x0F0B) text) in
  let romanSyllables := List.map parseSyllable syllables in
  let joined := JS.join [] romanSyllables in
  applyRules joined.

End Escaped.

(** * Vocabulary of the properties *)

Import Checked.

(** What [normalizeKey] keeps: everything but the tsheg, the four
    punctuation marks and white space. *)
Definition kept (c : N) : bool :=
  negb (TSHEG =? c) && negb (is_shad_or_space c).

(** The key that the window of [w] tokens at [i] is looked up under. *)
Definition windowKey (rawTokens : list str) (i w : nat) : str :=
  normalizeKey (JS.join [] (take w (drop i rawTokens))).

(** [segmented tokens out]: the output items stand, in order, for
    consecutive blocks of the token list that cover it; a block is one
    token, converted by [convertSyllable], or a window of two or three
    tokens that is a key of the exception table. *)
Inductive segmented : list str -> list str -> Prop :=
| seg_done : segmented [] []
| seg_token (t : str) (ts os : list str) :
    segmented ts os -> segmented (t :: ts) (convertSyllable t :: os)
| seg_window (w : nat) (r : str) (ts os : list str) :
    (w = 2 \/ w = 3)%nat -> (w <= length ts)%nat ->
    EXCEPTIONS !! windowKey ts 0 w = Some r ->
    segmented (drop w ts) os -> segmented ts (r :: os).

(** The roles of a code point, as the tables of the decomposition give
    them. *)
Definition is_root (ch : N) : bool := JS.has_truthy INITIAL_BASE [ch].
Definition is_final (ch : N) : bool := JS.has_truthy FINAL_MAP [ch].
Definition is_medial (ch : N) : bool := JS.has_truthy MEDIALS [ch].
Definition is_vowel_sign (ch : N) : bool :=
  existsb (fun v => bool_decide ([ch] = v)) (JS.keys VOWELS).

(** A predicate that holds of no vowel sign and not of the long mark, the
    tsheg, the punctuation marks or white space sees the same code points
    in the working sequence of the decomposition as in the syllable. *)
Definition consonantal (p : N -> bool) : Prop :=
  forall ch, p ch = true ->
    is_vowel_sign ch = false /\ (ch =? LONG_MARK) = false /\ kept ch = true.

(** The working sequence [cleaned] of [decomposeSyllableRaw] after the
    vowel sign has been taken out. *)
Definition working (syll : str) : str :=
  snd (findVowelSign (JS.keys VOWELS)
         (List.filter (fun ch => negb (ch =? LONG_MARK))
            (List.filter
               (fun ch => negb (ch =? TSHEG) && negb (is_shad_or_space ch))
               syll))).

(** What the rule-based path emits for a token without a base initial:
    the normalized text, or the trimmed text when nothing is left of it. *)
Definition passthrough (t : str) : str :=
  if JS.truthy (normToken (JS.trim t)) then normToken (JS.trim t)
  else JS.trim t.

(** [rulePath syll b]: the conversion of [syll] goes through the rules, with
    base initial [b]: the trimmed syllable is not empty, it is no key of
    the exception table, no whole-syllable cluster entry matches it, and
    the decomposition finds the base initial [b]. *)
Definition rulePath (syll : str) (b : N) : Prop :=
  JS.truthy (JS.trim syll) = true
  /\ EXCEPTIONS !! normToken (JS.trim syll) = None
  /\ (forall cm, findClusterMap (JS.trim syll) = Some cm -> whole cm = false)
  /\ baseInitial (decomposeSyllableRaw (JS.trim syll)) = Some b.

(** The head belongs to the voiced class. *)
Definition voiced (b : N) : bool := JS.set_has DEVOICE_CANDIDATES [b].

(** A hard-cluster override applies: a cluster key occurs in the syllable
    and its entry is partial and prefers the hard form. *)
Definition hardCluster (raw : str) : bool :=
  match findClusterMap raw with
  | Some cm => negb (whole cm) && preferHard cm
  | None => false
  end.

(** The three conditions of the devoicing rule. *)
Definition devoiced (raw : str) (b : N) : bool :=
  voiced b && negb (hasPrefix (decomposeSyllableRaw raw))
  && negb (hardCluster raw).

(** The initial part of the Roman form, medials included. *)
Definition initialOf (raw : str) (b : N) : str :=
  let clmap := findClusterMap raw in
  let comp := decomposeSyllableRaw raw in
  addMedials (medialsFound comp)
             (devoice (hardened clmap comp) b (initialHint clmap b)).

(** [lacks c s]: the character [c] does not occur in [s]. *)
Definition lacks (c : N) (s : str) : bool :=
  forallb (fun a => negb (a =? c)) s.

(** The circumflexed form of a vowel letter: a→â, e→ê, i→î, o→ô, u→û. *)
Definition circumflex (v : N) : N :=
  if v =? 0x61 then 0xE2
  else if v =? 0x65 then 0xEA
  else if v =? 0x69 then 0xEE
  else if v =? 0x6F then 0xF4
  else if v =? 0x75 then 0xFB
  else v.

Definition is_circumflexed (c : N) : bool :=
  existsb (N.eqb c) [0xE2; 0xEA; 0xEE; 0xF4; 0xFB].

(** The hypothesis of the bare-syllable property: the decomposition has a
    head [b] and no medial, no vowel sign, no final and no prefix. *)
Definition bareHead (syll : str) (b : N) : Prop :=
  let comp := decomposeSyllableRaw (JS.trim syll) in
  baseInitial comp = Some b
  /\ medialsFound comp = []
  /\ vowelSign comp = []
  /\ finalChar comp = None
  /\ hasPrefix comp = false.

(** The sequence [cleaned] of [decomposeSyllableRaw] before the vowel sign
    is looked for. *)
Definition cleanedOf (syll : str) : str :=
  List.filter (fun ch => negb (ch =? LONG_MARK)) (List.filter kept syll).

(** The vowel sign that comes first in the order of the [VOWELS] table
    (i, u, e, o) among those that occur in the syllable. *)
Definition tableFirstVowel (syll : str) : str :=
  if existsb (N.eqb 0x0F72) syll then [0x0F72]
  else if existsb (N.eqb 0x0F74) syll then [0x0F74]
  else if existsb (N.eqb 0x0F7A) syll then [0x0F7A]
  else if existsb (N.eqb 0x0F7C) syll then [0x0F7C]
  else [].

(** The first vowel sign in the order of the code points of the
    syllable. *)
Definition firstVowelInOrder (syll : str) : str :=
  match List.find is_vowel_sign syll with
  | Some ch => [ch]
  | None => []
  end.

(** The syllable without its vowel signs. *)
Definition withoutVowelSigns (syll : str) : str :=
  List.filter (fun ch => negb (is_vowel_sign ch)) syll.

(** The syllable as the extended converter reads it: trimmed, and without
    the tshegs and the white space at its ends. *)
Definition extTrimmed (syll : str) : str :=
  Extended.stripEnds Extended.is_tsheg_or_space (JS.trim syll).

(** The conversion of [syll] by the extended converter goes through the
    rules, with base initial [b]. *)
Definition extRulePath (syll : str) (b : N) : Prop :=
  JS.truthy syll = true
  /\ Extended.read Extended.exceptions (extTrimmed syll) = None
  /\ Extended.baseInitial (Extended.decomposeSyllable (extTrimmed syll))
     = Some b.

(** The soft form is chosen and differs from the hard one. *)
Definition extSoftened (syll : str) (b : N) : bool :=
  voiced b
  && negb (Extended.hasPrefix (Extended.decomposeSyllable (extTrimmed syll)))
  && negb (Extended.hasSubjoined
             (Extended.decomposeSyllable (extTrimmed syll))).

(** A letter of the prefix set. *)
Definition is_prefix (ch : N) : bool := JS.set_has PREFIX_SET [ch].

(** The letters of a sequence that stand before its first root letter,
    and those that stand after it. *)
Fixpoint beforeHead (l : str) : str :=
  match l with
  | [] => []
  | c :: r => if is_root c then [] else c :: beforeHead r
  end.

Fixpoint afterHead (l : str) : str :=
  match l with
  | [] => []
  | c :: r => if is_root c then r else afterHead r
  end.

(** The working sequence of a syllable from its head [b] on. *)
Definition headOnwards (syll : str) (b : N) : str :=
  b :: afterHead (working (JS.trim syll)).

(** The last letter of the final table among the letters that follow the
    head: the final of the syllable, the head left out. *)
Definition finalAfterHead (syll : str) : option N :=
  List.find is_final (rev (afterHead (working (JS.trim syll)))).

(** ** Vocabulary of the further properties *)

(** No window of two or three tokens is a key of the exception table, at
    any position of the token list. *)
Definition noWindow (rawTokens : list str) : bool :=
  forallb (fun i => bool_decide (matchWindow rawTokens i [3; 2]%nat = None))
          (seq 0 (length rawTokens)).

(** The four punctuation marks that [normalizeKey] removes. *)
Definition is_shad (c : N) : bool := existsb (N.eqb c) (u "།༎༏༔").

(** A character that is no letter of the root table and no punctuation
    mark. *)
Definition foreign (c : N) : bool := negb (is_root c) && negb (is_shad c).

(** A list of keys in which no key is longer than one before it. *)
Fixpoint longest_first (l : list str) : Prop :=
  match l with
  | [] => True
  | a :: r => Forall (fun b => (length b <= length a)%nat) r /\ longest_first r
  end.

(** A string without any character of the Tibetan block. *)
Definition romanized (s : str) : bool :=
  forallb (fun c => negb (Extended.isTibetanChar [c])) s.

(** The only white space in the syllable is the space U+0020. *)
Definition plainSpaces (s : str) : bool :=
  forallb (fun c => negb (JS.is_space c) || (c =? 0x20)) s.

(** A subjoined letter, as the extended converter lists them. *)
Definition is_subjoined (c : N) : bool :=
  JS.set_has Extended.subjoinedChars [c].

(** The classes of the tokenizer of the complete converter. *)
Definition is_head (c : N) : bool := JS.has_truthy Complete.ROOT [c].
Definition is_stack (c : N) : bool := JS.has_truthy Complete.SUB [c].
Definition is_vowel_mark (c : N) : bool := JS.has_truthy Complete.VOWEL [c].
Definition is_coda (c : N) : bool := JS.has_truthy Complete.FINAL [c].

(** A character after the first one that goes to the rest of the token. *)
Definition unclassified (c : N) : bool :=
  negb (is_stack c) && negb (is_vowel_mark c) && negb (is_coda c).

(** A character that the complete converter has no use for: it is in
    none of its tables and it is no tsheg, shad or nyis shad. *)
Definition unmapped (c : N) : bool :=
  negb (is_head c) && unclassified c
  && negb (c =? Complete.TSHEG) && negb (c =? Complete.SHAD)
  && negb (c =? Complete.NYIS).

(** The class that [Complete.convertDzongkha] splits the text on. *)
Definition shadOrNyis (c : N) : bool :=
  (c =? Complete.SHAD) || (c =? Complete.NYIS).

(** The Roman form holds a vowel letter. *)
Definition hasNucleus (rom : str) : bool :=
  existsb Complete.is_vowel_letter rom.

(** The loop of [Complete.buildRomanFromToken] over the vowel signs of a
    token, on the state [(rom, vowelApplied)]. *)
Definition vowelLoop (vs : list N) (st : str * bool) : str * bool :=
  fold_left
    (fun '(rom, _) v =>
       let rom :=
         if JS.endsWith rom (u "a") then JS.replaceSuffix (u "a") [] rom
         else rom in
       (rom ++ default [] (JS.get Complete.VOWEL [v]), true))
    vs st.

(** The raw Roman form of a syllable in the complete converter. *)
Definition rawSyllable (syl : str) : str :=
  Complete.buildRomanFromToken (Complete.tokenizeSyllable syl).

(** A string without white space. *)
Definition spaceFree (s : str) : bool :=
  forallb (fun c => negb (JS.is_space c)) s.

(** A string that does not start with white space. *)
Definition startsClean (s : str) : bool :=
  match s with
  | [] => true
  | c :: _ => negb (JS.is_space c)
  end.

(** The letters ca and cha and their subjoined forms, which the
    phonological converter writes ch and chh and the complete converter c
    and ch. *)
Definition palatal (c : N) : bool := existsb (N.eqb c) (u "ཅཆྕྖ").

(** Two tables with the same keys, compared key by key at [[c]]. *)
Ltac by_keys Hpal :=
  repeat (let E := fresh "E" in
          case_bool_decide as E;
          [injection E as <-; first [reflexivity|discriminate Hpal]|]);
  reflexivity.

(** Case analysis on the membership of a table given by extension. *)
Ltac in_table H tac :=
  repeat (destruct H as [H|H]; [tac|]); destruct H.

(** * Properties of the checked converter *)

(** ** Lists under a filter *)

Section ListFacts.

Context {A : Type} (p f : A -> bool).

Lemma filter_idem (l : list A) :
  List.filter f (List.filter f l) = List.filter f l.
Proof.
  induction l as [|a l IH]; [reflexivity|]. simpl.
  destruct (f a) eqn:E; simpl; [rewrite E, IH|]; auto.
Qed.

Lemma find_head_filter (l : list A) :
  List.find p l = head (List.filter p l).
Proof.
  induction l as [|a l IH]; [reflexivity|]. simpl.
  destruct (p a); [reflexivity|exact IH].
Qed.

Lemma existsb_false_forallb (l : list A) :
  forallb (fun a => negb (p a)) l = true -> existsb p l = false.
Proof.
  induction l as [|a l IH]; [reflexivity|]. simpl.
  intros H. apply andb_prop in H as [Ha Hl].
  apply negb_true_iff in Ha. now rewrite Ha, IH.
Qed.

(** The filter [f] drops nothing that [p] accepts. *)
Hypothesis p_kept : forall a, p a = true -> f a = true.

Lemma filter_filter_absorb (l : list A) :
  List.filter p (List.filter f l) = List.filter p l.
Proof.
  induction l as [|a l IH]; [reflexivity|]. simpl.
  destruct (f a) eqn:Hf; simpl.
  - now rewrite IH.
  - destruct (p a) eqn:Hp; [|exact IH].
    apply p_kept in Hp. congruence.
Qed.

Lemma existsb_filter_absorb (l : list A) :
  existsb p (List.filter f l) = existsb p l.
Proof.
  induction l as [|a l IH]; [reflexivity|]. simpl.
  destruct (f a) eqn:Hf; simpl; [now rewrite IH|].
  destruct (p a) eqn:Hp; [|exact IH].
  apply p_kept in Hp. congruence.
Qed.

End ListFacts.

(** ** String literals *)

(** The decoding of the literals, on letters of each length of UTF-8 and on
    the syllables of the scenarios. *)
Lemma utf8_literals :
  u "a" = [0x61] /\ u "â" = [0xE2] /\ u "’" = [0x2019]
  /\ u "ཀ" = [0x0F40] /\ u "།" = [0x0F0D] /\ u "༣" = [0x0F23]
  /\ u "ག" = [0x0F42] /\ u "ཧཱ" = [0x0F67; 0x0F71]
  /\ u "ཧཱུ" = [0x0F67; 0x0F71; 0x0F74]
  /\ u "སླ" = [0x0F66; 0x0FB3]
  /\ u "བཀྲ་ཤིས" = [0x0F56; 0x0F40; 0x0FB2; 0x0F0B; 0x0F64; 0x0F72; 0x0F66]
  /\ u "འབྲུག" = [0x0F60; 0x0F56; 0x0FB2; 0x0F74; 0x0F42].
Proof. repeat split. Qed.

(** ** The normalizer *)

Section Normalizer.

Lemma trim_truthy (s : str) : JS.truthy (JS.trim s) = true -> JS.truthy s = true.
Proof. now destruct s. Qed.

Lemma trimStart_no_space (s : str) :
  Forall (fun c => JS.is_space c = false) s -> JS.trimStart s = s.
Proof.
  destruct 1 as [|c r Hc _]; simpl; [reflexivity|now rewrite Hc].
Qed.

Lemma trim_no_space (s : str) :
  Forall (fun c => JS.is_space c = false) s -> JS.trim s = s.
Proof.
  intros H. unfold JS.trim, JS.trimEnd.
  rewrite (trimStart_no_space s H).
  rewrite trimStart_no_space, rev_involutive; [reflexivity|].
  apply List.Forall_forall. intros c Hc. rewrite List.Forall_forall in H.
  apply H. now apply in_rev.
Qed.

Lemma normalizeKey_filter (s : str) : normalizeKey s = List.filter kept s.
Proof.
  unfold normalizeKey. destruct s as [|c r]; [reflexivity|].
  cbn [JS.truthy negb]. unfold JS.removeAll.
  rewrite trim_no_space.
  - generalize (c :: r). intros l. induction l as [|a l IH]; [reflexivity|].
    unfold kept in *. cbn [List.filter].
    destruct (TSHEG =? a); cbn [negb andb]; [exact IH|].
    cbn [List.filter]. destruct (is_shad_or_space a); cbn [negb]; [exact IH|].
    now rewrite IH.
  - apply List.Forall_forall. intros a Ha.
    apply List.filter_In in Ha as [_ Ha]. unfold is_shad_or_space in Ha.
    destruct (JS.is_space a); [|reflexivity].
    now rewrite orb_true_r in Ha.
Qed.

Lemma normalizeKey_no_space (s : str) :
  Forall (fun c => JS.is_space c = false) (normalizeKey s).
Proof.
  rewrite normalizeKey_filter. apply List.Forall_forall. intros a Ha.
  apply List.filter_In in Ha as [_ Ha]. unfold kept, is_shad_or_space in Ha.
  destruct (JS.is_space a); [|reflexivity].
  now rewrite orb_true_r, andb_false_r in Ha.
Qed.


Lemma normalizeKey_normalized (s : str) :
  normalizeKey (normalizeKey s) = normalizeKey s.
Proof.
  rewrite !normalizeKey_filter. apply filter_idem.
Qed.

(** C9. The normalizer is idempotent: normalizing a string twice gives the
    same result as normalizing it once, for every string; a string that is
    already normalized (it holds no tsheg, no punctuation mark and no white
    space) is returned as it is. *)
Theorem normalizeKey_idempotent (s : str) :
  normalizeKey (normalizeKey s) = normalizeKey s
  /\ (forallb kept s = true -> normalizeKey s = s).
Proof.
  split; [apply normalizeKey_normalized|].
  intros H. rewrite normalizeKey_filter.
  induction s as [|c r IH]; [reflexivity|].
  simpl in *. apply andb_prop in H as [Hc Hr].
  now rewrite Hc, IH.
Qed.

(** A normalized segment is left as it is by the trimming that precedes
    every lookup. *)
Lemma trim_normalizeKey (s : str) : JS.trim (normalizeKey s) = normalizeKey s.
Proof. apply trim_no_space, normalizeKey_no_space. Qed.

End Normalizer.

(** ** The exception table *)

Section Exceptions.

Lemma addException_fold_lookup (es : list (str * str)) :
  forall (E : gmap str str) (k v : str),
    fold_left (fun E e => addException E (fst e) (snd e)) es E !! k = Some v ->
    (exists e, In e es /\ normalizeKey (fst e) = k /\ snd e = v)
    \/ E !! k = Some v.
Proof.
  induction es as [|e es IH]; intros E k v H; [now right|].
  simpl in H. apply IH in H as [(e' & Hin & Hk & Hv)|H].
  - left. exists e'. split; [now right|auto].
  - unfold addException in H.
    destruct (decide (normalizeKey (fst e) = k)) as [Heq|Hne].
    + rewrite Heq, lookup_insert_eq in H. injection H as H.
      left. exists e. split; [now left|auto].
    + rewrite lookup_insert_ne in H by exact Hne. now right.
Qed.

(** Every key of the table is a normalized string. *)
Lemma EXCEPTIONS_key_normalized (k v : str) :
  EXCEPTIONS !! k = Some v -> exists uScript, k = normalizeKey uScript.
Proof.
  intros H. apply addException_fold_lookup in H as [(e & _ & Hk & _)|H].
  - now exists (fst e).
  - now rewrite lookup_empty in H.
Qed.

Lemma EXCEPTIONS_no_empty_key : EXCEPTIONS !! [] = None.
Proof. vm_compute. reflexivity. Qed.

(** C1. For every key [k] of the exception table with value [v],
    [convertDzongkhaText k] returns exactly [v]: the whole-text lookup
    comes first, and the key is a fixed point of the normalization that
    precedes the lookup.  So does every text that the trimming and the
    normalization take to [k], whatever tshegs, punctuation marks and
    white space it holds. *)
Theorem convertDzongkhaText_exception_key (k v : str) :
  EXCEPTIONS !! k = Some v ->
  convertDzongkhaText k = Some v
  /\ forall input,
       normalizeKey (JS.trim input) = k -> convertDzongkhaText input = Some v.
Proof.
  intros H.
  assert (Hne : JS.truthy k = true).
  { destruct k; [|reflexivity]. now rewrite EXCEPTIONS_no_empty_key in H. }
  assert (Hin : forall input,
             normalizeKey (JS.trim input) = k ->
             convertDzongkhaText input = Some v).
  { intros input Hk. unfold convertDzongkhaText.
    assert (Ht : JS.truthy (JS.trim input) = true).
    { destruct (JS.trim input); [|reflexivity].
      rewrite <- Hk in Hne. discriminate Hne. }
    rewrite (trim_truthy input Ht), Ht, Hk, H. reflexivity. }
  split; [|exact Hin].
  apply Hin.
  destruct (EXCEPTIONS_key_normalized k v H) as [uScript Hk].
  rewrite Hk, trim_normalizeKey. apply normalizeKey_normalized.
Qed.

Lemma convertDzongkhaText_exception_key_witness :
  EXCEPTIONS !! u "བཀྲཤིས" = Some (u "Trashi")
  /\ convertDzongkhaText (u "བཀྲཤིས") = Some (u "Trashi")
  /\ convertDzongkhaText (u " བཀྲ་ཤིས། ") = Some (u "Trashi").
Proof.
  assert (H : EXCEPTIONS !! u "བཀྲཤིས" = Some (u "Trashi"))
    by (vm_compute; reflexivity).
  refine (conj H (conj _ _)).
  - exact (proj1 (convertDzongkhaText_exception_key _ _ H)).
  - apply (proj2 (convertDzongkhaText_exception_key _ _ H)).
    vm_compute. reflexivity.
Defined.

(** The same holds of the spellings as they are registered, with their
    tshegs: no entry is overwritten by a later one. *)
Lemma convertDzongkhaText_registered :
  Forall (fun e => convertDzongkhaText (fst e) = Some (snd e))
         exception_entries.
Proof. repeat constructor. Qed.

End Exceptions.

(** ** The token scan *)

Section TokenScan.

Local Open Scope nat_scope.

(** The table is looked up, never unfolded, in the proofs about the loop. *)
Local Opaque EXCEPTIONS convertSyllable normalizeKey.

Lemma matchWindow_Some (toks : list str) (i : nat) (ws : list nat) :
  forall w r,
    matchWindow toks i ws = Some (w, r) ->
    In w ws /\ i + w <= length toks /\ EXCEPTIONS !! windowKey toks i w = Some r.
Proof.
  induction ws as [|w0 ws IH]; intros w r H; [discriminate|].
  simpl in H. destruct (i + w0 <=? length toks) eqn:Hfit.
  - fold (windowKey toks i w0) in H.
    destruct (EXCEPTIONS !! windowKey toks i w0) as [r0|] eqn:Hk.
    + injection H as <- <-. apply Nat.leb_le in Hfit. auto with datatypes.
    + apply IH in H as (? & ? & ?). auto with datatypes.
  - apply IH in H as (? & ? & ?). auto with datatypes.
Qed.

(** The widest window that fits and is a key is the one chosen. *)
Lemma matchWindow_first (toks : list str) (i w : nat) (ws : list nat) (r : str) :
  i + w <= length toks ->
  EXCEPTIONS !! windowKey toks i w = Some r ->
  matchWindow toks i (w :: ws) = Some (w, r).
Proof.
  intros Hfit Hk. simpl. apply Nat.leb_le in Hfit. rewrite Hfit.
  fold (windowKey toks i w). now rewrite Hk.
Qed.

(** The scan looks forward only: what happens at the cursor depends on the
    tokens from the cursor on. *)
Lemma windowKey_drop (toks : list str) (i w : nat) :
  windowKey toks i w = windowKey (drop i toks) 0 w.
Proof. reflexivity. Qed.

Lemma matchWindow_drop (toks : list str) (i : nat) (ws : list nat) :
  i <= length toks ->
  matchWindow toks i ws = matchWindow (drop i toks) 0 ws.
Proof.
  intros Hi. induction ws as [|w ws IH]; [reflexivity|].
  simpl. rewrite length_drop.
  replace (i + w <=? length toks) with (w <=? length toks - i).
  - now rewrite IH.
  - destruct (Nat.leb_spec w (length toks - i));
      destruct (Nat.leb_spec (i + w) (length toks)); auto; lia.
Qed.

Lemma nth_drop_0 (toks : list str) (i : nat) :
  nth i toks [] = nth 0 (drop i toks) [].
Proof.
  revert i. induction toks as [|t toks IH]; intros [|i]; simpl; auto.
Qed.

Lemma scanStep_drop (toks : list str) (i : nat) (out : list str) :
  i <= length toks ->
  scanStep toks (i, out)
  = (i + fst (scanStep (drop i toks) (0, [])),
     out ++ snd (scanStep (drop i toks) (0, []))).
Proof.
  intros Hi. unfold scanStep.
  rewrite (matchWindow_drop toks i _ Hi), (nth_drop_0 toks i).
  destruct (matchWindow (drop i toks) 0 [3; 2]) as [[w r]|]; reflexivity.
Qed.

(** Each iteration moves the cursor forward, by one, two or three tokens,
    never past the end, and adds one output item. *)
Lemma scanStep_progress (toks : list str) (i : nat) (out : list str) :
  i < length toks ->
  (fst (scanStep toks (i, out)) = i + 1
   \/ fst (scanStep toks (i, out)) = i + 2
   \/ fst (scanStep toks (i, out)) = i + 3)
  /\ fst (scanStep toks (i, out)) <= length toks
  /\ exists r, snd (scanStep toks (i, out)) = out ++ [r].
Proof.
  intros Hi. unfold scanStep.
  destruct (matchWindow toks i [3; 2]) as [[w r]|] eqn:Hm; simpl.
  - apply matchWindow_Some in Hm as (Hw & Hfit & _).
    split; [|split; [exact Hfit|now exists r]].
    destruct Hw as [<-|[<-|[]]]; auto.
  - split; [auto|split; [lia|eauto]].
Qed.

Lemma scanLoop_drop (fuel : nat) :
  forall (toks : list str) (i : nat) (out : list str),
    i <= length toks ->
    scanLoop fuel toks (i, out)
    = (fun res => out ++ res) <$> scanLoop fuel (drop i toks) (0, []).
Proof.
  induction fuel as [|fuel IH]; intros toks i out Hi.
  - cbn [scanLoop fst snd]. rewrite length_drop.
    destruct (Nat.ltb_spec i (length toks));
      destruct (Nat.ltb_spec 0 (length toks - i)); try lia; try reflexivity.
    cbn. now rewrite app_nil_r.
  - cbn [scanLoop fst snd]. rewrite length_drop.
    destruct (Nat.ltb_spec i (length toks)) as [Hlt|Hge];
      destruct (Nat.ltb_spec 0 (length toks - i)); try lia.
    + destruct (scanStep_progress toks i out Hlt) as (Hw & Hle & _).
      rewrite (scanStep_drop toks i out Hi) in Hw, Hle |- *.
      destruct (scanStep (drop i toks) (0, [])) as [w rs] eqn:Hs.
      cbn [fst snd] in Hw, Hle |- *.
      rewrite (IH toks (i + w) (out ++ rs) Hle).
      rewrite (IH (drop i toks) w rs) by (rewrite length_drop; lia).
      rewrite drop_drop.
      destruct (scanLoop fuel (drop (i + w) toks) (0, [])); cbn; auto.
      now rewrite app_assoc.
    + cbn. now rewrite app_nil_r.
Qed.

(** One iteration from the start of a token list, as a block of the
    segmentation. *)
Lemma scanStep_head (t : str) (ts : list str) :
  (scanStep (t :: ts) (0, []) = (1, [convertSyllable t])
   /\ matchWindow (t :: ts) 0 [3; 2] = None)
  \/ exists w r,
       scanStep (t :: ts) (0, []) = (w, [r])
       /\ (w = 2 \/ w = 3) /\ w <= length (t :: ts)
       /\ EXCEPTIONS !! windowKey (t :: ts) 0 w = Some r.
Proof.
  unfold scanStep.
  destruct (matchWindow (t :: ts) 0 [3; 2]) as [[w r]|] eqn:Hm.
  - right. exists w, r. apply matchWindow_Some in Hm as (Hw & Hfit & Hk).
    repeat split; auto.
    destruct Hw as [<-|[<-|[]]]; auto.
  - left. auto.
Qed.

(** With one unit of fuel per token the loop runs to its end, and its
    output segments the token list. *)
Lemma scanLoop_segmented (fuel : nat) :
  forall toks : list str,
    length toks <= fuel ->
    exists out, scanLoop fuel toks (0, []) = Some out /\ segmented toks out.
Proof.
  induction fuel as [|fuel IH]; intros toks Hlen.
  - destruct toks; [|simpl in Hlen; lia].
    exists []. split; [reflexivity|constructor].
  - destruct toks as [|t ts].
    + exists []. split; [reflexivity|constructor].
    + cbn [scanLoop fst length]. cbn [Nat.ltb Nat.leb].
      destruct (scanStep_head t ts) as [[Hs _]|(w & r & Hs & Hw & Hfit & Hk)];
        rewrite Hs.
      * rewrite (scanLoop_drop fuel (t :: ts) 1 [convertSyllable t])
          by (simpl; lia).
        change (drop 1 (t :: ts)) with ts.
        destruct (IH ts) as (out & Ho & Hseg); [simpl in Hlen; lia|].
        rewrite Ho. exists (convertSyllable t :: out).
        split; [reflexivity|now constructor].
      * rewrite (scanLoop_drop fuel (t :: ts) w [r] Hfit).
        destruct (IH (drop w (t :: ts))) as (out & Ho & Hseg).
        { rewrite length_drop. simpl in *. lia. }
        rewrite Ho. exists (r :: out).
        split; [reflexivity|]. now apply (seg_window w).
Qed.

(** More fuel does not change what the loop returns. *)
Lemma scanLoop_more_fuel (fuel : nat) :
  forall (toks : list str) (st : nat * list str) (out : list str),
    scanLoop fuel toks st = Some out ->
    forall fuel', fuel <= fuel' -> scanLoop fuel' toks st = Some out.
Proof.
  induction fuel as [|fuel IH]; intros toks st out H fuel' Hle.
  - cbn [scanLoop] in H. destruct (fst st <? length toks) eqn:E;
      [discriminate|].
    destruct fuel'; cbn [scanLoop]; now rewrite E.
  - cbn [scanLoop] in H. destruct (fst st <? length toks) eqn:E.
    + destruct fuel' as [|fuel']; [lia|]. cbn [scanLoop]. rewrite E.
      apply (IH _ _ _ H). lia.
    + destruct fuel'; cbn [scanLoop]; now rewrite E.
Qed.

Lemma segmented_length (toks out : list str) :
  segmented toks out -> length out <= length toks <= 3 * length out.
Proof.
  induction 1 as [|t ts os _ IH|w r ts os Hw Hfit _ _ IH]; simpl.
  - lia.
  - lia.
  - rewrite length_drop in IH. lia.
Qed.

End TokenScan.

(** ** The decomposition, field by field *)

Section Decomposition.



Lemma filter_splice_first (p : N -> bool) (l : str) (v : str) :
  (forall ch, [ch] = v -> p ch = false) ->
  List.filter p (JS.splice_first l v) = List.filter p l.
Proof.
  intros H. induction l as [|a l IH]; [reflexivity|]. simpl.
  case_bool_decide as Ha.
  - now rewrite (H a Ha).
  - simpl. now rewrite IH.
Qed.

Lemma filter_findVowelSign (p : N -> bool) (ks : list str) (l : str) :
  (forall v ch, In v ks -> [ch] = v -> p ch = false) ->
  List.filter p (snd (findVowelSign ks l)) = List.filter p l.
Proof.
  intros H. induction ks as [|v ks IH]; [reflexivity|]. simpl.
  destruct (JS.truthy v && JS.array_includes l v); simpl.
  - apply filter_splice_first. intros ch. apply H. now left.
  - apply IH. intros v' ch Hin. apply H. now right.
Qed.

Lemma is_vowel_sign_key (v : str) (ch : N) :
  In v (JS.keys VOWELS) -> [ch] = v -> is_vowel_sign ch = true.
Proof.
  intros Hin <-. unfold is_vowel_sign. apply existsb_exists.
  exists [ch]. split; [exact Hin|]. now apply bool_decide_eq_true.
Qed.

Lemma filter_working (p : N -> bool) (syll : str) :
  consonantal p -> List.filter p (working syll) = List.filter p syll.
Proof.
  intros Hp. unfold working.
  rewrite filter_findVowelSign.
  - rewrite !filter_filter_absorb; [reflexivity| |].
    + intros a Ha. apply Hp in Ha as (_ & _ & Hk). unfold kept in Hk.
      now rewrite N.eqb_sym.
    + intros a Ha. apply Hp in Ha as (_ & -> & _). reflexivity.
  - intros v ch Hin Hv.
    destruct (p ch) eqn:E; [|reflexivity].
    apply Hp in E as (E & _). now rewrite (is_vowel_sign_key v ch Hin Hv) in E.
Qed.

Lemma decomposeSyllableRaw_fields (syll : str) :
  let d := decomposeSyllableRaw syll in
  baseInitial d = List.find is_root (working syll)
  /\ finalChar d = List.find is_final (rev (working syll))
  /\ medialsFound d
     = List.map (fun ch => default [] (JS.get MEDIALS [ch]))
                (List.filter is_medial (working syll))
  /\ hasPrefix d
     = existsb (fun ch => JS.set_has PREFIX_SET [ch])
               (removelast (working syll))
  /\ vowelSign d
     = fst (findVowelSign (JS.keys VOWELS)
              (List.filter (fun ch => negb (ch =? LONG_MARK))
                 (List.filter kept syll)))
  /\ rawChars d = List.filter kept syll.
Proof.
  assert (Hk : List.filter
                 (fun ch => negb (ch =? TSHEG) && negb (is_shad_or_space ch))
                 syll
               = List.filter kept syll).
  { apply filter_ext. intros a. unfold kept. now rewrite N.eqb_sym. }
  unfold decomposeSyllableRaw, working. rewrite Hk.
  destruct (findVowelSign _ _) as [v cl]. cbn [baseInitial finalChar
    medialsFound hasPrefix vowelSign rawChars fst snd].
  repeat split; reflexivity.
Qed.

(** Membership in a table of one-letter keys, decided by running through
    the keys. *)
Lemma has_truthy_In (o : JS.obj str) (ch : N) :
  JS.has_truthy o [ch] = true -> In [ch] (JS.keys o).
Proof.
  unfold JS.has_truthy. induction o as [|[k v] o IH]; simpl; [discriminate|].
  case_bool_decide as Hk; [now left|]. intros H. right. now apply IH.
Qed.

Lemma is_root_consonantal : consonantal is_root.
Proof.
  intros ch H. apply has_truthy_In in H.
  in_table H ltac:(injection H as <-; now vm_compute).
Qed.

Lemma is_final_consonantal : consonantal is_final.
Proof.
  intros ch H. apply has_truthy_In in H.
  in_table H ltac:(injection H as <-; now vm_compute).
Qed.

Lemma is_medial_consonantal : consonantal is_medial.
Proof.
  intros ch H. apply has_truthy_In in H.
  in_table H ltac:(injection H as <-; now vm_compute).
Qed.

(** The base initial is the first root letter of the syllable, the final
    is its last letter of the final table, the medials are its medial
    signs in order: none of them depends on the vowel signs. *)
Lemma baseInitial_find (syll : str) :
  baseInitial (decomposeSyllableRaw syll) = List.find is_root syll.
Proof.
  destruct (decomposeSyllableRaw_fields syll) as (-> & _).
  rewrite !find_head_filter.
  now rewrite (filter_working _ _ is_root_consonantal).
Qed.

Lemma finalChar_find (syll : str) :
  finalChar (decomposeSyllableRaw syll) = List.find is_final (rev syll).
Proof.
  destruct (decomposeSyllableRaw_fields syll) as (_ & -> & _).
  rewrite !find_head_filter, !filter_rev.
  now rewrite (filter_working _ _ is_final_consonantal).
Qed.

Lemma medialsFound_filter (syll : str) :
  medialsFound (decomposeSyllableRaw syll)
  = List.map (fun ch => default [] (JS.get MEDIALS [ch]))
             (List.filter is_medial syll).
Proof.
  destruct (decomposeSyllableRaw_fields syll) as (_ & _ & -> & _).
  now rewrite (filter_working _ _ is_medial_consonantal).
Qed.

Lemma longMark_existsb (syll : str) :
  longMark (decomposeSyllableRaw syll) = existsb (N.eqb LONG_MARK) syll.
Proof.
  unfold decomposeSyllableRaw. destruct (findVowelSign _ _) as [v cl].
  cbn [longMark]. induction syll as [|a l IH]; [reflexivity|].
  cbn [List.filter existsb].
  destruct (LONG_MARK =? a) eqn:E.
  - apply N.eqb_eq in E as <-. reflexivity.
  - destruct (negb (a =? TSHEG) && negb (is_shad_or_space a)); [|exact IH].
    cbn [existsb]. now rewrite E.
Qed.

(** What the decomposition reads off a syllable.  The base initial is the
    first letter of the root table, the final is the last letter of the
    final table, wherever they stand, so that a lone letter of both tables
    is the base initial and the final at once; the medials are the medial
    signs in order; the prefix flag tells that a letter of the prefix set
    stands in the working sequence before its last place. *)
Theorem decomposeSyllableRaw_reads (syll : str) (b : N) :
  baseInitial (decomposeSyllableRaw syll) = List.find is_root syll
  /\ finalChar (decomposeSyllableRaw syll) = List.find is_final (rev syll)
  /\ medialsFound (decomposeSyllableRaw syll)
     = List.map (fun ch => default [] (JS.get MEDIALS [ch]))
                (List.filter is_medial syll)
  /\ longMark (decomposeSyllableRaw syll) = existsb (N.eqb LONG_MARK) syll
  /\ hasPrefix (decomposeSyllableRaw syll)
     = existsb (fun ch => JS.set_has PREFIX_SET [ch])
               (removelast (working syll))
  /\ (is_root b = true -> is_final b = true ->
      baseInitial (decomposeSyllableRaw [b]) = Some b
      /\ finalChar (decomposeSyllableRaw [b]) = Some b).
Proof.
  split; [apply baseInitial_find|].
  split; [apply finalChar_find|].
  split; [apply medialsFound_filter|].
  split; [apply longMark_existsb|].
  split; [apply (decomposeSyllableRaw_fields syll)|].
  intros Hr Hf. rewrite baseInitial_find, finalChar_find.
  cbn [rev app List.find]. now rewrite Hr, Hf.
Qed.

End Decomposition.

(** ** Tokens without a base initial *)

Section Unrecognized.

Lemma startsWith_In (k : str) :
  forall s c, JS.startsWith s k = true -> In c k -> In c s.
Proof.
  induction k as [|a k IH]; intros s c H Hc; [destruct Hc|].
  destruct s as [|b s]; [discriminate|]. simpl in H.
  apply andb_prop in H as [Hab Hs]. apply N.eqb_eq in Hab as <-.
  destruct Hc as [<-|Hc]; [now left|right; eauto].
Qed.

Lemma includes_In (s k : str) (c : N) :
  JS.includes s k = true -> In c k -> In c s.
Proof.
  induction s as [|b s IH]; simpl; intros H Hc.
  - destruct k; [destruct Hc|discriminate].
  - apply orb_prop in H as [H|H].
    + eapply (startsWith_In k (b :: s)); eauto.
    + right. auto.
Qed.

Lemma existsb_root_find (s : str) :
  existsb is_root s = true -> List.find is_root s <> None.
Proof.
  intros H. apply existsb_exists in H as (c & Hc & Hr).
  intros Hn. now rewrite (find_none _ _ Hn c Hc) in Hr.
Qed.

Lemma exception_keys_have_root :
  List.Forall (fun e => existsb is_root (normalizeKey (fst e)) = true)
              exception_entries.
Proof. repeat constructor. Qed.

Lemma cluster_keys_have_root :
  List.Forall (fun k => existsb is_root k = true)
              (JS.sort_longest_first (JS.keys CLUSTER_INITIAL_MAP)).
Proof. repeat constructor. Qed.

Lemma no_root_no_exception (raw : str) :
  List.find is_root raw = None -> EXCEPTIONS !! normToken raw = None.
Proof.
  intros Hn. destruct (EXCEPTIONS !! normToken raw) as [v|] eqn:E;
    [exfalso|reflexivity].
  apply addException_fold_lookup in E as [(e & Hin & Hk & _)|E];
    [|now rewrite lookup_empty in E].
  pose proof exception_keys_have_root as H.
  rewrite List.Forall_forall in H. specialize (H e Hin).
  unfold normToken in Hk. rewrite Hk, normalizeKey_filter in H.
  apply existsb_exists in H as (c & Hc & Hr).
  apply List.filter_In in Hc as [Hc _].
  now rewrite (find_none _ _ Hn c Hc) in Hr.
Qed.

Lemma no_root_no_cluster (raw : str) :
  List.find is_root raw = None -> findClusterMap raw = None.
Proof.
  intros Hn. unfold findClusterMap.
  destruct (List.find (fun k => JS.includes raw k) _) as [k|] eqn:E;
    [exfalso|reflexivity].
  apply find_some in E as [Hin Hinc].
  pose proof cluster_keys_have_root as H.
  rewrite List.Forall_forall in H. specialize (H k Hin).
  apply existsb_exists in H as (c & Hc & Hr).
  now rewrite (find_none _ _ Hn c (includes_In raw k c Hinc Hc)) in Hr.
Qed.

Lemma convertSyllable_no_head (t : str) :
  baseInitial (decomposeSyllableRaw (JS.trim t)) = None ->
  convertSyllable t = passthrough t.
Proof.
  intros H. unfold convertSyllable, passthrough.
  destruct (JS.truthy (JS.trim t)) eqn:Ht.
  - rewrite (trim_truthy t Ht). cbn [negb].
    pose proof H as Hr. rewrite baseInitial_find in Hr.
    rewrite (no_root_no_exception _ Hr), (no_root_no_cluster _ Hr).
    now rewrite H.
  - cbn [negb]. destruct (JS.trim t) as [|c r] eqn:E; [|discriminate].
    cbn. now destruct (JS.truthy t).
Qed.

Lemma passthrough_truthy (t : str) :
  JS.truthy (JS.trim t) = true -> JS.truthy (passthrough t) = true.
Proof.
  intros H. unfold passthrough.
  now destruct (JS.truthy (normToken (JS.trim t))) eqn:E.
Qed.

(** C8, as amended.  A token in which the decomposition finds no base
    initial is passed through: its normalized text is emitted, or, when the
    normalization leaves nothing of it (the token is made of punctuation
    marks), the trimmed token itself; what is emitted is not empty unless
    the token is.  The item takes the token's place in the output: when
    the cursor stands on the token and no window matches there, the
    output so far is kept, the item follows, and the rest of the output is
    the conversion of the remaining tokens, the same as if they were
    converted on their own. *)
Theorem unrecognized_token_passthrough
  (rawTokens : list str) (i : nat) (out : list str) (fuel : nat) (t : str) :
  rawTokens !! i = Some t ->
  matchWindow rawTokens i [3; 2]%nat = None ->
  baseInitial (decomposeSyllableRaw (JS.trim t)) = None ->
  convertSyllable t = passthrough t
  /\ (JS.truthy (JS.trim t) = true -> JS.truthy (passthrough t) = true)
  /\ scanStep rawTokens (i, out) = (S i, out ++ [passthrough t])
  /\ scanLoop (S fuel) rawTokens (i, out)
     = (fun res => out ++ passthrough t :: res)
         <$> scanLoop fuel (drop (S i) rawTokens) (O, []).
Proof.
  intros Ht Hw Hb.
  pose proof (convertSyllable_no_head t Hb) as Hc.
  assert (Hlt : (i < length rawTokens)%nat) by (eapply lookup_lt_Some; eauto).
  assert (Hs : scanStep rawTokens (i, out) = (S i, out ++ [passthrough t])).
  { unfold scanStep. rewrite Hw.
    rewrite (nth_lookup_Some _ _ [] _ Ht), Hc. f_equal. lia. }
  repeat split; auto using passthrough_truthy.
  cbn [scanLoop fst]. apply Nat.ltb_lt in Hlt. rewrite Hlt, Hs.
  apply Nat.ltb_lt in Hlt.
  rewrite scanLoop_drop by lia.
  destruct (scanLoop fuel (drop (S i) rawTokens) (O, [])); cbn; [|reflexivity].
  now rewrite <- app_assoc.
Qed.

Lemma unrecognized_token_passthrough_witness :
  tokenize (u "ཀ་༣་ག") !! 1%nat = Some (u "༣")
  /\ matchWindow (tokenize (u "ཀ་༣་ག")) 1 [3; 2]%nat = None
  /\ baseInitial (decomposeSyllableRaw (JS.trim (u "༣"))) = None
  /\ scanLoop 2 (tokenize (u "ཀ་༣་ག")) (1%nat, [u "kak"])
     = Some [u "kak"; u "༣"; u "g'a"].
Proof.
  assert (Ht : tokenize (u "ཀ་༣་ག") !! 1%nat = Some (u "༣")) by reflexivity.
  assert (Hw : matchWindow (tokenize (u "ཀ་༣་ག")) 1 [3; 2]%nat = None)
    by reflexivity.
  assert (Hb : baseInitial (decomposeSyllableRaw (JS.trim (u "༣"))) = None)
    by reflexivity.
  refine (conj Ht (conj Hw (conj Hb _))).
  destruct (unrecognized_token_passthrough _ 1 [u "kak"] 1 _ Ht Hw Hb)
    as (_ & _ & _ & H).
  rewrite H. reflexivity.
Defined.

(** C8, as stated, fails on a token made of a punctuation mark: no base
    initial is found in it, its normalized text is empty, and the token
    itself is what the conversion emits.  And it fails on such a token
    where a window matches: before བརྒྱད the mark is taken into the
    two-token window that is looked up as the key བརྒྱད, and no output
    item stands for it. *)
Lemma unrecognized_token_not_normalized :
  baseInitial (decomposeSyllableRaw (JS.trim (u "།"))) = None
  /\ normToken (JS.trim (u "།")) = []
  /\ convertSyllable (u "།") = u "།"
  /\ convertSyllable (u "།") <> normToken (JS.trim (u "།"))
  /\ convertDzongkhaText (u "ཀ་། ག") = Some (u "kak ། g'a")
  /\ tokenize (JS.trim (u "ཀ་། བརྒྱད་ག")) !! 1%nat = Some (u "།")
  /\ matchWindow (tokenize (JS.trim (u "ཀ་། བརྒྱད་ག"))) 1 [3; 2]%nat
     = Some (2%nat, u "gä")
  /\ convertDzongkhaText (u "ཀ་། བརྒྱད་ག") = Some (u "kak gä g'a").
Proof. repeat split; try reflexivity. discriminate. Qed.

End Unrecognized.

(** ** Windows and termination of the scan *)

Section Windows.

Local Open Scope nat_scope.
Local Opaque EXCEPTIONS convertSyllable normalizeKey.

(** C2. Longest-match precedence: when the window of three tokens and
    the window of two tokens at the cursor are both keys of the exception
    table, the iteration takes the window of three: it emits the Roman
    string stored for it and moves the cursor forward by exactly three
    tokens, from where the loop goes on. *)
Theorem longest_window_wins
  (rawTokens : list str) (i : nat) (out : list str) (r3 r2 : str)
  (fuel : nat) :
  i + 3 <= length rawTokens ->
  EXCEPTIONS !! windowKey rawTokens i 3 = Some r3 ->
  EXCEPTIONS !! windowKey rawTokens i 2 = Some r2 ->
  scanStep rawTokens (i, out) = (i + 3, out ++ [r3])
  /\ scanLoop (S fuel) rawTokens (i, out)
     = scanLoop fuel rawTokens (i + 3, out ++ [r3]).
Proof.
  intros Hfit H3 _.
  assert (Hs : scanStep rawTokens (i, out) = (i + 3, out ++ [r3])).
  { unfold scanStep. now rewrite (matchWindow_first _ _ _ _ _ Hfit H3). }
  split; [exact Hs|].
  cbn [scanLoop fst]. rewrite Hs.
  replace (i <? length rawTokens) with true; [reflexivity|].
  symmetry. apply Nat.ltb_lt. lia.
Qed.

Lemma longest_window_wins_witness :
  (1 + 3 <= length (tokenize (u "ཀ་བཀྲ་ཤིས་།")))
  /\ EXCEPTIONS !! windowKey (tokenize (u "ཀ་བཀྲ་ཤིས་།")) 1 3
     = Some (u "Trashi")
  /\ EXCEPTIONS !! windowKey (tokenize (u "ཀ་བཀྲ་ཤིས་།")) 1 2
     = Some (u "Trashi")
  /\ scanStep (tokenize (u "ཀ་བཀྲ་ཤིས་།")) (1, [u "kak"])
     = (4, [u "kak"; u "Trashi"])
  /\ convertDzongkhaText (u "ཀ་བཀྲ་ཤིས་།") = Some (u "kak Trashi").
Proof.
  assert (Hfit : 1 + 3 <= length (tokenize (u "ཀ་བཀྲ་ཤིས་།")))
    by (vm_compute; lia).
  assert (H3 : EXCEPTIONS !! windowKey (tokenize (u "ཀ་བཀྲ་ཤིས་།")) 1 3
               = Some (u "Trashi")) by (vm_compute; reflexivity).
  assert (H2 : EXCEPTIONS !! windowKey (tokenize (u "ཀ་བཀྲ་ཤིས་།")) 1 2
               = Some (u "Trashi")) by (vm_compute; reflexivity).
  refine (conj Hfit (conj H3 (conj H2 (conj _ _)))).
  - exact (proj1 (longest_window_wins _ 1 [u "kak"] _ _ 0 Hfit H3 H2)).
  - vm_compute. reflexivity.
Defined.

(** The scan never runs out of fuel when it is given one unit per token. *)
Lemma convertDzongkhaText_returns (input : str) :
  exists r, convertDzongkhaText input = Some r.
Proof.
  unfold convertDzongkhaText.
  destruct (negb (JS.truthy input)); [eauto|].
  destruct (negb (JS.truthy (JS.trim input))); [eauto|].
  destruct (EXCEPTIONS !! normalizeKey (JS.trim input)); [eauto|].
  destruct (scanLoop_segmented _ (tokenize (JS.trim input)) (le_n _))
    as (out & -> & _).
  eauto.
Qed.

(** C10. The token scan terminates.  Every iteration moves the cursor
    strictly forward, by three or two tokens for a window and by one
    otherwise, and never past the end; so one unit of fuel per token is
    enough for the loop to run to its end, more fuel gives the same
    output, and [convertDzongkhaText] returns on every input.  The output
    items stand for consecutive blocks of one, two or three tokens that
    cover the token list, each token in exactly one block; there are at
    most as many output items as tokens. *)
Theorem tokenScan_terminates (rawTokens : list str) (input : str) :
  (forall i out,
      i < length rawTokens ->
      i < fst (scanStep rawTokens (i, out)) <= length rawTokens
      /\ (fst (scanStep rawTokens (i, out)) = i + 1
          \/ fst (scanStep rawTokens (i, out)) = i + 2
          \/ fst (scanStep rawTokens (i, out)) = i + 3))
  /\ (exists out,
         scanLoop (length rawTokens) rawTokens (0, []) = Some out
         /\ (forall fuel,
                length rawTokens <= fuel ->
                scanLoop fuel rawTokens (0, []) = Some out)
         /\ segmented rawTokens out
         /\ length out <= length rawTokens)
  /\ (exists r, convertDzongkhaText input = Some r).
Proof.
  split; [|split].
  - intros i out Hi.
    destruct (scanStep_progress rawTokens i out Hi) as (Hw & Hle & _).
    repeat split; auto. lia.
  - destruct (scanLoop_segmented _ rawTokens (le_n _)) as (out & Ho & Hseg).
    exists out. split; [exact Ho|]. split; [|split; [exact Hseg|]].
    + intros fuel Hf. exact (scanLoop_more_fuel _ _ _ _ Ho fuel Hf).
    + now apply segmented_length.
  - apply convertDzongkhaText_returns.
Qed.

End Windows.

(** ** The rule-based path *)

Section RulePath.

Lemma convertSyllable_rulePath (syll : str) (b : N) :
  rulePath syll b ->
  convertSyllable syll
  = initialOf (JS.trim syll) b
    ++ vowelOf (decomposeSyllableRaw (JS.trim syll))
    ++ finalOf (decomposeSyllableRaw (JS.trim syll)).
Proof.
  intros (Ht & He & Hc & Hb). unfold convertSyllable, initialOf.
  rewrite (trim_truthy syll Ht), Ht. cbn [negb]. rewrite He.
  destruct (findClusterMap (JS.trim syll)) as [[r w p]|] eqn:E.
  - specialize (Hc _ eq_refl). cbn in Hc. subst w. now rewrite Hb.
  - now rewrite Hb.
Qed.

(** *** Values of the tables *)

Lemma get_In {V : Type} (o : JS.obj V) (k : str) (v : V) :
  JS.get o k = Some v -> In (k, v) o.
Proof.
  induction o as [|[k' v'] o IH]; simpl; [discriminate|].
  case_bool_decide as Hk.
  - intros [= <-]. subst. now left.
  - intros H. right. auto.
Qed.

Lemma get_or_value (o : JS.obj str) (k d : str) :
  JS.get_or o k d = d \/ In (JS.get_or o k d) (List.map snd o).
Proof.
  unfold JS.get_or. destruct (JS.get o k) as [v|] eqn:E; [|now left].
  destruct (JS.truthy v); [|now left].
  right. apply get_In in E. now apply (in_map snd) in E.
Qed.

Lemma get_or_root (b : N) (d : str) :
  is_root b = true -> In (JS.get_or INITIAL_BASE [b] d) (List.map snd INITIAL_BASE).
Proof.
  unfold is_root, JS.has_truthy, JS.get_or. intros H.
  destruct (JS.get INITIAL_BASE [b]) as [v|] eqn:E; [|discriminate].
  rewrite H. apply get_In in E. now apply (in_map snd) in E.
Qed.

Lemma findClusterMap_In (raw : str) (cm : cluster) :
  findClusterMap raw = Some cm -> In cm (List.map snd CLUSTER_INITIAL_MAP).
Proof.
  unfold findClusterMap.
  destruct (List.find _ _) as [k|]; [|discriminate].
  intros H. apply get_In in H. now apply (in_map snd) in H.
Qed.

Lemma cluster_roman_truthy (raw : str) (cm : cluster) :
  findClusterMap raw = Some cm -> JS.truthy (roman cm) = true.
Proof.
  intros H. apply findClusterMap_In in H.
  assert (Hall : List.Forall (fun cm => JS.truthy (roman cm) = true)
                   (List.map snd CLUSTER_INITIAL_MAP))
    by (repeat constructor).
  rewrite List.Forall_forall in Hall. auto.
Qed.

Lemma baseInitial_is_root (raw : str) (b : N) :
  baseInitial (decomposeSyllableRaw raw) = Some b -> is_root b = true.
Proof.
  rewrite baseInitial_find. intros H. now apply find_some in H.
Qed.

(** *** The hardening and the devoicing rule *)

Lemma hardened_spec (raw : str) (comp : Decomposition) :
  (forall cm, findClusterMap raw = Some cm -> whole cm = false) ->
  hardened (findClusterMap raw) comp = hasPrefix comp || hardCluster raw.
Proof.
  intros Hw. unfold hardened, hardCluster, clusterHint.
  destruct (findClusterMap raw) as [cm|] eqn:E; [|now rewrite orb_false_r].
  rewrite (cluster_roman_truthy raw cm E), (Hw cm eq_refl). cbn [negb andb].
  destruct (preferHard cm); [now rewrite orb_true_r|now rewrite orb_false_r].
Qed.

Lemma lacks_app (c : N) (s t : str) :
  lacks c (s ++ t) = lacks c s && lacks c t.
Proof. apply forallb_app. Qed.

Lemma lacks_In (c : N) (s : str) : lacks c s = true -> ~ In c s.
Proof.
  unfold lacks. rewrite forallb_forall. intros H Hin.
  specialize (H c Hin). now rewrite N.eqb_refl in H.
Qed.

Lemma lacks_endsWith (c : N) (s : str) :
  lacks c s = true -> JS.endsWith s [c] = false.
Proof.
  intros H. unfold JS.endsWith. cbn [rev app].
  destruct (rev s) as [|a r] eqn:E; [reflexivity|].
  cbn [JS.startsWith]. rewrite andb_true_r.
  unfold lacks in H. rewrite forallb_forall in H.
  assert (Ha : In a s) by (apply in_rev; rewrite E; now left).
  specialize (H a Ha). rewrite N.eqb_sym. now destruct (a =? c).
Qed.

Lemma devoice_spec (raw : str) (b : N) :
  (forall cm, findClusterMap raw = Some cm -> whole cm = false) ->
  let base := initialHint (findClusterMap raw) b in
  lacks 0x27 base = true ->
  devoice (hardened (findClusterMap raw) (decomposeSyllableRaw raw)) b base
  = base ++ (if devoiced raw b then APOSTROPHE else []).
Proof.
  intros Hw base Hl. subst base. unfold devoice, devoiced, voiced, APOSTROPHE.
  rewrite (hardened_spec raw _ Hw), negb_orb.
  rewrite (lacks_endsWith _ _ Hl). cbn [negb].
  destruct (hasPrefix _), (hardCluster raw), (JS.set_has _ _);
    cbn [negb andb]; now rewrite ?app_nil_r.
Qed.

(** *** No table value holds an apostrophe or a circumflexed vowel *)

Lemma initialHint_value (raw : str) (b : N) :
  is_root b = true ->
  In (initialHint (findClusterMap raw) b)
     (List.map roman (List.map snd CLUSTER_INITIAL_MAP)
      ++ List.map snd INITIAL_BASE).
Proof.
  intros Hb. unfold initialHint, clusterHint. apply in_or_app.
  destruct (findClusterMap raw) as [cm|] eqn:E.
  - destruct (JS.truthy (roman cm) && negb (whole cm)).
    + left. apply in_map. now apply (findClusterMap_In raw).
    + right. now apply get_or_root.
  - right. now apply get_or_root.
Qed.

Lemma addMedials_app (ms : list str) :
  forall r, exists tail,
    addMedials ms r = r ++ tail
    /\ forall P : N -> bool,
         (forall m, In m ms -> forallb P m = true) -> forallb P tail = true.
Proof.
  unfold addMedials. induction ms as [|m ms IH]; intros r.
  - exists []. split; [now rewrite app_nil_r|reflexivity].
  - cbn [fold_left].
    destruct (IH (if negb (JS.endsWith r m) then r ++ m else r))
      as (tail & -> & Ht).
    destruct (negb (JS.endsWith r m)).
    + exists (m ++ tail). split; [now rewrite app_assoc|].
      intros P HP. rewrite forallb_app, (HP m), Ht; auto with datatypes.
    + exists tail. split; [reflexivity|].
      intros P HP. apply Ht. auto with datatypes.
Qed.

Lemma medialsFound_values (raw : str) (m : str) :
  In m (medialsFound (decomposeSyllableRaw raw)) ->
  In m (List.map snd MEDIALS).
Proof.
  rewrite medialsFound_filter. intros H.
  apply in_map_iff in H as (ch & <- & Hch).
  apply List.filter_In in Hch as [_ Hch].
  unfold is_medial, JS.has_truthy in Hch.
  destruct (JS.get MEDIALS [ch]) as [v|] eqn:E; [|discriminate].
  apply get_In in E. now apply (in_map snd) in E.
Qed.

Lemma finalOf_value (comp : Decomposition) :
  finalOf comp = [] \/ In (finalOf comp) (List.map snd FINAL_MAP).
Proof.
  unfold finalOf. destruct (finalChar comp) as [f|]; [|now left].
  unfold JS.has_truthy. destruct (JS.get FINAL_MAP [f]) as [v|] eqn:E;
    [|now left].
  destruct (JS.truthy v); [|now left].
  right. apply get_In in E. now apply (in_map snd) in E.
Qed.

(** The vowel before the long-vowel handling is one of a, i, u, e, o. *)
Lemma plain_vowel (vs : str) :
  exists v, JS.get_or VOWELS vs (u "a") = [v] /\ In v (u "aeiou").
Proof.
  destruct (get_or_value VOWELS vs (u "a")) as [->|H].
  - exists 0x61. split; [reflexivity|now left].
  - revert H. generalize (JS.get_or VOWELS vs (u "a")). intros s H.
    in_table H ltac:(subst s; eexists; split; [reflexivity|cbv; tauto]).
Qed.

Lemma circ_circumflex (v : N) :
  In v (u "aeiou") -> JS.get_or circ [v] [v] = [circumflex v].
Proof.
  intros H. in_table H ltac:(subst v; reflexivity).
Qed.

(** The parts of the Roman form, as they are assembled; [P] is a property
    of characters that holds throughout the tables. *)
Lemma convertSyllable_parts (P : N -> bool) (syll : str) (b : N) :
  rulePath syll b ->
  List.Forall (fun s => forallb P s = true)
    (List.map roman (List.map snd CLUSTER_INITIAL_MAP)
     ++ List.map snd INITIAL_BASE
     ++ List.map snd MEDIALS ++ List.map snd FINAL_MAP) ->
  exists tail,
    initialOf (JS.trim syll) b
    = initialHint (findClusterMap (JS.trim syll)) b
      ++ (if devoiced (JS.trim syll) b then APOSTROPHE else []) ++ tail
    /\ forallb P (initialHint (findClusterMap (JS.trim syll)) b) = true
    /\ forallb P tail = true
    /\ forallb P (finalOf (decomposeSyllableRaw (JS.trim syll))) = true.
Proof.
  intros (Ht & He & Hc & Hb) HP. unfold initialOf.
  set (raw := JS.trim syll) in *.
  pose proof (initialHint_value raw b (baseInitial_is_root raw b Hb)) as Hv.
  assert (Hl : lacks 0x27 (initialHint (findClusterMap raw) b) = true).
  { revert Hv. generalize (initialHint (findClusterMap raw) b). intros s Hv.
    assert (Hall : List.Forall (fun s => lacks 0x27 s = true)
              (List.map roman (List.map snd CLUSTER_INITIAL_MAP)
               ++ List.map snd INITIAL_BASE)) by (repeat constructor).
    rewrite List.Forall_forall in Hall. auto. }
  rewrite (devoice_spec raw b Hc Hl).
  destruct (addMedials_app (medialsFound (decomposeSyllableRaw raw))
              (initialHint (findClusterMap raw) b
               ++ (if devoiced raw b then APOSTROPHE else [])))
    as (tail & -> & Htail).
  rewrite List.Forall_forall in HP.
  exists tail. repeat split.
  - now rewrite <- !app_assoc.
  - apply HP. rewrite app_assoc. apply in_or_app. now left.
  - apply Htail. intros m Hm. apply HP.
    do 2 (apply in_or_app; right). apply in_or_app. left.
    now apply (medialsFound_values raw).
  - destruct (finalOf_value (decomposeSyllableRaw raw)) as [->|Hf];
      [reflexivity|].
    apply HP. do 3 (apply in_or_app; right). exact Hf.
Qed.

Lemma vowelOf_cases (comp : Decomposition) :
  exists v,
    In v (u "aeiou")
    /\ JS.get_or VOWELS (vowelSign comp) (u "a") = [v]
    /\ vowelOf comp
       = if longMark comp && negb (bool_decide (finalChar comp = Some NGA))
         then [circumflex v] else [v].
Proof.
  destruct (plain_vowel (vowelSign comp)) as (v & Hv & Hin).
  exists v. repeat split; auto. unfold vowelOf. rewrite Hv.
  destruct (longMark comp && _); [|reflexivity].
  now apply circ_circumflex.
Qed.

Lemma vowelOf_lacks_apostrophe (comp : Decomposition) :
  lacks 0x27 (vowelOf comp) = true.
Proof.
  destruct (vowelOf_cases comp) as (v & Hin & _ & ->).
  destruct (longMark comp && _);
    in_table Hin ltac:(subst v; reflexivity).
Qed.

(** The devoicing rule as the prefix flag drives it, for every syllable
    converted by the rules.  The Roman form is the initial hint (the
    head's base form, or the cluster hint), then the devoicing marker or
    nothing, then the rest; neither the hint nor the rest holds an
    apostrophe.  The marker is there if and only if the head is of the
    voiced class, the prefix flag of the decomposition is off, and no
    hard-cluster override (a partial cluster entry that prefers the hard
    form) applies.  The rule itself leaves an initial alone that already
    ends in the marker. *)
Lemma devoicing_by_flag (syll : str) (b : N) :
  rulePath syll b ->
  (exists rest,
      convertSyllable syll
      = initialHint (findClusterMap (JS.trim syll)) b
        ++ (if devoiced (JS.trim syll) b then APOSTROPHE else []) ++ rest
      /\ lacks 0x27 (initialHint (findClusterMap (JS.trim syll)) b) = true
      /\ lacks 0x27 rest = true)
  /\ (In 0x27 (convertSyllable syll)
      <-> voiced b = true
          /\ hasPrefix (decomposeSyllableRaw (JS.trim syll)) = false
          /\ hardCluster (JS.trim syll) = false)
  /\ (forall hasPrefix' initialRoman,
        JS.endsWith initialRoman APOSTROPHE = true ->
        devoice hasPrefix' b initialRoman = initialRoman).
Proof.
  intros Hr.
  destruct (convertSyllable_parts (fun a => negb (a =? 0x27)) syll b Hr)
    as (tail & Hi & Hb & Ht & Hf); [repeat constructor|].
  pose proof (convertSyllable_rulePath syll b Hr) as Hc.
  rewrite Hi in Hc. rewrite <- !app_assoc in Hc.
  set (base := initialHint (findClusterMap (JS.trim syll)) b) in *.
  set (comp := decomposeSyllableRaw (JS.trim syll)) in *.
  assert (Hrest : lacks 0x27 (tail ++ vowelOf comp ++ finalOf comp) = true).
  { rewrite !lacks_app. unfold lacks at 1 3. rewrite Ht, Hf.
    now rewrite vowelOf_lacks_apostrophe. }
  split; [|split].
  3: { intros hp r He. unfold devoice. rewrite He.
       now destruct (negb hp && JS.set_has DEVOICE_CANDIDATES [b]). }
  - exists (tail ++ vowelOf comp ++ finalOf comp).
    split; [exact Hc|split; [exact Hb|exact Hrest]].
  - assert (Hd : devoiced (JS.trim syll) b = true
                 <-> voiced b = true /\ hasPrefix comp = false
                     /\ hardCluster (JS.trim syll) = false).
    { unfold devoiced. fold comp.
      rewrite !andb_true_iff, !negb_true_iff. tauto. }
    rewrite <- Hd, Hc. destruct (devoiced (JS.trim syll) b).
    + split; [reflexivity|]. intros _.
      apply in_or_app. right. now left.
    + split; [|discriminate]. intros Hin. exfalso.
      cbn [app] in Hin. apply in_app_or in Hin as [Hin|Hin];
        [exact (lacks_In _ _ Hb Hin)|exact (lacks_In _ _ Hrest Hin)].
Qed.

(** *** The head in the working sequence *)

Lemma head_split (l : str) (b : N) :
  List.find is_root l = Some b ->
  l = beforeHead l ++ b :: afterHead l
  /\ forallb (fun c => negb (is_root c)) (beforeHead l) = true.
Proof.
  induction l as [|c r IH]; [discriminate|].
  cbn [List.find beforeHead afterHead].
  destruct (is_root c) eqn:E.
  - intros [= ->]. now split.
  - intros H. destruct (IH H) as [Hl Hf]. split.
    + cbn [app]. now rewrite <- Hl.
    + cbn [forallb]. now rewrite E, Hf.
Qed.

Lemma afterHead_no_root (l : str) :
  List.find is_root l = None -> afterHead l = [].
Proof.
  induction l as [|c r IH]; [reflexivity|]. cbn [List.find afterHead].
  destruct (is_root c); [discriminate|exact IH].
Qed.

(** The letters of the prefix set and of the final table are root
    letters. *)
Lemma prefix_is_root (c : N) : is_prefix c = true -> is_root c = true.
Proof.
  unfold is_prefix, JS.set_has. intros H. apply bool_decide_eq_true in H.
  apply list_elem_of_In in H.
  in_table H ltac:(injection H as <-; reflexivity).
Qed.

Lemma final_is_root (c : N) : is_final c = true -> is_root c = true.
Proof.
  intros H. apply has_truthy_In in H.
  in_table H ltac:(injection H as <-; reflexivity).
Qed.

Lemma existsb_none (p q : N -> bool) (l : str) :
  (forall c, p c = true -> q c = true) ->
  forallb (fun c => negb (q c)) l = true -> existsb p l = false.
Proof.
  intros Hpq H. apply existsb_false_forallb.
  rewrite forallb_forall in *. intros c Hc. specialize (H c Hc).
  destruct (p c) eqn:E; [|reflexivity]. now rewrite (Hpq c E) in H.
Qed.

Lemma removelast_app_cons (l : str) (b : N) (r : str) :
  removelast (l ++ b :: r) = l ++ removelast (b :: r).
Proof. apply removelast_app. discriminate. Qed.

Lemma find_app_l (p : N -> bool) (l r : str) :
  List.find p (l ++ r)
  = match List.find p l with Some a => Some a | None => List.find p r end.
Proof.
  induction l as [|a l IH]; [reflexivity|]. cbn [app List.find].
  now destruct (p a).
Qed.

Lemma find_none_forallb (p : N -> bool) (l : str) :
  forallb (fun c => negb (p c)) l = true -> List.find p l = None.
Proof.
  induction l as [|a l IH]; [reflexivity|]. cbn [forallb List.find].
  intros H. apply andb_prop in H as [Ha Hl]. apply negb_true_iff in Ha.
  rewrite Ha. auto.
Qed.

(** The prefix flag, read off the syllable: no letter before the head can
    set it, so that it tells of the head and of the letters after it. *)
Lemma hasPrefix_from_head (syll : str) (b : N) :
  baseInitial (decomposeSyllableRaw syll) = Some b ->
  existsb is_prefix (beforeHead (working syll)) = false
  /\ hasPrefix (decomposeSyllableRaw syll)
     = existsb is_prefix (removelast (b :: afterHead (working syll))).
Proof.
  intros Hb.
  destruct (decomposeSyllableRaw_fields syll) as (Hi & _ & _ & Hp & _).
  rewrite Hi in Hb. destruct (head_split _ _ Hb) as [Hl Hf].
  assert (Hn : existsb is_prefix (beforeHead (working syll)) = false)
    by (apply (existsb_none _ is_root); auto using prefix_is_root).
  split; [exact Hn|].
  rewrite Hp. rewrite Hl at 1. rewrite removelast_app_cons, existsb_app.
  fold is_prefix. now rewrite Hn.
Qed.

(** The final of the decomposition, read off the syllable: the last
    letter of the final table after the head, or else the head itself when
    it is a letter of the final table. *)
Lemma finalChar_from_head (syll : str) (b : N) :
  baseInitial (decomposeSyllableRaw syll) = Some b ->
  finalChar (decomposeSyllableRaw syll)
  = match List.find is_final (rev (afterHead (working syll))) with
    | Some f => Some f
    | None => if is_final b then Some b else None
    end.
Proof.
  intros Hb.
  destruct (decomposeSyllableRaw_fields syll) as (Hi & Hf & _).
  rewrite Hi in Hb. destruct (head_split _ _ Hb) as [Hl Hn].
  rewrite Hf. rewrite Hl at 1.
  rewrite rev_app_distr. cbn [rev]. rewrite <- app_assoc, !find_app_l.
  destruct (List.find is_final (rev (afterHead (working syll))));
    [reflexivity|].
  cbn [List.find app]. destruct (is_final b); [reflexivity|].
  apply find_none_forallb. rewrite forallb_forall in *.
  intros c Hc. apply in_rev in Hc. specialize (Hn c Hc).
  destruct (is_final c) eqn:E; [|reflexivity].
  now rewrite (final_is_root c E) in Hn.
Qed.

Lemma lacks_filter (c : N) (s : str) :
  lacks c s = true -> List.filter (N.eqb c) s = [].
Proof.
  unfold lacks. induction s as [|a s IH]; [reflexivity|].
  cbn [forallb List.filter]. intros H. apply andb_prop in H as [Ha Hs].
  apply negb_true_iff in Ha. rewrite N.eqb_sym, Ha. auto.
Qed.

(** C3.  The prefix test of the decomposition takes the head itself for a
    prefix.  In གང the head ག is of the voiced class, no letter stands
    before it and no cluster key occurs; yet the prefix flag is set, and
    the checked and the extended converter write gang, without the
    devoicing marker, whereas ག alone comes out as g'a.  In general, for
    every syllable converted by the rules: no letter that stands before
    the head is of the prefix set; the marker is written if and only if
    the head is of the voiced class, neither the head nor a letter after
    it, the last letter of the working sequence apart, is of the prefix
    set, and no hard-cluster override applies; and the marker is written
    at most once. *)
Theorem devoicing_prefix_test_on_head :
  (rulePath (u "གང") 0x0F42
   /\ voiced 0x0F42 = true
   /\ beforeHead (working (JS.trim (u "གང"))) = []
   /\ hardCluster (JS.trim (u "གང")) = false
   /\ hasPrefix (decomposeSyllableRaw (JS.trim (u "གང"))) = true
   /\ convertSyllable (u "གང") = u "gang"
   /\ convertDzongkhaText (u "གང") = Some (u "gang")
   /\ convertSyllable (u "ག") = u "g'a"
   /\ Extended.convertSyllable (u "གང") = Extended.Str (u "gang")
   /\ Extended.convertSyllable (u "ག") = Extended.Str (u "g'a"))
  /\ (forall syll b,
        rulePath syll b ->
        existsb is_prefix (beforeHead (working (JS.trim syll))) = false
        /\ (In 0x27 (convertSyllable syll)
            <-> voiced b = true
                /\ existsb is_prefix (removelast (headOnwards syll b)) = false
                /\ hardCluster (JS.trim syll) = false)
        /\ (length (List.filter (N.eqb 0x27) (convertSyllable syll))
            <= 1)%nat).
Proof.
  split.
  - repeat split; try reflexivity. intros cm H. discriminate H.
  - intros syll b Hr.
    pose proof Hr as (_ & _ & _ & Hb).
    destruct (hasPrefix_from_head _ _ Hb) as [Hn Hp].
    destruct (devoicing_by_flag syll b Hr)
      as ((rest & Hc & Hl1 & Hl2) & Hiff & _).
    split; [exact Hn|]. split.
    + unfold headOnwards. now rewrite <- Hp.
    + rewrite Hc, !List.filter_app.
      rewrite (lacks_filter _ _ Hl1), (lacks_filter _ _ Hl2), app_nil_r.
      cbn [app]. destruct (devoiced (JS.trim syll) b); cbn; lia.
Qed.

Lemma long_vowel_rule_path (syll : str) (b : N) :
  rulePath syll b ->
  longMark (decomposeSyllableRaw (JS.trim syll)) = true ->
  exists v,
    In v (u "aeiou")
    /\ JS.get_or VOWELS (vowelSign (decomposeSyllableRaw (JS.trim syll)))
                 (u "a") = [v]
    /\ is_circumflexed (circumflex v) = true
    /\ (finalChar (decomposeSyllableRaw (JS.trim syll)) <> Some NGA ->
        convertSyllable syll
        = initialOf (JS.trim syll) b ++ [circumflex v]
          ++ finalOf (decomposeSyllableRaw (JS.trim syll)))
    /\ (finalChar (decomposeSyllableRaw (JS.trim syll)) = Some NGA ->
        convertSyllable syll = initialOf (JS.trim syll) b ++ [v] ++ u "ng"
        /\ existsb is_circumflexed (convertSyllable syll) = false).
Proof.
  intros Hr Hlong.
  pose proof (convertSyllable_rulePath syll b Hr) as Hc.
  set (comp := decomposeSyllableRaw (JS.trim syll)) in *.
  destruct (vowelOf_cases comp) as (v & Hin & Hv & Hvo).
  rewrite Hlong in Hvo. cbn [andb] in Hvo.
  exists v. split; [exact Hin|]. split; [exact Hv|]. split; [|split].
  - in_table Hin ltac:(subst v; reflexivity).
  - intros Hng. rewrite Hc, Hvo.
    now rewrite bool_decide_eq_false_2.
  - intros Hng. rewrite Hvo, bool_decide_eq_true_2 in Hc by exact Hng.
    cbn [negb] in Hc.
    assert (Hf : finalOf comp = u "ng") by (unfold finalOf; now rewrite Hng).
    rewrite Hf in Hc. split; [exact Hc|].
    destruct (convertSyllable_parts
                (fun a => negb (is_circumflexed a)) syll b Hr)
      as (tail & Hi & Hb & Ht & _); [repeat constructor|].
    fold comp in Hi. rewrite Hc, Hi.
    apply existsb_false_forallb. rewrite !forallb_app, Hb, Ht.
    destruct (devoiced (JS.trim syll) b);
      in_table Hin ltac:(subst v; reflexivity).
Qed.

(** No key of the exception table holds the long-vowel mark, and no
    cluster entry holds a circumflexed vowel. *)
Lemma exception_keys_lack_long_mark :
  List.Forall (fun e => lacks LONG_MARK (normalizeKey (fst e)) = true)
              exception_entries.
Proof. repeat constructor. Qed.

Lemma cluster_romans_lack_circumflex :
  List.Forall (fun cm => existsb is_circumflexed (roman cm) = false)
              (List.map snd CLUSTER_INITIAL_MAP).
Proof. repeat constructor. Qed.

Lemma long_mark_no_exception (raw : str) :
  longMark (decomposeSyllableRaw raw) = true ->
  EXCEPTIONS !! normToken raw = None.
Proof.
  rewrite longMark_existsb. intros Hl.
  destruct (EXCEPTIONS !! normToken raw) as [v|] eqn:E; [exfalso|reflexivity].
  apply addException_fold_lookup in E as [(e & Hin & Hk & _)|E];
    [|now rewrite lookup_empty in E].
  pose proof exception_keys_lack_long_mark as H.
  rewrite List.Forall_forall in H. specialize (H e Hin).
  unfold normToken in Hk. rewrite Hk, normalizeKey_filter in H.
  apply existsb_exists in Hl as (c & Hc & Hlm).
  apply N.eqb_eq in Hlm as <-.
  apply (lacks_In _ _ H). apply List.filter_In. now split.
Qed.

(** The long-vowel rule as the final of the decomposition drives it.  For
    every syllable converted by the rules in which the long-vowel mark is
    present, the vowel is one of a, e, i, o, u; when the final of the
    decomposition is not the nasal-velar final, the Roman form has the
    circumflexed vowel (â, ê, î, ô, û) between the initial part and the
    final; when it is the nasal-velar final, the plain vowel is written
    before -ng.  And whatever path the conversion takes, a syllable with
    the long-vowel mark whose decomposition has the nasal-velar final has
    no circumflexed vowel in its Roman form. *)
Lemma long_vowel_by_field (syll : str) :
  (forall b,
      rulePath syll b ->
      longMark (decomposeSyllableRaw (JS.trim syll)) = true ->
      exists v,
        In v (u "aeiou")
        /\ JS.get_or VOWELS (vowelSign (decomposeSyllableRaw (JS.trim syll)))
                     (u "a") = [v]
        /\ is_circumflexed (circumflex v) = true
        /\ (finalChar (decomposeSyllableRaw (JS.trim syll)) <> Some NGA ->
            convertSyllable syll
            = initialOf (JS.trim syll) b ++ [circumflex v]
              ++ finalOf (decomposeSyllableRaw (JS.trim syll)))
        /\ (finalChar (decomposeSyllableRaw (JS.trim syll)) = Some NGA ->
            convertSyllable syll
            = initialOf (JS.trim syll) b ++ [v] ++ u "ng"))
  /\ (longMark (decomposeSyllableRaw (JS.trim syll)) = true ->
      finalChar (decomposeSyllableRaw (JS.trim syll)) = Some NGA ->
      existsb is_circumflexed (convertSyllable syll) = false).
Proof.
  split.
  - intros b Hr Hl.
    destruct (long_vowel_rule_path syll b Hr Hl) as (v & H1 & H2 & H3 & H4 & H5).
    exists v. repeat split; auto. intros Hng. now apply H5.
  - intros Hl Hng.
    assert (Ht : JS.truthy (JS.trim syll) = true).
    { destruct (JS.trim syll); [discriminate Hl|reflexivity]. }
    pose proof (long_mark_no_exception _ Hl) as He.
    destruct (baseInitial (decomposeSyllableRaw (JS.trim syll))) as [b|] eqn:Hb.
    + destruct (findClusterMap (JS.trim syll)) as [[r [] p]|] eqn:Hc.
      * unfold convertSyllable.
        rewrite (trim_truthy syll Ht), Ht. cbn [negb]. rewrite He, Hc.
        pose proof cluster_romans_lack_circumflex as H.
        rewrite List.Forall_forall in H.
        apply (H _ (findClusterMap_In _ _ Hc)).
      * assert (Hr : rulePath syll b).
        { split; [exact Ht|]. split; [exact He|]. split; [|exact Hb].
          intros cm Hcm. rewrite Hc in Hcm. now injection Hcm as <-. }
        destruct (long_vowel_rule_path syll b Hr Hl) as (v & _ & _ & _ & _ & H).
        now apply H.
      * assert (Hr : rulePath syll b).
        { split; [exact Ht|]. split; [exact He|]. split; [|exact Hb].
          intros cm Hcm. rewrite Hc in Hcm. discriminate Hcm. }
        destruct (long_vowel_rule_path syll b Hr Hl) as (v & _ & _ & _ & _ & H).
        now apply H.
    + exfalso. rewrite baseInitial_find in Hb. rewrite finalChar_find in Hng.
      apply find_some in Hng as [Hin _]. apply in_rev in Hin.
      pose proof (find_none _ _ Hb NGA Hin) as H. discriminate H.
Qed.

(** C4.  The final scan of the decomposition takes the head itself for
    the final.  In ངཱ the head ང carries the long-vowel mark and no letter
    follows it; yet the final of the decomposition is ང, and the checked
    and the extended converter write ngang (the checked one nging with the
    vowel sign i), with a plain vowel.  In general, for every syllable
    converted by the rules in which the long-vowel mark is present, the
    vowel is one of a, e, i, o, u, and: when the last letter of the final
    table after the head is the nasal-velar final, the plain vowel is
    written before -ng; when it is not, and the head is not ང with no
    final after it, the circumflexed vowel (â, ê, î, ô, û) is written
    between the initial part and the final; when the head is ང and no
    final follows it, the plain vowel is written before -ng all the same.
    And whatever path the conversion takes, a syllable with the
    long-vowel mark and the nasal-velar final after its head has no
    circumflexed vowel in its Roman form. *)
Theorem long_vowel_head_as_final :
  (rulePath (u "ངཱ") NGA
   /\ longMark (decomposeSyllableRaw (JS.trim (u "ངཱ"))) = true
   /\ afterHead (working (JS.trim (u "ངཱ"))) = []
   /\ finalChar (decomposeSyllableRaw (JS.trim (u "ངཱ"))) = Some NGA
   /\ convertSyllable (u "ངཱ") = u "ngang"
   /\ convertSyllable (u "ངཱི") = u "nging"
   /\ convertDzongkhaText (u "ངཱ") = Some (u "ngang")
   /\ Extended.convertSyllable (u "ངཱ") = Extended.Str (u "ngang"))
  /\ (forall syll b,
        rulePath syll b ->
        longMark (decomposeSyllableRaw (JS.trim syll)) = true ->
        exists v,
          In v (u "aeiou")
          /\ JS.get_or VOWELS
               (vowelSign (decomposeSyllableRaw (JS.trim syll))) (u "a")
             = [v]
          /\ is_circumflexed (circumflex v) = true
          /\ (finalAfterHead syll = Some NGA ->
              convertSyllable syll
              = initialOf (JS.trim syll) b ++ [v] ++ u "ng")
          /\ (finalAfterHead syll <> Some NGA ->
              b <> NGA \/ finalAfterHead syll <> None ->
              convertSyllable syll
              = initialOf (JS.trim syll) b ++ [circumflex v]
                ++ finalOf (decomposeSyllableRaw (JS.trim syll)))
          /\ (finalAfterHead syll = None -> b = NGA ->
              convertSyllable syll
              = initialOf (JS.trim syll) b ++ [v] ++ u "ng"
              /\ existsb is_circumflexed (convertSyllable syll) = false))
  /\ (forall syll,
        longMark (decomposeSyllableRaw (JS.trim syll)) = true ->
        finalAfterHead syll = Some NGA ->
        existsb is_circumflexed (convertSyllable syll) = false).
Proof.
  split; [|split].
  - repeat split; try reflexivity. intros cm H. discriminate H.
  - intros syll b Hr Hl.
    pose proof Hr as (_ & _ & _ & Hb).
    pose proof (finalChar_from_head _ _ Hb) as Hf.
    fold (finalAfterHead syll) in Hf.
    destruct (long_vowel_rule_path syll b Hr Hl)
      as (v & H1 & H2 & H3 & H4 & H5).
    exists v. split; [exact H1|]. split; [exact H2|]. split; [exact H3|].
    split; [|split].
    + intros Hng. apply H5. now rewrite Hf, Hng.
    + intros Hng Hor. apply H4. rewrite Hf.
      destruct (finalAfterHead syll) as [f|]; [exact Hng|].
      destruct Hor as [Hne|Hne]; [|now destruct Hne].
      destruct (is_final b); [|discriminate].
      intros [= E]. now apply Hne.
    + intros Hnone ->. apply H5. now rewrite Hf, Hnone.
  - intros syll Hl Hng.
    apply (proj2 (long_vowel_by_field syll) Hl).
    destruct (baseInitial (decomposeSyllableRaw (JS.trim syll)))
      as [b|] eqn:Hb.
    + rewrite (finalChar_from_head _ _ Hb).
      fold (finalAfterHead syll). now rewrite Hng.
    + exfalso. unfold finalAfterHead in Hng.
      destruct (decomposeSyllableRaw_fields (JS.trim syll)) as (Hi & _).
      rewrite Hi in Hb. now rewrite (afterHead_no_root _ Hb) in Hng.
Qed.

(** C5, as amended.  For every syllable converted by the rules whose
    decomposition yields a head and no medial, no vowel sign, no final and
    no prefix, the Roman form is the initial hint (the head's base
    phoneme, unless a cluster key occurs in the syllable), then the
    devoicing marker when the head is of the voiced class and no
    hard-cluster override applies, then the vowel a, circumflexed when the
    long-vowel mark is present. *)
Theorem bare_head_syllable (syll : str) (b : N) :
  rulePath syll b ->
  bareHead syll b ->
  convertSyllable syll
  = initialHint (findClusterMap (JS.trim syll)) b
    ++ (if voiced b && negb (hardCluster (JS.trim syll))
        then APOSTROPHE else [])
    ++ (if longMark (decomposeSyllableRaw (JS.trim syll))
        then u "â" else u "a")
  /\ (findClusterMap (JS.trim syll) = None ->
      JS.get INITIAL_BASE [b]
      = Some (initialHint (findClusterMap (JS.trim syll)) b)).
Proof.
  intros Hr (Hb & Hm & Hv & Hf & Hp).
  pose proof (convertSyllable_rulePath syll b Hr) as Hc.
  destruct (convertSyllable_parts (fun a => negb (a =? 0x27)) syll b Hr)
    as (tail & Hi & Hl & _); [repeat constructor|].
  unfold initialOf in Hc, Hi. rewrite Hm in Hc, Hi.
  cbn [addMedials fold_left] in Hc, Hi.
  destruct Hr as (_ & _ & Hw & _).
  rewrite (devoice_spec _ b Hw Hl) in Hc.
  unfold devoiced in Hc. rewrite Hp, andb_true_r in Hc.
  split.
  - rewrite Hc, <- app_assoc. do 2 f_equal.
    unfold vowelOf, finalOf. rewrite Hv, Hf.
    destruct (longMark _); reflexivity.
  - intros Hn. rewrite Hn. unfold initialHint, clusterHint, JS.get_or.
    apply baseInitial_is_root in Hb. unfold is_root, JS.has_truthy in Hb.
    destruct (JS.get INITIAL_BASE [b]) as [v|]; [|discriminate].
    now rewrite Hb.
Qed.

Lemma bare_head_syllable_witness :
  rulePath (u "ག") 0x0F42
  /\ bareHead (u "ག") 0x0F42
  /\ convertSyllable (u "ག") = u "g'a".
Proof.
  assert (Hr : rulePath (u "ག") 0x0F42).
  { repeat split; try reflexivity. intros cm H. discriminate H. }
  assert (Hb : bareHead (u "ག") 0x0F42) by (repeat split).
  exact (conj Hr (conj Hb (proj1 (bare_head_syllable _ _ Hr Hb)))).
Defined.

(** C5, as stated, fails: with a head and no medial, no vowel sign, no
    final and no prefix in the decomposition, the Roman form is not the
    head's phoneme followed by a when the head is voiced (the devoicing
    marker comes in between), when the long-vowel mark is present (the
    vowel is circumflexed), or when a cluster key occurs in the syllable
    (its hint replaces the head's phoneme); and a lone head letter of the
    final table is emitted as a final too. *)
Lemma bare_head_not_phoneme_a :
  (bareHead (u "ག") 0x0F42
   /\ JS.get INITIAL_BASE (u "ག") = Some (u "g")
   /\ convertSyllable (u "ག") <> u "g" ++ u "a")
  /\ (bareHead (u "ཧཱ") 0x0F67
      /\ JS.get INITIAL_BASE (u "ཧ") = Some (u "h")
      /\ convertSyllable (u "ཧཱ") <> u "h" ++ u "a")
  /\ (bareHead (u "སླ") 0x0F66
      /\ JS.get INITIAL_BASE (u "ས") = Some (u "s")
      /\ convertSyllable (u "སླ") <> u "s" ++ u "a")
  /\ (JS.get INITIAL_BASE (u "ཀ") = Some (u "k")
      /\ convertSyllable (u "ཀ") = u "kak").
Proof.
  repeat split; try reflexivity; discriminate.
Qed.

End RulePath.

(** ** The vowel sign of a syllable *)

Section VowelSign.


Lemma array_includes_eqb (l : str) (c : N) :
  JS.array_includes l [c] = existsb (N.eqb c) l.
Proof.
  unfold JS.array_includes. induction l as [|a l IH]; [reflexivity|].
  simpl. rewrite IH. f_equal.
  case_bool_decide as H.
  - injection H as ->. now rewrite N.eqb_refl.
  - symmetry. apply N.eqb_neq. congruence.
Qed.

Lemma includes_cleanedOf (syll : str) (c : N) :
  is_vowel_sign c = true ->
  JS.array_includes (cleanedOf syll) [c] = existsb (N.eqb c) syll.
Proof.
  intros Hc. rewrite array_includes_eqb. unfold cleanedOf.
  assert (Hv : forall a, (c =? a) = true ->
                         kept a = true /\ negb (a =? LONG_MARK) = true).
  { intros a Ha. apply N.eqb_eq in Ha as <-. revert Hc.
    unfold is_vowel_sign. rewrite existsb_exists.
    intros (v & Hin & Hv). apply bool_decide_eq_true in Hv as <-.
    in_table Hin
      ltac:(first [discriminate Hin|injection Hin as <-; now vm_compute]). }
  rewrite !existsb_filter_absorb; auto; intros a Ha; now apply Hv.
Qed.

Lemma vowelSign_tableFirst (syll : str) :
  vowelSign (decomposeSyllableRaw syll) = tableFirstVowel syll.
Proof.
  destruct (decomposeSyllableRaw_fields syll) as (_ & _ & _ & _ & -> & _).
  fold (cleanedOf syll). unfold tableFirstVowel.
  change (JS.keys VOWELS)
    with [[]; [0x0F72]; [0x0F74]; [0x0F7A]; [0x0F7C]].
  cbn [findVowelSign JS.truthy andb].
  rewrite !includes_cleanedOf by reflexivity.
  repeat (destruct (existsb _ syll); [reflexivity|]). reflexivity.
Qed.

(** Only the first occurrence of the recorded sign leaves the working
    sequence. *)
Lemma splice_first_spec (l : str) (c : N) :
  JS.array_includes l [c] = true ->
  exists pre post,
    l = pre ++ c :: post /\ ~ In c pre /\ JS.splice_first l [c] = pre ++ post.
Proof.
  unfold JS.array_includes. induction l as [|a l IH]; [discriminate|].
  cbn [existsb JS.splice_first]. case_bool_decide as Ha.
  - injection Ha as ->. intros _. exists [], l. auto.
  - cbn [orb]. intros H. destruct (IH H) as (pre & post & -> & Hn & ->).
    exists (a :: pre), post. repeat split; auto.
    intros [->|Hin]; [congruence|auto].
Qed.

Lemma findVowelSign_spec (ks : list str) (l : str) :
  (forall v, In v ks -> v = [] \/ exists c, v = [c]) ->
  (fst (findVowelSign ks l) = [] /\ snd (findVowelSign ks l) = l)
  \/ exists c pre post,
       fst (findVowelSign ks l) = [c]
       /\ l = pre ++ c :: post /\ ~ In c pre
       /\ snd (findVowelSign ks l) = pre ++ post.
Proof.
  intros Hks. induction ks as [|v ks IH]; [now left|].
  cbn [findVowelSign].
  destruct (JS.truthy v && JS.array_includes l v) eqn:E.
  - apply andb_prop in E as [Hv Hinc].
    destruct (Hks v) as [->|(c & ->)]; [now left|discriminate|].
    right. destruct (splice_first_spec l c Hinc) as (pre & post & H).
    exists c, pre, post. cbn [fst snd]. tauto.
  - apply IH. intros v' Hv'. apply Hks. now right.
Qed.

Lemma non_vowel_fields (p : N -> bool) (syll : str) :
  consonantal p ->
  List.filter p (withoutVowelSigns syll) = List.filter p syll.
Proof.
  intros Hp. apply filter_filter_absorb. intros a Ha.
  apply Hp in Ha as (-> & _). reflexivity.
Qed.

(** C6, as amended.  The vowel recorded for a syllable is the vowel sign
    that the [VOWELS] table lists first (i, then u, e, o) among the signs
    that occur in the syllable, wherever they stand.  Only the first
    occurrence of that sign is taken out of the working sequence.  No
    other vowel sign is recorded: the base initial, the medials, the final
    and the long-vowel flag are those of the syllable without its vowel
    signs. *)
Theorem vowel_sign_by_table_order (syll : str) :
  vowelSign (decomposeSyllableRaw syll) = tableFirstVowel syll
  /\ ((vowelSign (decomposeSyllableRaw syll) = []
       /\ working syll = cleanedOf syll)
      \/ exists c pre post,
           vowelSign (decomposeSyllableRaw syll) = [c]
           /\ cleanedOf syll = pre ++ c :: post /\ ~ In c pre
           /\ working syll = pre ++ post)
  /\ hasPrefix (decomposeSyllableRaw syll)
     = existsb (fun ch => JS.set_has PREFIX_SET [ch])
               (removelast (working syll))
  /\ baseInitial (decomposeSyllableRaw syll)
     = baseInitial (decomposeSyllableRaw (withoutVowelSigns syll))
  /\ medialsFound (decomposeSyllableRaw syll)
     = medialsFound (decomposeSyllableRaw (withoutVowelSigns syll))
  /\ finalChar (decomposeSyllableRaw syll)
     = finalChar (decomposeSyllableRaw (withoutVowelSigns syll))
  /\ longMark (decomposeSyllableRaw syll)
     = longMark (decomposeSyllableRaw (withoutVowelSigns syll)).
Proof.
  split; [apply vowelSign_tableFirst|].
  destruct (decomposeSyllableRaw_fields syll) as (_ & _ & _ & Hp & Hv & _).
  split; [|split; [exact Hp|]].
  - rewrite Hv.
    assert (Hw : working syll
                 = snd (findVowelSign (JS.keys VOWELS) (cleanedOf syll))).
    { unfold working, cleanedOf. do 3 f_equal.
      apply filter_ext. intros a. unfold kept. now rewrite N.eqb_sym. }
    rewrite Hw. fold (cleanedOf syll).
    apply findVowelSign_spec. intros v Hin.
    in_table Hin ltac:(subst v; eauto).
  - rewrite !baseInitial_find, !medialsFound_filter, !finalChar_find.
    rewrite !find_head_filter, !filter_rev.
    rewrite (non_vowel_fields _ _ is_root_consonantal).
    rewrite (non_vowel_fields _ _ is_medial_consonantal).
    rewrite (non_vowel_fields _ _ is_final_consonantal).
    repeat split. rewrite !longMark_existsb. unfold withoutVowelSigns.
    symmetry. apply existsb_filter_absorb.
    intros a Ha. apply N.eqb_eq in Ha as <-. reflexivity.
Qed.

(** C6, as stated, fails.  In a syllable whose code points are ka, the
    vowel sign o and the vowel sign i, in this order, the first vowel sign
    is o and the decomposition records i.  A second vowel sign is not
    without effect either: with the vowel sign u after ga and the vowel
    sign i, the prefix test sees the head, and the devoicing marker is
    lost. *)
Lemma vowel_sign_not_first_in_order :
  (firstVowelInOrder [0x0F40; 0x0F7C; 0x0F72] = [0x0F7C]
   /\ vowelSign (decomposeSyllableRaw [0x0F40; 0x0F7C; 0x0F72]) = [0x0F72]
   /\ vowelSign (decomposeSyllableRaw [0x0F40; 0x0F7C; 0x0F72])
      <> firstVowelInOrder [0x0F40; 0x0F7C; 0x0F72])
  /\ (hasPrefix (decomposeSyllableRaw [0x0F42; 0x0F72; 0x0F74]) = true
      /\ hasPrefix (decomposeSyllableRaw [0x0F42; 0x0F72]) = false
      /\ convertSyllable [0x0F42; 0x0F72; 0x0F74] = u "gi"
      /\ convertSyllable [0x0F42; 0x0F72] = u "g'i").
Proof.
  repeat split; try reflexivity; discriminate.
Qed.

End VowelSign.

(** * The scenario of the word for Bhutan *)

(** C7. The spelling of ’brug, the single syllable of the code points
    U+0F60, U+0F56, U+0FB2, U+0F74, U+0F42, is not converted to ’druk by
    any of the converters.  The checked converter finds the base initial
    U+0F60, the medial r and the vowel u, and no final: it returns aru;
    the extended converter returns au.  The complete converter and the
    phonological converter build ’rubg, and the converter with escaped
    code points builds ’ug; none of these is the Roman word ’brug, for
    which the rule and the dictionary of the complete converter give
    ’druk. *)
Theorem druk_scenario :
  u "འབྲུག" = [0x0F60; 0x0F56; 0x0FB2; 0x0F74; 0x0F42]
  /\ Checked.convertSyllable (u "འབྲུག") = u "aru"
  /\ Checked.convertSyllable (u "འབྲུག") <> u "’druk"
  /\ Checked.convertDzongkhaText (u "འབྲུག") = Some (u "aru")
  /\ Complete.buildRomanFromToken (Complete.tokenizeSyllable (u "འབྲུག"))
     = u "’rubg"
  /\ Complete.convertLine (u "འབྲུག") = u "’rubg"
  /\ Complete.convertDzongkha (u "འབྲུག") = u "’rubg"
  /\ Complete.convertDzongkha (u "འབྲུག") <> u "’druk"
  /\ Complete.normalizeWord (u "’brug") = u "’druk"
  /\ Complete.applyRules (u "’brug") = u "’druk"
  /\ Extended.convertSyllable (u "འབྲུག") = Extended.Str (u "au")
  /\ Phonological.convertDzongkha (u "འབྲུག") = u "’rubg"
  /\ Escaped.convertDzongkha (u "འབྲུག") = u "’ug".
Proof.
  repeat split; try (vm_compute; reflexivity); vm_compute; discriminate.
Qed.

(** * Properties of the extended converter *)

Section ExtendedConverter.

Lemma ext_baseInitial_info (syll : str) (b : N) :
  Extended.baseInitial (Extended.decomposeSyllable syll) = Some b ->
  exists info, In ([b], info) Extended.initialMap.
Proof.
  unfold Extended.decomposeSyllable.
  destruct (Extended.findVowelSign _ _) as [v remaining].
  cbn [Extended.baseInitial]. intros H. apply find_some in H as [_ H].
  destruct (JS.get Extended.initialMap [b]) as [info|] eqn:E;
    [|discriminate].
  exists info. now apply get_In.
Qed.

Lemma ext_vowel_cases (d : Extended.Decomposition) :
  exists v,
    In v (u "aeiou")
    /\ JS.get_or Extended.vowelSigns (Extended.vowelSign d) (u "a") = [v]
    /\ JS.get_or Extended.circ [v] [v] = [circumflex v].
Proof.
  change Extended.vowelSigns with VOWELS. change Extended.circ with circ.
  destruct (plain_vowel (Extended.vowelSign d)) as (v & Hv & Hin).
  exists v. auto using circ_circumflex.
Qed.

Lemma ext_final_value (d : Extended.Decomposition) :
  let finalRoman :=
    match Extended.finalChar d with
    | Some f => if JS.has_truthy Extended.finalMap [f]
                then default [] (JS.get Extended.finalMap [f]) else []
    | None => []
    end in
  finalRoman = [] \/ In finalRoman (List.map snd Extended.finalMap).
Proof.
  cbv zeta. destruct (Extended.finalChar d) as [f|]; [|now left].
  unfold JS.has_truthy.
  destruct (JS.get Extended.finalMap [f]) as [v|] eqn:E; [|now left].
  destruct (JS.truthy v); [|now left].
  right. apply get_In in E. now apply (in_map snd) in E.
Qed.

(** The extended converter on the rule path: the hard form of the head is
    followed by the devoicing marker exactly when the head is of the
    voiced class and the decomposition reports no prefix and no subjoined
    letter; no other apostrophe occurs in the Roman form. *)
Theorem extended_devoicing_iff (syll : str) (b : N) :
  extRulePath syll b ->
  exists info rest,
    JS.get Extended.initialMap [b] = Some info
    /\ Extended.convertSyllable syll
       = Extended.Str
           (Extended.hard info
            ++ (if extSoftened syll b then APOSTROPHE else []) ++ rest)
    /\ lacks 0x27 (Extended.hard info) = true
    /\ lacks 0x27 rest = true.
Proof.
  intros (Ht & He & Hb). unfold Extended.convertSyllable, extSoftened.
  rewrite Ht. cbn [negb]. fold (extTrimmed syll). rewrite He, Hb.
  set (d := Extended.decomposeSyllable (extTrimmed syll)) in *.
  destruct (ext_vowel_cases d) as (v & Hin & -> & Hc).
  assert (Hvow : lacks 0x27
            (if Extended.longMarkPresent d
                && negb (bool_decide (Extended.finalChar d = Some 0x0F44))
             then JS.get_or Extended.circ [v] [v] else [v]) = true).
  { rewrite Hc. destruct (_ && _); in_table Hin ltac:(subst v; reflexivity). }
  assert (Hfin : lacks 0x27
            match Extended.finalChar d with
            | Some f => if JS.has_truthy Extended.finalMap [f]
                        then default [] (JS.get Extended.finalMap [f]) else []
            | None => []
            end = true).
  { destruct (ext_final_value d) as [->|Hf]; [reflexivity|].
    cbv zeta in Hf. revert Hf. generalize (match Extended.finalChar d with
      | Some f => if JS.has_truthy Extended.finalMap [f]
                  then default [] (JS.get Extended.finalMap [f]) else []
      | None => [] end). intros s Hf.
    in_table Hf ltac:(subst s; reflexivity). }
  destruct (ext_baseInitial_info _ _ Hb) as (info & Hinfo).
  set (vow := if Extended.longMarkPresent d && _ then _ else _) in *.
  set (fin := match Extended.finalChar d with Some _ => _ | None => _ end)
    in *.
  in_table Hinfo
    ltac:(injection Hinfo as <- <-;
          eexists; exists (vow ++ fin);
          split; [reflexivity|];
          split; [destruct (Extended.hasPrefix d), (Extended.hasSubjoined d);
                  reflexivity|];
          split; [reflexivity|];
          rewrite lacks_app, Hvow, Hfin; reflexivity).
Qed.

Lemma extended_devoicing_iff_witness :
  extRulePath (u "ག") 0x0F42
  /\ exists info rest,
       JS.get Extended.initialMap [0x0F42] = Some info
       /\ Extended.convertSyllable (u "ག")
          = Extended.Str
              (Extended.hard info
               ++ (if extSoftened (u "ག") 0x0F42 then APOSTROPHE else [])
               ++ rest)
       /\ lacks 0x27 (Extended.hard info) = true
       /\ lacks 0x27 rest = true.
Proof.
  assert (Hr : extRulePath (u "ག") 0x0F42) by (repeat split).
  exact (conj Hr (extended_devoicing_iff _ _ Hr)).
Defined.

(** The long-vowel rule of the extended converter: with the long-vowel
    mark, the vowel is circumflexed unless the final of the decomposition
    is the nasal-velar final, before which the plain vowel is written. *)
Theorem extended_long_vowel_rule (syll : str) (b : N) :
  extRulePath syll b ->
  Extended.longMarkPresent (Extended.decomposeSyllable (extTrimmed syll))
  = true ->
  exists initial v final,
    In v (u "aeiou")
    /\ JS.get_or Extended.vowelSigns
         (Extended.vowelSign (Extended.decomposeSyllable (extTrimmed syll)))
         (u "a") = [v]
    /\ existsb is_circumflexed initial = false
    /\ existsb is_circumflexed final = false
    /\ (Extended.finalChar (Extended.decomposeSyllable (extTrimmed syll))
        <> Some 0x0F44 ->
        Extended.convertSyllable syll
        = Extended.Str (initial ++ [circumflex v] ++ final))
    /\ (Extended.finalChar (Extended.decomposeSyllable (extTrimmed syll))
        = Some 0x0F44 ->
        Extended.convertSyllable syll
        = Extended.Str (initial ++ [v] ++ u "ng")).
Proof.
  intros (Ht & He & Hb) Hl. unfold Extended.convertSyllable.
  rewrite Ht. cbn [negb]. fold (extTrimmed syll). rewrite He, Hb.
  set (d := Extended.decomposeSyllable (extTrimmed syll)) in *.
  destruct (ext_vowel_cases d) as (v & Hin & Hv & Hc).
  rewrite Hv, Hl, Hc. cbn [andb].
  destruct (ext_baseInitial_info _ _ Hb) as (info & Hinfo).
  set (fin := match Extended.finalChar d with Some _ => _ | None => _ end)
    in *.
  assert (Hfin : existsb is_circumflexed fin = false).
  { destruct (ext_final_value d) as [Hf|Hf]; fold fin in Hf.
    - now rewrite Hf.
    - revert Hf. generalize fin. intros s Hf.
      in_table Hf ltac:(subst s; reflexivity). }
  assert (Hng : Extended.finalChar d = Some 0x0F44 -> fin = u "ng").
  { intros E. unfold fin. now rewrite E. }
  eexists. exists v, fin.
  split; [exact Hin|]. split; [reflexivity|]. split; [|split; [exact Hfin|]].
  2: { split.
       - intros Hn. rewrite bool_decide_eq_false_2 by exact Hn. reflexivity.
       - intros E. rewrite bool_decide_eq_true_2 by exact E.
         cbn [negb]. now rewrite (Hng E). }
  destruct (Extended.hasPrefix d || Extended.hasSubjoined d);
    in_table Hinfo ltac:(injection Hinfo as <- <-; reflexivity).
Qed.

Lemma extended_long_vowel_rule_witness :
  extRulePath (u "ཧཱུ") 0x0F67
  /\ Extended.longMarkPresent
       (Extended.decomposeSyllable (extTrimmed (u "ཧཱུ"))) = true
  /\ exists initial v final,
       Extended.convertSyllable (u "ཧཱུ")
       = Extended.Str (initial ++ [circumflex v] ++ final).
Proof.
  assert (Hr : extRulePath (u "ཧཱུ") 0x0F67) by (repeat split).
  assert (Hl : Extended.longMarkPresent
                 (Extended.decomposeSyllable (extTrimmed (u "ཧཱུ"))) = true)
    by reflexivity.
  refine (conj Hr (conj Hl _)).
  destruct (extended_long_vowel_rule _ _ Hr Hl)
    as (initial & v & final & _ & _ & _ & _ & H & _).
  exists initial, v, final. apply H. discriminate.
Defined.

(** The vowel sign recorded by the extended decomposition is the first
    of the table order as well. *)
Theorem extended_vowel_sign_by_table_order (syll : str) :
  Extended.vowelSign (Extended.decomposeSyllable syll) = tableFirstVowel syll.
Proof.
  unfold Extended.decomposeSyllable.
  set (cleaned := List.filter _ syll).
  set (remaining := List.filter _ cleaned).
  assert (Hinc : forall c, is_vowel_sign c = true ->
            JS.array_includes remaining [c] = existsb (N.eqb c) syll).
  { intros c Hc. rewrite array_includes_eqb. unfold remaining, cleaned.
    assert (Hk : forall a, (c =? a) = true ->
              negb (a =? Extended.LONG_MARK) = true
              /\ negb (a =? 0x0F0B) && negb (a =? 0x20) && negb (a =? 0x0F0D)
                 && negb (a =? 0x0F0E) && negb (a =? 0x0F0F)
                 && negb (a =? 0x0F14) = true).
    { intros a Ha. apply N.eqb_eq in Ha as <-. revert Hc.
      unfold is_vowel_sign. rewrite existsb_exists.
      intros (v & Hin & Hv). apply bool_decide_eq_true in Hv as <-.
      in_table Hin
        ltac:(first [discriminate Hin|injection Hin as <-; now vm_compute]). }
    rewrite !existsb_filter_absorb; auto; intros a Ha; now apply Hk. }
  destruct (Extended.findVowelSign _ remaining) as [v r] eqn:E.
  cbn [Extended.vowelSign].
  change v with (fst (v, r)). rewrite <- E. clear E.
  change (JS.keys Extended.vowelSigns)
    with [[]; [0x0F72]; [0x0F74]; [0x0F7A]; [0x0F7C]].
  cbn [Extended.findVowelSign JS.truthy andb]. unfold tableFirstVowel.
  rewrite !Hinc by reflexivity.
  repeat (destruct (existsb _ syll); [reflexivity|]). reflexivity.
Qed.

(** The extended converter on the inputs of the scenarios: a lone head of
    the final table is emitted as a final too, the spelling of ’brug
    gives au, and a syllable that names a property of [Object.prototype]
    is answered by that property. *)
Lemma extended_samples :
  Extended.convertSyllable (u "ཀ") = Extended.Str (u "kak")
  /\ Extended.convertSyllable (u "འབྲུག") = Extended.Str (u "au")
  /\ Extended.convertSyllable (u "བརྒྱད་") = Extended.Str (u "gä")
  /\ Extended.convertSyllable (u "constructor")
     = Extended.Inherited (u "constructor").
Proof. repeat split. Qed.

End ExtendedConverter.

(** * Further properties of the checked converter *)

(** ** The split into tokens *)

Lemma forallb_reverse {A : Type} (p : A -> bool) (l : list A) :
  forallb p (rev l) = forallb p l.
Proof.
  induction l as [|a l IH]; [reflexivity|]. cbn [rev forallb].
  rewrite forallb_app, IH. cbn. now rewrite andb_true_r, andb_comm.
Qed.

Section Tokens.

Context (sep : N -> bool).

Lemma splitRuns_concat (s : str) :
  forall cur inRun,
    concat (JS.splitRuns sep s cur inRun)
    = rev cur ++ List.filter (fun c => negb (sep c)) s.
Proof.
  induction s as [|c r IH]; intros cur inRun; cbn [JS.splitRuns List.filter].
  - cbn. now rewrite app_nil_r.
  - destruct (sep c); cbn [negb].
    + destruct inRun; cbn [concat]; rewrite IH; [reflexivity|].
      now rewrite app_nil_l.
    + rewrite IH. cbn [rev]. now rewrite <- app_assoc.
Qed.

Lemma splitRuns_pieces (s : str) :
  forall cur inRun,
    forallb (fun c => negb (sep c)) cur = true ->
    Forall (fun t => forallb (fun c => negb (sep c)) t = true)
           (JS.splitRuns sep s cur inRun).
Proof.
  induction s as [|c r IH]; intros cur inRun Hcur; cbn [JS.splitRuns].
  - constructor; [|constructor]. now rewrite forallb_reverse.
  - destruct (sep c) eqn:E.
    + destruct inRun; [now apply IH|].
      constructor; [now rewrite forallb_reverse|now apply IH].
    + apply IH. cbn [forallb]. now rewrite E, Hcur.
Qed.

Lemma splitRuns_run_only (ws : str) :
  forall cur,
    Forall (fun c => sep c = true) ws ->
    List.filter JS.truthy (JS.splitRuns sep ws cur true)
    = List.filter JS.truthy [rev cur].
Proof.
  induction ws as [|c r IH]; intros cur H; [reflexivity|].
  inversion H as [|? ? Hc Hr]; subst. cbn [JS.splitRuns]. rewrite Hc.
  now apply IH.
Qed.

Lemma splitRuns_flag (s : str) :
  List.filter JS.truthy (JS.splitRuns sep s [] true)
  = List.filter JS.truthy (JS.splitRuns sep s [] false).
Proof.
  destruct s as [|c r]; [reflexivity|]. cbn [JS.splitRuns].
  now destruct (sep c).
Qed.

Lemma splitRuns_trailing (s ws : str) :
  Forall (fun c => sep c = true) ws ->
  forall cur inRun,
    List.filter JS.truthy (JS.splitRuns sep (s ++ ws) cur inRun)
    = List.filter JS.truthy (JS.splitRuns sep s cur inRun).
Proof.
  intros Hws. induction s as [|c r IH]; intros cur inRun.
  - cbn [app]. destruct ws as [|w ws']; [reflexivity|].
    inversion Hws as [|? ? Hw Hws']; subst. cbn [JS.splitRuns]. rewrite Hw.
    destruct inRun.
    + now apply splitRuns_run_only.
    + cbn [List.filter]. rewrite (splitRuns_run_only ws' [] Hws').
      cbn. now destruct (JS.truthy (rev cur)).
  - cbn [app JS.splitRuns]. destruct (sep c); [destruct inRun|];
      cbn [List.filter]; now rewrite ?IH.
Qed.

Lemma splitRuns_leading (ws s : str) :
  Forall (fun c => sep c = true) ws ->
  List.filter JS.truthy (JS.splitRuns sep (ws ++ s) [] false)
  = List.filter JS.truthy (JS.splitRuns sep s [] false).
Proof.
  intros Hws. rewrite <- !splitRuns_flag.
  induction Hws as [|c r Hc _ IH]; [reflexivity|].
  cbn [app JS.splitRuns]. now rewrite Hc.
Qed.

Lemma splitRuns_no_sep (s : str) :
  forall cur,
    forallb (fun c => negb (sep c)) s = true ->
    JS.splitRuns sep s cur false = [rev cur ++ s].
Proof.
  induction s as [|c r IH]; intros cur H; cbn [JS.splitRuns].
  - now rewrite app_nil_r.
  - cbn [forallb] in H. apply andb_prop in H as [Hc Hr].
    apply negb_true_iff in Hc. rewrite Hc, (IH _ Hr). cbn [rev].
    now rewrite <- app_assoc.
Qed.

End Tokens.

(** ** Trimming and normalizing a text *)

Section Trimming.

Lemma trimStart_split (s : str) :
  exists ws,
    s = ws ++ JS.trimStart s /\ Forall (fun c => JS.is_space c = true) ws.
Proof.
  induction s as [|c r (ws & Hr & Hws)]; [now exists []|].
  cbn [JS.trimStart]. destruct (JS.is_space c) eqn:E.
  - exists (c :: ws). split; [cbn; now f_equal|now constructor].
  - now exists [].
Qed.

Lemma trim_split (s : str) :
  exists ws ws',
    s = ws ++ JS.trim s ++ ws'
    /\ Forall (fun c => JS.is_space c = true) ws
    /\ Forall (fun c => JS.is_space c = true) ws'.
Proof.
  destruct (trimStart_split s) as (ws & Hs & Hws).
  destruct (trimStart_split (rev (JS.trimStart s))) as (ws' & Hr & Hws').
  exists ws, (rev ws'). split; [|split; [exact Hws|]].
  - rewrite Hs at 1. f_equal. unfold JS.trim, JS.trimEnd.
    rewrite <- rev_app_distr, <- Hr. now rewrite rev_involutive.
  - apply List.Forall_forall. intros c Hc. rewrite List.Forall_forall in Hws'.
    apply Hws'. now apply in_rev.
Qed.

Lemma filter_none {A : Type} (p q : A -> bool) (l : list A) :
  Forall (fun a => q a = true) l ->
  (forall a, q a = true -> p a = false) ->
  List.filter p l = [].
Proof.
  intros Hl Hq. induction Hl as [|a l Ha _ IH]; [reflexivity|].
  cbn. now rewrite (Hq a Ha).
Qed.

Lemma space_not_kept (c : N) : JS.is_space c = true -> kept c = false.
Proof.
  intros H. unfold kept, is_shad_or_space. rewrite H.
  now rewrite orb_true_r, andb_false_r.
Qed.

Lemma normalizeKey_trim (s : str) :
  normalizeKey (JS.trim s) = normalizeKey s.
Proof.
  rewrite !normalizeKey_filter.
  destruct (trim_split s) as (ws & ws' & Hs & Hws & Hws').
  rewrite Hs at 2. rewrite !List.filter_app.
  rewrite (filter_none kept _ ws Hws space_not_kept).
  rewrite (filter_none kept _ ws' Hws' space_not_kept).
  now rewrite app_nil_r.
Qed.

Lemma space_is_separator (c : N) :
  JS.is_space c = true -> is_space_or_tsheg c = true.
Proof. intros H. unfold is_space_or_tsheg. now rewrite H. Qed.

Lemma tokenize_trim (s : str) : tokenize (JS.trim s) = tokenize s.
Proof.
  destruct (trim_split s) as (ws & ws' & Hs & Hws & Hws').
  rewrite Hs at 2. unfold tokenize, JS.split.
  rewrite splitRuns_leading, splitRuns_trailing; [reflexivity| |].
  - eapply Forall_impl; [exact Hws'|]. apply space_is_separator.
  - eapply Forall_impl; [exact Hws|]. apply space_is_separator.
Qed.

Lemma concat_filter_truthy (l : list str) :
  concat (List.filter JS.truthy l) = concat l.
Proof.
  induction l as [|x l IH]; [reflexivity|]. cbn [List.filter].
  destruct x; cbn; [exact IH|now rewrite IH].
Qed.

Lemma tokenize_concat (s : str) :
  concat (tokenize s) = List.filter (fun c => negb (is_space_or_tsheg c)) s.
Proof.
  unfold tokenize, JS.split.
  now rewrite concat_filter_truthy, splitRuns_concat.
Qed.

Lemma tokenize_tokens (s : str) :
  Forall (fun t => JS.truthy t = true
                   /\ forallb (fun c => negb (is_space_or_tsheg c)) t = true)
         (tokenize s).
Proof.
  unfold tokenize, JS.split. apply List.Forall_forall. intros t Ht.
  apply List.filter_In in Ht as [Hin Ht]. split; [exact Ht|].
  pose proof (splitRuns_pieces is_space_or_tsheg s [] false eq_refl) as H.
  rewrite List.Forall_forall in H. auto.
Qed.

Lemma kept_not_separator (c : N) :
  kept c = true -> negb (is_space_or_tsheg c) = true.
Proof.
  unfold kept, is_space_or_tsheg, is_shad_or_space. rewrite (N.eqb_sym TSHEG).
  destruct (c =? TSHEG), (JS.is_space c); cbn; auto.
  now rewrite orb_true_r.
Qed.

Lemma normalizeKey_tokens (s : str) :
  normalizeKey (concat (tokenize s)) = normalizeKey s.
Proof.
  rewrite !normalizeKey_filter, tokenize_concat.
  apply filter_filter_absorb. apply kept_not_separator.
Qed.

Lemma token_trim (t : str) :
  forallb (fun c => negb (is_space_or_tsheg c)) t = true -> JS.trim t = t.
Proof.
  intros H. apply trim_no_space. apply List.Forall_forall. intros c Hc.
  rewrite forallb_forall in H. specialize (H c Hc).
  unfold is_space_or_tsheg in H. now destruct (JS.is_space c).
Qed.

(** The tokens of a text.  Put end to end they are the text without its
    white space and tshegs, in the same order; no token is empty and no
    token holds white space or a tsheg; and the trimming that precedes the
    split does not change them. *)
Theorem tokenize_spec (input : str) :
  concat (tokenize input)
  = List.filter (fun c => negb (is_space_or_tsheg c)) input
  /\ Forall (fun t => JS.truthy t = true
                      /\ forallb (fun c => negb (is_space_or_tsheg c)) t = true)
            (tokenize input)
  /\ tokenize (JS.trim input) = tokenize input.
Proof.
  split; [apply tokenize_concat|].
  split; [apply tokenize_tokens|apply tokenize_trim].
Qed.

End Trimming.

(** ** The text conversion as a function of the tokens *)

Section TextByTokens.

Lemma normalizeKey_nil : normalizeKey [] = [].
Proof. reflexivity. Qed.

Local Opaque EXCEPTIONS convertSyllable normalizeKey.

Lemma tokenize_nil (s : str) :
  tokenize s = [] <-> forallb is_space_or_tsheg s = true.
Proof.
  split; intros H.
  - pose proof (tokenize_concat s) as Hc. rewrite H in Hc. cbn in Hc.
    apply forallb_forall. intros c Hin.
    destruct (is_space_or_tsheg c) eqn:E; [reflexivity|exfalso].
    assert (Hf : In c (List.filter (fun c => negb (is_space_or_tsheg c)) s)).
    { apply List.filter_In. now rewrite E. }
    now rewrite <- Hc in Hf.
  - pose proof (tokenize_concat s) as Hc.
    rewrite (filter_none _ is_space_or_tsheg s) in Hc.
    + destruct (tokenize s) as [|t ts] eqn:E; [reflexivity|exfalso].
      pose proof (tokenize_tokens s) as Ht. rewrite E in Ht.
      inversion Ht as [|? ? [Hne _] _]; subst.
      destruct t; [discriminate|discriminate].
    + apply List.Forall_forall. now apply forallb_forall.
    + intros a ->. reflexivity.
Qed.

(** The text conversion, read off the token list alone. *)
Lemma convertDzongkhaText_tokens (input : str) :
  convertDzongkhaText input
  = match EXCEPTIONS !! normalizeKey (concat (tokenize input)) with
    | Some r => Some r
    | None =>
        JS.join (u " ")
          <$> scanLoop (length (tokenize input)) (tokenize input) (O, [])
    end.
Proof.
  unfold convertDzongkhaText.
  rewrite normalizeKey_tokens, <- (normalizeKey_trim input), tokenize_trim.
  destruct (JS.truthy (JS.trim input)) eqn:Ht.
  - rewrite (trim_truthy input Ht). cbn [negb].
    destruct (EXCEPTIONS !! normalizeKey (JS.trim input)); [reflexivity|].
    now destruct (scanLoop _ _ _).
  - assert (Hn : JS.trim input = []) by (now destruct (JS.trim input)).
    assert (Htok : tokenize input = []).
    { rewrite <- tokenize_trim, Hn. reflexivity. }
    rewrite Hn, Htok, normalizeKey_nil, EXCEPTIONS_no_empty_key.
    now destruct (negb (JS.truthy input)).
Qed.

End TextByTokens.

(** ** Empty results *)

Section NonEmpty.

Lemma exception_values_truthy :
  List.Forall (fun e => JS.truthy (snd e) = true) exception_entries.
Proof. repeat constructor. Qed.

Lemma EXCEPTIONS_value_truthy (k v : str) :
  EXCEPTIONS !! k = Some v -> JS.truthy v = true.
Proof.
  intros H. apply addException_fold_lookup in H as [(e & Hin & _ & <-)|H];
    [|now rewrite lookup_empty in H].
  pose proof exception_values_truthy as Hall.
  rewrite List.Forall_forall in Hall. auto.
Qed.

Lemma truthy_app_r (s t : str) :
  JS.truthy t = true -> JS.truthy (s ++ t) = true.
Proof. destruct s; [auto|reflexivity]. Qed.

Lemma truthy_app_l (s t : str) :
  JS.truthy s = true -> JS.truthy (s ++ t) = true.
Proof. now destruct s. Qed.

Lemma vowelOf_truthy (comp : Decomposition) : JS.truthy (vowelOf comp) = true.
Proof.
  destruct (vowelOf_cases comp) as (v & _ & _ & ->).
  now destruct (_ && _).
Qed.

Lemma convertSyllable_truthy (t : str) :
  JS.truthy (JS.trim t) = true -> JS.truthy (convertSyllable t) = true.
Proof.
  intros Ht. unfold convertSyllable. rewrite (trim_truthy t Ht), Ht. cbn [negb].
  destruct (EXCEPTIONS !! normToken (JS.trim t)) as [r|] eqn:He;
    [exact (EXCEPTIONS_value_truthy _ _ He)|].
  assert (Hrule :
    JS.truthy
      match baseInitial (decomposeSyllableRaw (JS.trim t)) with
      | Some b =>
          addMedials (medialsFound (decomposeSyllableRaw (JS.trim t)))
            (devoice
               (hardened (findClusterMap (JS.trim t))
                  (decomposeSyllableRaw (JS.trim t))) b
               (initialHint (findClusterMap (JS.trim t)) b))
          ++ vowelOf (decomposeSyllableRaw (JS.trim t))
          ++ finalOf (decomposeSyllableRaw (JS.trim t))
      | None =>
          if JS.truthy (normToken (JS.trim t)) then normToken (JS.trim t)
          else JS.trim t
      end = true).
  { destruct (baseInitial _).
    - apply truthy_app_r, truthy_app_l, vowelOf_truthy.
    - now destruct (JS.truthy (normToken (JS.trim t))) eqn:E. }
  destruct (findClusterMap (JS.trim t)) as [[r [] p]|] eqn:Hc;
    [|exact Hrule|exact Hrule].
  exact (cluster_roman_truthy _ _ Hc).
Qed.

Lemma convertSyllable_nil_iff (syll : str) :
  convertSyllable syll = [] <-> JS.trim syll = [].
Proof.
  split; intros H.
  - destruct (JS.trim syll) as [|c r] eqn:E; [reflexivity|exfalso].
    assert (Ht : JS.truthy (JS.trim syll) = true) by now rewrite E.
    apply convertSyllable_truthy in Ht. now rewrite H in Ht.
  - unfold convertSyllable. rewrite H. cbn.
    now destruct (negb (JS.truthy syll)).
Qed.

Lemma segmented_truthy (toks out : list str) :
  segmented toks out ->
  Forall (fun t => JS.truthy (JS.trim t) = true) toks ->
  Forall (fun r => JS.truthy r = true) out.
Proof.
  induction 1 as [|t ts os _ IH|w r ts os _ _ Hk _ IH]; intros Ht.
  - constructor.
  - inversion Ht; subst. constructor; [now apply convertSyllable_truthy|auto].
  - constructor; [exact (EXCEPTIONS_value_truthy _ _ Hk)|].
    apply IH. apply List.Forall_forall. intros t Hin.
    rewrite List.Forall_forall in Ht. apply Ht.
    rewrite <- (take_drop w ts). apply in_or_app. now right.
Qed.

Lemma join_truthy (sep : str) (x : str) (l : list str) :
  JS.truthy x = true -> JS.truthy (JS.join sep (x :: l)) = true.
Proof.
  intros H. cbn [JS.join]. destruct l; [exact H|now apply truthy_app_l].
Qed.

(** Empty results.  The conversion of a syllable is the empty string
    exactly when the syllable is empty or made of white space only: an
    exception, a whole-syllable cluster, the passing through and the
    rule-based path all give at least one character.  The conversion of a
    text is the empty string exactly when the text is empty or made of
    white space and tshegs only. *)
Theorem empty_conversion_iff (input : str) :
  (convertSyllable input = [] <-> JS.trim input = [])
  /\ (convertDzongkhaText input = Some []
      <-> forallb is_space_or_tsheg input = true).
Proof.
  split; [apply convertSyllable_nil_iff|].
  rewrite <- tokenize_nil, convertDzongkhaText_tokens.
  split.
  - intros H. destruct (tokenize input) as [|t ts] eqn:E; [reflexivity|exfalso].
    destruct (EXCEPTIONS !! _) as [r|] eqn:He.
    + injection H as ->. now apply EXCEPTIONS_value_truthy in He.
    + destruct (scanLoop_segmented _ (t :: ts) (le_n _)) as (out & Ho & Hseg).
      rewrite Ho in H.
      change (Some (JS.join (u " ") out) = Some []) in H. injection H as H.
      pose proof (segmented_length _ _ Hseg) as Hlen.
      assert (Hall : Forall (fun r => JS.truthy r = true) out).
      { apply (segmented_truthy _ _ Hseg). rewrite <- E.
        eapply Forall_impl; [apply tokenize_tokens|].
        intros a [Ha Hs]. cbn beta in *. now rewrite (token_trim a Hs). }
      destruct out as [|x out]; [cbn in Hlen; lia|].
      inversion Hall; subst.
      pose proof (join_truthy (u " ") x out) as Hj. rewrite H in Hj.
      discriminate Hj; assumption.
  - intros ->. change (concat []) with (@nil N).
    now rewrite normalizeKey_nil, EXCEPTIONS_no_empty_key.
Qed.

End NonEmpty.

(** ** Conversion syllable by syllable *)

Section Syllablewise.

Local Open Scope nat_scope.

Lemma convertSyllable_exception (t r : str) :
  JS.truthy (JS.trim t) = true ->
  EXCEPTIONS !! normalizeKey (JS.trim t) = Some r ->
  convertSyllable t = r.
Proof.
  intros Ht He. unfold convertSyllable, normToken.
  now rewrite (trim_truthy t Ht), Ht, He.
Qed.

Local Opaque EXCEPTIONS convertSyllable normalizeKey.

Lemma noWindow_at (toks : list str) (i : nat) :
  noWindow toks = true -> i < length toks ->
  matchWindow toks i [3; 2] = None.
Proof.
  unfold noWindow. rewrite forallb_forall. intros H Hi.
  specialize (H i). rewrite bool_decide_eq_true in H. apply H.
  apply in_seq. lia.
Qed.

Lemma scanLoop_no_window (toks : list str) :
  noWindow toks = true ->
  forall fuel i out,
    i <= length toks -> length toks - i <= fuel ->
    scanLoop fuel toks (i, out)
    = Some (out ++ List.map convertSyllable (drop i toks)).
Proof.
  intros Hn. induction fuel as [|fuel IH]; intros i out Hi Hf.
  - cbn [scanLoop fst snd].
    destruct (Nat.ltb_spec i (length toks)); [lia|].
    rewrite drop_ge by lia. now rewrite app_nil_r.
  - cbn [scanLoop fst snd].
    destruct (Nat.ltb_spec i (length toks)) as [Hlt|Hge].
    + unfold scanStep. rewrite (noWindow_at toks i Hn Hlt).
      destruct (lookup_lt_is_Some_2 toks i Hlt) as [t Ht].
      rewrite (nth_lookup_Some _ _ [] _ Ht).
      rewrite IH by lia. rewrite (drop_S _ _ _ Ht).
      replace (i + 1) with (S i) by lia.
      cbn [List.map]. now rewrite <- app_assoc.
    + rewrite drop_ge by lia. now rewrite app_nil_r.
Qed.

(** When the whole text is no key of the exception table and no window of
    two or three tokens is one, the text is converted token by token: the
    result is the conversions of the tokens by [convertSyllable], in
    order, with a single space between them. *)
Theorem convertDzongkhaText_syllablewise (input : str) :
  EXCEPTIONS !! normalizeKey input = None ->
  noWindow (tokenize input) = true ->
  convertDzongkhaText input
  = Some (JS.join (u " ") (List.map convertSyllable (tokenize input))).
Proof.
  intros He Hn. rewrite convertDzongkhaText_tokens, normalizeKey_tokens, He.
  rewrite (scanLoop_no_window _ Hn) by lia. reflexivity.
Qed.

Lemma convertDzongkhaText_syllablewise_witness :
  EXCEPTIONS !! normalizeKey (u "ཀ་གི") = None
  /\ noWindow (tokenize (u "ཀ་གི")) = true
  /\ convertDzongkhaText (u "ཀ་གི")
     = Some (JS.join (u " ")
               (List.map convertSyllable (tokenize (u "ཀ་གི")))).
Proof.
  assert (He : EXCEPTIONS !! normalizeKey (u "ཀ་གི") = None)
    by (vm_compute; reflexivity).
  assert (Hn : noWindow (tokenize (u "ཀ་གི")) = true)
    by (vm_compute; reflexivity).
  exact (conj He (conj Hn (convertDzongkhaText_syllablewise _ He Hn))).
Defined.

(** On a text without white space or tsheg, a single token, the text
    conversion and the syllable conversion agree. *)
Theorem convertDzongkhaText_single_token (syll : str) :
  forallb (fun c => negb (is_space_or_tsheg c)) syll = true ->
  convertDzongkhaText syll = Some (convertSyllable syll).
Proof.
  intros Hs. rewrite convertDzongkhaText_tokens, normalizeKey_tokens.
  destruct syll as [|c r]; [reflexivity|].
  assert (Htok : tokenize (c :: r) = [c :: r]).
  { unfold tokenize, JS.split. now rewrite (splitRuns_no_sep _ _ [] Hs). }
  rewrite Htok.
  destruct (EXCEPTIONS !! normalizeKey (c :: r)) as [x|] eqn:He.
  - f_equal. symmetry. apply convertSyllable_exception.
    + now rewrite (token_trim _ Hs).
    + now rewrite (token_trim _ Hs).
  - reflexivity.
Qed.

Lemma convertDzongkhaText_single_token_witness :
  forallb (fun c => negb (is_space_or_tsheg c)) (u "གི།") = true
  /\ convertDzongkhaText (u "གི།") = Some (convertSyllable (u "གི།")).
Proof.
  assert (H : forallb (fun c => negb (is_space_or_tsheg c)) (u "གི།") = true)
    by (vm_compute; reflexivity).
  exact (conj H (convertDzongkhaText_single_token _ H)).
Defined.

(** The conversion of a text depends on its tokens only: two texts with
    the same tokens, whatever white space and tshegs separate them and
    stand at the ends, have the same conversion. *)
Theorem convertDzongkhaText_by_tokens (s s' : str) :
  tokenize s = tokenize s' ->
  convertDzongkhaText s = convertDzongkhaText s'.
Proof.
  intros H. rewrite !convertDzongkhaText_tokens. now rewrite H.
Qed.

Lemma convertDzongkhaText_by_tokens_witness :
  tokenize (u "བཀྲ་ཤིས་ཀ") = tokenize (u " བཀྲ  ཤིས་་ ཀ་")
  /\ convertDzongkhaText (u "བཀྲ་ཤིས་ཀ")
     = convertDzongkhaText (u " བཀྲ  ཤིས་་ ཀ་").
Proof.
  assert (H : tokenize (u "བཀྲ་ཤིས་ཀ") = tokenize (u " བཀྲ  ཤིས་་ ཀ་"))
    by (vm_compute; reflexivity).
  exact (conj H (convertDzongkhaText_by_tokens _ _ H)).
Defined.

End Syllablewise.

(** ** Text in another script *)

Section Foreign.

Local Open Scope nat_scope.

Lemma join_nil_concat (l : list str) : JS.join [] l = concat l.
Proof.
  induction l as [|x l IH]; [reflexivity|]. cbn [JS.join concat].
  destruct l; [cbn; now rewrite app_nil_r|]. now rewrite <- IH.
Qed.

Lemma find_root_none (x : str) :
  (forall c, In c x -> is_root c = false) -> List.find is_root x = None.
Proof.
  intros H. induction x as [|c x IH]; [reflexivity|]. cbn [List.find].
  rewrite (H c) by now left. apply IH. intros a Ha. apply H. now right.
Qed.

Lemma foreign_kept (c : N) :
  foreign c = true -> negb (is_space_or_tsheg c) = true -> kept c = true.
Proof.
  unfold foreign, is_shad, kept, is_shad_or_space, is_space_or_tsheg.
  rewrite (N.eqb_sym TSHEG).
  destruct (is_root c), (existsb _ _), (JS.is_space c), (c =? TSHEG)%N;
    cbn; auto.
Qed.

Lemma filter_all {A : Type} (p : A -> bool) (l : list A) :
  (forall a, In a l -> p a = true) -> List.filter p l = l.
Proof.
  intros H. induction l as [|a l IH]; [reflexivity|]. cbn.
  rewrite (H a) by now left. f_equal. apply IH. intros b Hb. apply H. now right.
Qed.

Lemma foreign_token (t : str) :
  JS.truthy t = true ->
  forallb (fun c => negb (is_space_or_tsheg c)) t = true ->
  forallb foreign t = true ->
  convertSyllable t = t.
Proof.
  intros Hne Hs Hf. rewrite forallb_forall in Hf. rewrite forallb_forall in Hs.
  assert (Ht : JS.trim t = t) by (apply token_trim; now apply forallb_forall).
  rewrite convertSyllable_no_head.
  - unfold passthrough, normToken. rewrite Ht, normalizeKey_filter.
    rewrite filter_all; [now rewrite Hne|].
    intros a Ha. apply foreign_kept; auto.
  - rewrite Ht, baseInitial_find. apply find_root_none.
    intros c Hc. specialize (Hf c Hc). unfold foreign in Hf.
    now destruct (is_root c).
Qed.

Local Opaque EXCEPTIONS convertSyllable normalizeKey.

Lemma matchWindow_no_key (toks : list str) (i : nat) (ws : list nat) :
  (forall w, EXCEPTIONS !! windowKey toks i w = None) ->
  matchWindow toks i ws = None.
Proof.
  intros H. induction ws as [|w ws IH]; [reflexivity|].
  cbn [matchWindow]. fold (windowKey toks i w). rewrite H, IH.
  now destruct (_ <=? _).
Qed.

(** A text without any letter of the root table and without the four
    punctuation marks is passed through: its tokens are emitted as they
    are, with a single space between them, in place of the white space
    and the tshegs that separated them. *)
Theorem convertDzongkhaText_foreign (input : str) :
  forallb foreign input = true ->
  convertDzongkhaText input = Some (JS.join (u " ") (tokenize input)).
Proof.
  intros Hf. rewrite forallb_forall in Hf.
  assert (Hin : forall t c, In t (tokenize input) -> In c t -> In c input).
  { intros t c Ht Hc.
    assert (H : In c (concat (tokenize input))).
    { apply in_concat. eauto. }
    rewrite tokenize_concat in H. now apply List.filter_In in H. }
  assert (Hroot : forall x, (forall c, In c x -> In c input) ->
                            EXCEPTIONS !! normalizeKey x = None).
  { intros x Hx. apply (no_root_no_exception x), find_root_none.
    intros c Hc. specialize (Hf c (Hx c Hc)). unfold foreign in Hf.
    now destruct (is_root c). }
  assert (Hn : noWindow (tokenize input) = true).
  { apply forallb_forall. intros i _. apply bool_decide_eq_true.
    apply matchWindow_no_key. intros w. apply Hroot.
    rewrite join_nil_concat. intros c Hc.
    apply in_concat in Hc as (t & Ht & Hc). apply (Hin t c); [|exact Hc].
    apply list_elem_of_In in Ht. apply list_elem_of_In.
    now apply (subseteq_take w), (subseteq_drop i) in Ht. }
  rewrite convertDzongkhaText_tokens, (Hroot (concat (tokenize input))).
  2: { intros c Hc. apply in_concat in Hc as (t & Ht & Hc). eauto. }
  rewrite (scanLoop_no_window _ Hn) by lia.
  change (Some (JS.join (u " ")
                  ([] ++ List.map convertSyllable (drop 0 (tokenize input))))
          = Some (JS.join (u " ") (tokenize input))).
  rewrite drop_0. cbn [app]. do 2 f_equal.
  pose proof (tokenize_tokens input) as Htok.
  rewrite List.Forall_forall in Htok.
  rewrite <- (map_id (tokenize input)) at 2. apply map_ext_in.
  intros t Ht. destruct (Htok t Ht) as [Hne Hs].
  apply foreign_token; auto. apply forallb_forall. eauto.
Qed.

Lemma convertDzongkhaText_foreign_witness :
  forallb foreign (u "Thimphu  2024་x") = true
  /\ convertDzongkhaText (u "Thimphu  2024་x")
     = Some (JS.join (u " ") (tokenize (u "Thimphu  2024་x"))).
Proof.
  assert (H : forallb foreign (u "Thimphu  2024་x") = true)
    by (vm_compute; reflexivity).
  exact (conj H (convertDzongkhaText_foreign _ H)).
Defined.

End Foreign.

(** ** The cluster table *)

Section Clusters.

Local Open Scope nat_scope.

Lemma insert_by_length_In (k : str) (l : list str) (x : str) :
  In x (JS.insert_by_length k l) <-> x = k \/ In x l.
Proof.
  induction l as [|a l IH]; cbn [JS.insert_by_length].
  - cbn. intuition.
  - destruct (length a <? length k); cbn [In]; [intuition|].
    rewrite IH. intuition.
Qed.

Lemma insert_by_length_sorted (k : str) (l : list str) :
  longest_first l -> longest_first (JS.insert_by_length k l).
Proof.
  induction l as [|a l IH]; cbn [JS.insert_by_length longest_first].
  - auto.
  - intros [Ha Hs].
    destruct (Nat.ltb_spec (length a) (length k)) as [Hlt|Hge];
      cbn [longest_first].
    + split; [|now split].
      constructor; [lia|].
      eapply Forall_impl; [exact Ha|]. cbn. intros; lia.
    + split; [|auto].
      apply List.Forall_forall. intros x Hx.
      apply insert_by_length_In in Hx as [->|Hx]; [exact Hge|].
      rewrite List.Forall_forall in Ha. auto.
Qed.

Lemma sort_longest_first_spec (a : list str) :
  longest_first (JS.sort_longest_first a)
  /\ forall x, In x (JS.sort_longest_first a) <-> In x a.
Proof.
  unfold JS.sort_longest_first.
  assert (H : forall acc,
             longest_first acc ->
             longest_first
               (fold_left (fun acc k => JS.insert_by_length k acc) a acc)
             /\ forall x,
                  In x (fold_left (fun acc k => JS.insert_by_length k acc)
                          a acc)
                  <-> In x acc \/ In x a).
  { induction a as [|k a IH]; intros acc Hacc; cbn [fold_left].
    - split; [exact Hacc|]. cbn. intuition.
    - destruct (IH _ (insert_by_length_sorted k acc Hacc)) as [Hs Hin].
      split; [exact Hs|]. intros x. rewrite Hin, insert_by_length_In.
      cbn [In]. intuition. }
  destruct (H [] I) as [Hs Hin].
  split; [exact Hs|]. intros x. rewrite Hin. cbn. intuition.
Qed.

Lemma find_sorted_first (p : str -> bool) (l : list str) (k : str) :
  longest_first l ->
  List.find p l = Some k ->
  forall k', In k' l -> p k' = true -> length k' <= length k.
Proof.
  induction l as [|a l IH]; [discriminate|].
  cbn [List.find longest_first]. intros [Ha Hs]. destruct (p a) eqn:E.
  - intros [= <-] k' [<-|Hin] _; [lia|].
    rewrite List.Forall_forall in Ha. exact (Ha k' Hin).
  - intros Hf k' [<-|Hin] Hp; [congruence|auto].
Qed.

Lemma get_key {V : Type} (o : JS.obj V) (k : str) :
  In k (JS.keys o) -> exists v, JS.get o k = Some v.
Proof.
  induction o as [|[k0 v0] o IH]; [intros []|].
  cbn [JS.keys List.map fst In JS.get].
  case_bool_decide as Hk; [eauto|]. intros [H|H]; [congruence|auto].
Qed.

(** [findClusterMap] finds nothing exactly when no key of the cluster
    table occurs in the string; what it finds is the entry of a key that
    occurs in the string and is at least as long as every other key that
    occurs in it. *)
Theorem findClusterMap_longest (s : str) :
  (findClusterMap s = None
   <-> forall k, In k (JS.keys CLUSTER_INITIAL_MAP) -> JS.includes s k = false)
  /\ forall cm,
       findClusterMap s = Some cm ->
       exists k,
         JS.get CLUSTER_INITIAL_MAP k = Some cm
         /\ JS.includes s k = true
         /\ forall k',
              In k' (JS.keys CLUSTER_INITIAL_MAP) ->
              JS.includes s k' = true -> length k' <= length k.
Proof.
  destruct (sort_longest_first_spec (JS.keys CLUSTER_INITIAL_MAP))
    as [Hsorted Hin].
  unfold findClusterMap.
  destruct (List.find (fun k => JS.includes s k) _) as [k|] eqn:E.
  - pose proof (find_some _ _ E) as [Hk Hinc]. apply Hin in Hk.
    split.
    + split.
      * destruct (get_key _ _ Hk) as [v Hv]. rewrite Hv. discriminate.
      * intros H. rewrite (H k Hk) in Hinc. discriminate Hinc.
    + intros cm Hcm. exists k. split; [exact Hcm|split; [exact Hinc|]].
      intros k' Hk' Hinc'.
      apply (find_sorted_first _ _ _ Hsorted E k'); [now apply Hin|exact Hinc'].
  - split; [|discriminate]. split; [|reflexivity].
    intros _ k Hk. apply Hin in Hk. exact (find_none _ _ E k Hk).
Qed.

(** Every syllable in which the cluster key of four letters brgy occurs,
    and which is no key of the exception table, is converted to gä,
    whatever vowel sign and final it has: the key is the longest of the
    cluster table and its entry stands for the whole syllable. *)
Theorem convertSyllable_whole_cluster (syll : str) :
  EXCEPTIONS !! normToken (JS.trim syll) = None ->
  JS.includes (JS.trim syll) (u "བརྒྱ") = true ->
  convertSyllable syll = u "gä".
Proof.
  intros He Hinc.
  assert (Ht : JS.truthy (JS.trim syll) = true).
  { destruct (JS.trim syll); [discriminate Hinc|reflexivity]. }
  unfold convertSyllable. rewrite (trim_truthy syll Ht), Ht, He. cbn [negb].
  unfold findClusterMap.
  change (JS.sort_longest_first (JS.keys CLUSTER_INITIAL_MAP))
    with (u "བརྒྱ"
          :: tail (JS.sort_longest_first (JS.keys CLUSTER_INITIAL_MAP))).
  cbn [List.find]. rewrite Hinc. reflexivity.
Qed.

Lemma convertSyllable_whole_cluster_witness :
  EXCEPTIONS !! normToken (JS.trim (u "བརྒྱུད")) = None
  /\ JS.includes (JS.trim (u "བརྒྱུད")) (u "བརྒྱ") = true
  /\ convertSyllable (u "བརྒྱུད") = u "gä".
Proof.
  assert (He : EXCEPTIONS !! normToken (JS.trim (u "བརྒྱུད")) = None)
    by (vm_compute; reflexivity).
  assert (Hi : JS.includes (JS.trim (u "བརྒྱུད")) (u "བརྒྱ") = true)
    by (vm_compute; reflexivity).
  exact (conj He (conj Hi (convertSyllable_whole_cluster _ He Hi))).
Defined.

End Clusters.

(** ** Normalized text in the decomposition and in the windows *)

Section NormalizedText.

Local Open Scope nat_scope.

(** The raw characters that the decomposition records are the normalized
    syllable, and the decomposition depends on the normalized syllable
    only: tshegs, punctuation marks and white space inside a syllable do
    not change it. *)
Theorem decomposeSyllableRaw_normalized (syll : str) :
  rawChars (decomposeSyllableRaw syll) = normalizeKey syll
  /\ decomposeSyllableRaw (normalizeKey syll) = decomposeSyllableRaw syll.
Proof.
  assert (Hk : forall l,
             List.filter
               (fun ch => negb (ch =? TSHEG)%N && negb (is_shad_or_space ch)) l
             = List.filter kept l).
  { intros l. apply filter_ext. intros a. unfold kept. now rewrite N.eqb_sym. }
  split.
  - rewrite normalizeKey_filter.
    apply (decomposeSyllableRaw_fields syll).
  - unfold decomposeSyllableRaw.
    rewrite !Hk, normalizeKey_filter. now rewrite filter_idem.
Qed.

Lemma windowKey_phrase (pre post : list str) (phrase : str) :
  windowKey (pre ++ tokenize phrase ++ post) (length pre)
            (length (tokenize phrase))
  = normalizeKey phrase.
Proof.
  unfold windowKey. rewrite drop_app_length, take_app_length.
  now rewrite join_nil_concat, normalizeKey_tokens.
Qed.

Local Opaque EXCEPTIONS convertSyllable normalizeKey.

(** A phrase of two or three tokens whose normalized spelling is a key of
    the exception table is found by the scan wherever its tokens stand in
    a token list: with the cursor on its first token, the iteration emits
    the value of a key, the key of a window at least as long as the
    phrase, and moves the cursor by the width of that window; when the
    window is as wide as the phrase, the value is the one stored for the
    phrase.  The key of the window is the normalized phrase, whatever
    separators the phrase was written with. *)
Theorem registered_phrase_found
  (pre post : list str) (phrase r : str) (out : list str) :
  EXCEPTIONS !! normalizeKey phrase = Some r ->
  (length (tokenize phrase) = 2 \/ length (tokenize phrase) = 3) ->
  exists w r',
    scanStep (pre ++ tokenize phrase ++ post) (length pre, out)
    = (length pre + w, out ++ [r'])
    /\ EXCEPTIONS !! windowKey (pre ++ tokenize phrase ++ post) (length pre) w
       = Some r'
    /\ length (tokenize phrase) <= w <= 3
    /\ (w = length (tokenize phrase) -> r' = r).
Proof.
  intros He Hw. set (toks := pre ++ tokenize phrase ++ post).
  assert (Hk : EXCEPTIONS !! windowKey toks (length pre)
                 (length (tokenize phrase)) = Some r).
  { unfold toks. now rewrite windowKey_phrase. }
  assert (Hfit : length pre + length (tokenize phrase) <= length toks).
  { unfold toks. rewrite !length_app. lia. }
  unfold scanStep.
  destruct (matchWindow toks (length pre) [3; 2]) as [[w r']|] eqn:Hm.
  - pose proof (matchWindow_Some _ _ _ _ _ Hm) as (Hin & Hfit' & Hk').
    exists w, r'. split; [reflexivity|]. split; [exact Hk'|].
    assert (Hle : length (tokenize phrase) <= w <= 3).
    { destruct Hin as [<-|[<-|[]]]; [lia|].
      destruct Hw as [Hw|Hw]; [lia|exfalso].
      rewrite Hw in Hk, Hfit.
      rewrite (matchWindow_first _ _ _ _ _ Hfit Hk) in Hm. discriminate Hm. }
    split; [exact Hle|]. intros ->. rewrite Hk in Hk'. now injection Hk'.
  - exfalso. destruct Hw as [Hw|Hw]; rewrite Hw in Hk, Hfit.
    + cbn [matchWindow] in Hm. fold (windowKey toks (length pre) 3) in Hm.
      fold (windowKey toks (length pre) 2) in Hm. rewrite Hk in Hm.
      apply Nat.leb_le in Hfit. rewrite Hfit in Hm.
      destruct (length pre + 3 <=? length toks); [|discriminate Hm].
      destruct (EXCEPTIONS !! windowKey toks (length pre) 3); discriminate Hm.
    + rewrite (matchWindow_first _ _ _ _ _ Hfit Hk) in Hm. discriminate Hm.
Qed.

Lemma registered_phrase_found_witness :
  EXCEPTIONS !! normalizeKey (u "བཀྲ་ཤིས") = Some (u "Trashi")
  /\ (length (tokenize (u "བཀྲ་ཤིས")) = 2
      \/ length (tokenize (u "བཀྲ་ཤིས")) = 3)
  /\ exists w r',
       scanStep ([u "ཀ"] ++ tokenize (u "བཀྲ་ཤིས") ++ [u "ག"])
                (length [u "ཀ"], [u "kak"])
       = (length [u "ཀ"] + w, [u "kak"] ++ [r'])
       /\ EXCEPTIONS
            !! windowKey ([u "ཀ"] ++ tokenize (u "བཀྲ་ཤིས") ++ [u "ག"])
                 (length [u "ཀ"]) w
          = Some r'
       /\ length (tokenize (u "བཀྲ་ཤིས")) <= w <= 3
       /\ (w = length (tokenize (u "བཀྲ་ཤིས")) -> r' = u "Trashi").
Proof.
  assert (He : EXCEPTIONS !! normalizeKey (u "བཀྲ་ཤིས") = Some (u "Trashi"))
    by (vm_compute; reflexivity).
  assert (Hw : length (tokenize (u "བཀྲ་ཤིས")) = 2
               \/ length (tokenize (u "བཀྲ་ཤིས")) = 3)
    by (left; vm_compute; reflexivity).
  exact (conj He (conj Hw (registered_phrase_found _ _ _ _ _ He Hw))).
Defined.

End NormalizedText.

(** ** No Tibetan letter in the Roman form *)

Section Romanized.

Lemma romanized_app (s t : str) :
  romanized (s ++ t) = romanized s && romanized t.
Proof. apply forallb_app. Qed.

Lemma exception_values_romanized :
  List.Forall (fun e => romanized (snd e) = true) exception_entries.
Proof. repeat constructor. Qed.

Lemma EXCEPTIONS_value_romanized (k v : str) :
  EXCEPTIONS !! k = Some v -> romanized v = true.
Proof.
  intros H. apply addException_fold_lookup in H as [(e & Hin & _ & <-)|H];
    [|now rewrite lookup_empty in H].
  pose proof exception_values_romanized as Hall.
  rewrite List.Forall_forall in Hall. auto.
Qed.

Lemma cluster_romans_romanized :
  List.Forall (fun cm => romanized (roman cm) = true)
              (List.map snd CLUSTER_INITIAL_MAP).
Proof. repeat constructor. Qed.

Lemma vowelOf_romanized (comp : Decomposition) :
  romanized (vowelOf comp) = true.
Proof.
  destruct (vowelOf_cases comp) as (v & Hin & _ & ->).
  destruct (longMark comp && _);
    in_table Hin ltac:(subst v; reflexivity).
Qed.

Lemma convertSyllable_romanized (syll : str) (b : N) :
  baseInitial (decomposeSyllableRaw (JS.trim syll)) = Some b ->
  romanized (convertSyllable syll) = true.
Proof.
  intros Hb.
  assert (Ht : JS.truthy (JS.trim syll) = true).
  { destruct (JS.trim syll); [discriminate Hb|reflexivity]. }
  destruct (EXCEPTIONS !! normalizeKey (JS.trim syll)) as [r|] eqn:He.
  { rewrite (convertSyllable_exception _ _ Ht He).
    exact (EXCEPTIONS_value_romanized _ _ He). }
  destruct (findClusterMap (JS.trim syll)) as [[r [] p]|] eqn:Hc.
  - unfold convertSyllable, normToken.
    rewrite (trim_truthy syll Ht), Ht, He, Hc. cbn [negb].
    pose proof cluster_romans_romanized as H. rewrite List.Forall_forall in H.
    exact (H _ (findClusterMap_In _ _ Hc)).
  - assert (Hr : rulePath syll b).
    { split; [exact Ht|]. split; [exact He|]. split; [|exact Hb].
      intros cm Hcm. rewrite Hc in Hcm. now injection Hcm as <-. }
    rewrite (convertSyllable_rulePath syll b Hr).
    destruct (convertSyllable_parts
                (fun c => negb (Extended.isTibetanChar [c])) syll b Hr)
      as (tail & -> & Hi & Htl & Hf); [repeat constructor|].
    rewrite !romanized_app. unfold romanized at 1 3 5.
    rewrite Hi, Htl, Hf, vowelOf_romanized.
    now destruct (devoiced (JS.trim syll) b).
  - assert (Hr : rulePath syll b).
    { split; [exact Ht|]. split; [exact He|]. split; [|exact Hb].
      intros cm Hcm. rewrite Hc in Hcm. discriminate Hcm. }
    rewrite (convertSyllable_rulePath syll b Hr).
    destruct (convertSyllable_parts
                (fun c => negb (Extended.isTibetanChar [c])) syll b Hr)
      as (tail & -> & Hi & Htl & Hf); [repeat constructor|].
    rewrite !romanized_app. unfold romanized at 1 3 5.
    rewrite Hi, Htl, Hf, vowelOf_romanized.
    now destruct (devoiced (JS.trim syll) b).
Qed.

Lemma has_root_baseInitial (t : str) :
  existsb is_root t = true ->
  exists b, baseInitial (decomposeSyllableRaw t) = Some b.
Proof.
  intros H. rewrite baseInitial_find.
  destruct (List.find is_root t) as [b|] eqn:E; [eauto|].
  now apply existsb_root_find in H.
Qed.

Lemma segmented_romanized (toks out : list str) :
  segmented toks out ->
  Forall (fun t => existsb is_root (JS.trim t) = true) toks ->
  Forall (fun r => romanized r = true) out.
Proof.
  induction 1 as [|t ts os _ IH|w r ts os _ _ Hk _ IH]; intros Ht.
  - constructor.
  - inversion Ht as [|? ? Hroot Hts]; subst.
    destruct (has_root_baseInitial _ Hroot) as [b Hb].
    constructor; [exact (convertSyllable_romanized t b Hb)|auto].
  - constructor; [exact (EXCEPTIONS_value_romanized _ _ Hk)|].
    apply IH. apply List.Forall_forall. intros t Hin.
    rewrite List.Forall_forall in Ht. apply Ht.
    rewrite <- (take_drop w ts). apply in_or_app. now right.
Qed.

Lemma join_romanized (l : list str) :
  Forall (fun r => romanized r = true) l ->
  romanized (JS.join (u " ") l) = true.
Proof.
  induction 1 as [|x l Hx Hl IH]; [reflexivity|].
  cbn [JS.join]. destruct l; [exact Hx|].
  now rewrite !romanized_app, Hx, IH.
Qed.

(** When every token of the text holds a letter of the root table, the
    conversion holds no character of the Tibetan block. *)
Theorem convertDzongkhaText_romanized (input : str) :
  forallb (existsb is_root) (tokenize input) = true ->
  exists r, convertDzongkhaText input = Some r /\ romanized r = true.
Proof.
  intros Hroot. rewrite convertDzongkhaText_tokens.
  destruct (EXCEPTIONS !! _) as [r|] eqn:He.
  - exists r. split; [reflexivity|exact (EXCEPTIONS_value_romanized _ _ He)].
  - destruct (scanLoop_segmented _ (tokenize input) (le_n _))
      as (out & -> & Hseg).
    exists (JS.join (u " ") out). split; [reflexivity|].
    apply join_romanized, (segmented_romanized _ _ Hseg).
    apply List.Forall_forall. intros t Ht.
    rewrite forallb_forall in Hroot.
    pose proof (tokenize_tokens input) as Htok.
    rewrite List.Forall_forall in Htok. destruct (Htok t Ht) as [_ Hs].
    rewrite (token_trim t Hs). auto.
Qed.

Lemma convertDzongkhaText_romanized_witness :
  forallb (existsb is_root) (tokenize (u "ཀ་གི། བཀྲ་ཤིས")) = true
  /\ exists r,
       convertDzongkhaText (u "ཀ་གི། བཀྲ་ཤིས") = Some r /\ romanized r = true.
Proof.
  assert (H : forallb (existsb is_root) (tokenize (u "ཀ་གི། བཀྲ་ཤིས")) = true)
    by (vm_compute; reflexivity).
  exact (conj H (convertDzongkhaText_romanized _ H)).
Defined.

End Romanized.

(** * The extended converter against the checked one *)

(** ** Tokens *)

Section ExtendedText.

Lemma splitAltRuns_splitRuns (a b : N -> bool) (s : str) :
  (forall cur,
      List.filter JS.truthy (JS.splitAltRuns a b s cur JS.NoRun)
      = List.filter JS.truthy
          (JS.splitRuns (fun c => a c || b c) s cur false))
  /\ List.filter JS.truthy (JS.splitAltRuns a b s [] JS.RunA)
     = List.filter JS.truthy (JS.splitRuns (fun c => a c || b c) s [] true)
  /\ List.filter JS.truthy (JS.splitAltRuns a b s [] JS.RunB)
     = List.filter JS.truthy (JS.splitRuns (fun c => a c || b c) s [] true).
Proof.
  induction s as [|c r (IHn & IHa & IHb)]; [repeat split|].
  cbn [JS.splitAltRuns JS.splitRuns].
  destruct (a c); cbn [orb].
  - repeat split; [intros cur|..]; cbn [List.filter rev JS.truthy];
      now rewrite ?IHa.
  - destruct (b c).
    + repeat split; [intros cur|..]; cbn [List.filter rev JS.truthy];
        now rewrite ?IHb.
    + repeat split; [intros cur|..]; apply IHn.
Qed.

Lemma splitRuns_ext (p q : N -> bool) (s : str) :
  (forall c, p c = q c) ->
  forall cur inRun, JS.splitRuns p s cur inRun = JS.splitRuns q s cur inRun.
Proof.
  intros H. induction s as [|c r IH]; intros cur inRun; [reflexivity|].
  cbn [JS.splitRuns]. rewrite (H c). destruct (q c); [destruct inRun|];
    now rewrite ?IH.
Qed.

Lemma ext_tokenize (input : str) : Extended.tokenize input = tokenize input.
Proof.
  unfold Extended.tokenize, tokenize, JS.splitAlt, JS.split.
  rewrite (proj1 (splitAltRuns_splitRuns _ _ input)).
  f_equal. apply splitRuns_ext. intros c.
  unfold is_space_or_tsheg, TSHEG. now rewrite N.eqb_sym.
Qed.

(** The extended converter and the checked converter cut a text into the
    same tokens: splitting on runs of white space or runs of tshegs and
    dropping the empty pieces gives the same list as splitting the
    trimmed text on mixed runs of both. *)
Theorem tokenize_agree (input : str) :
  Extended.tokenize input = Checked.tokenize input
  /\ Extended.tokenize input = Checked.tokenize (JS.trim input).
Proof.
  split; [apply ext_tokenize|]. rewrite tokenize_trim. apply ext_tokenize.
Qed.

End ExtendedText.

(** ** Decompositions *)

Section Siblings.

Lemma findVowelSign_same (ks : list str) (l : str) :
  Extended.findVowelSign ks l = findVowelSign ks l.
Proof.
  induction ks as [|v ks IH]; [reflexivity|]. cbn. now rewrite IH.
Qed.

Lemma get_same_keys {A : Type} (o1 : JS.obj A) :
  forall (o2 : JS.obj str) (k : str),
    JS.keys o1 = JS.keys o2 ->
    Forall (fun v => JS.truthy v = true) (List.map snd o2) ->
    match JS.get o1 k with Some _ => true | None => false end
    = JS.has_truthy o2 k.
Proof.
  unfold JS.has_truthy.
  induction o1 as [|[k1 v1] o1 IH]; intros [|[k2 v2] o2] k Hk Hv;
    try discriminate Hk; [reflexivity|].
  cbn in Hk. injection Hk as <- Hk. cbn [List.map snd] in Hv.
  inversion Hv as [|? ? Hv2 Hvs]; subst. cbn [JS.get].
  case_bool_decide; [now rewrite Hv2|]. now apply IH.
Qed.

Lemma initialMap_is_root (ch : N) :
  match JS.get Extended.initialMap [ch] with Some _ => true | None => false end
  = is_root ch.
Proof.
  apply get_same_keys; [reflexivity|repeat constructor].
Qed.

Lemma find_pointwise {A : Type} (p q : A -> bool) (l : list A) :
  (forall a, p a = q a) -> List.find p l = List.find q l.
Proof.
  intros H. induction l as [|a l IH]; [reflexivity|]. cbn.
  now rewrite (H a), IH.
Qed.

Lemma existsb_pointwise {A : Type} (p q : A -> bool) (l : list A) :
  (forall a, p a = q a) -> existsb p l = existsb q l.
Proof.
  intros H. induction l as [|a l IH]; [reflexivity|]. cbn.
  now rewrite (H a), IH.
Qed.

Lemma plainSpaces_filter (s : str) :
  plainSpaces s = true ->
  List.filter
    (fun c => negb (c =? 0x0F0B) && negb (c =? 0x20) && negb (c =? 0x0F0D)
              && negb (c =? 0x0F0E) && negb (c =? 0x0F0F)
              && negb (c =? 0x0F14)) s
  = List.filter
      (fun ch => negb (ch =? TSHEG) && negb (is_shad_or_space ch)) s.
Proof.
  unfold plainSpaces. rewrite forallb_forall. intros H.
  apply filter_ext_in. intros c Hc. specialize (H c Hc).
  unfold is_shad_or_space, TSHEG.
  change (u "།༎༏༔") with [0x0F0D; 0x0F0E; 0x0F0F; 0x0F14].
  cbn [existsb]. rewrite orb_false_r.
  destruct (c =? 0x20) eqn:E.
  - apply N.eqb_eq in E as ->. reflexivity.
  - rewrite orb_false_r in H. apply negb_true_iff in H. rewrite H.
    rewrite orb_false_r.
    destruct (c =? 0x0F0B), (c =? 0x0F0D), (c =? 0x0F0E), (c =? 0x0F0F),
      (c =? 0x0F14); reflexivity.
Qed.

Lemma decompose_fields_agree (syll : str) :
  plainSpaces syll = true ->
  Extended.baseInitial (Extended.decomposeSyllable syll)
  = baseInitial (decomposeSyllableRaw syll)
  /\ Extended.vowelSign (Extended.decomposeSyllable syll)
     = vowelSign (decomposeSyllableRaw syll)
  /\ Extended.longMarkPresent (Extended.decomposeSyllable syll)
     = longMark (decomposeSyllableRaw syll)
  /\ Extended.hasPrefix (Extended.decomposeSyllable syll)
     = hasPrefix (decomposeSyllableRaw syll)
  /\ Extended.finalChar (Extended.decomposeSyllable syll)
     = finalChar (decomposeSyllableRaw syll).
Proof.
  intros Hs. unfold Extended.decomposeSyllable, decomposeSyllableRaw.
  rewrite (plainSpaces_filter syll Hs), findVowelSign_same.
  change (JS.keys Extended.vowelSigns) with (JS.keys VOWELS).
  change Extended.LONG_MARK with LONG_MARK.
  destruct (findVowelSign _ _) as [v cl].
  cbn [Extended.baseInitial Extended.vowelSign Extended.longMarkPresent
       Extended.hasPrefix Extended.finalChar baseInitial vowelSign longMark
       hasPrefix finalChar].
  repeat split.
  - apply find_pointwise. intros ch. apply initialMap_is_root.
  - apply existsb_pointwise. intros ch. apply N.eqb_sym.
Qed.

(** The two decompositions of a syllable whose only white space is the
    space U+0020 agree on the base initial, the vowel sign, the long-vowel
    flag, the prefix flag and the final. *)
Theorem decompositions_agree (syll : str) :
  plainSpaces syll = true ->
  Extended.baseInitial (Extended.decomposeSyllable syll)
  = baseInitial (decomposeSyllableRaw syll)
  /\ Extended.vowelSign (Extended.decomposeSyllable syll)
     = vowelSign (decomposeSyllableRaw syll)
  /\ Extended.longMarkPresent (Extended.decomposeSyllable syll)
     = longMark (decomposeSyllableRaw syll)
  /\ Extended.hasPrefix (Extended.decomposeSyllable syll)
     = hasPrefix (decomposeSyllableRaw syll)
  /\ Extended.finalChar (Extended.decomposeSyllable syll)
     = finalChar (decomposeSyllableRaw syll).
Proof. apply decompose_fields_agree. Qed.

Lemma decompositions_agree_witness :
  plainSpaces (u "གིང ") = true
  /\ Extended.finalChar (Extended.decomposeSyllable (u "གིང "))
     = finalChar (decomposeSyllableRaw (u "གིང ")).
Proof.
  assert (H : plainSpaces (u "གིང ") = true) by reflexivity.
  exact (conj H (proj2 (proj2 (proj2 (proj2 (decompositions_agree _ H)))))).
Defined.

End Siblings.

(** ** Roman forms *)

Section Agreement.

Lemma dropStart_none (cls : N -> bool) (s : str) :
  forallb (fun c => negb (cls c)) s = true -> Extended.dropStart cls s = s.
Proof.
  destruct s as [|c r]; [reflexivity|]. cbn [forallb Extended.dropStart].
  intros H. apply andb_prop in H as [Hc _]. apply negb_true_iff in Hc.
  now rewrite Hc.
Qed.

Lemma kept_not_tsheg_or_space (c : N) :
  kept c = true -> negb (Extended.is_tsheg_or_space c) = true.
Proof.
  unfold kept, Extended.is_tsheg_or_space, is_shad_or_space, TSHEG.
  rewrite (N.eqb_sym 0x0F0B).
  destruct (c =? 0x0F0B), (JS.is_space c); cbn; auto.
  now rewrite orb_true_r.
Qed.

Lemma kept_extTrimmed (syll : str) :
  forallb kept syll = true -> extTrimmed syll = syll /\ JS.trim syll = syll.
Proof.
  intros H. rewrite forallb_forall in H.
  assert (Ht : JS.trim syll = syll).
  { apply trim_no_space, List.Forall_forall. intros c Hc.
    specialize (H c Hc). destruct (JS.is_space c) eqn:E; [|reflexivity].
    now rewrite (space_not_kept c E) in H. }
  split; [|exact Ht]. unfold extTrimmed, Extended.stripEnds. rewrite Ht.
  assert (Hs : forallb (fun c => negb (Extended.is_tsheg_or_space c)) syll
               = true).
  { apply forallb_forall. intros c Hc. now apply kept_not_tsheg_or_space, H. }
  rewrite (dropStart_none _ _ Hs), dropStart_none, rev_involutive;
    [reflexivity|]. now rewrite forallb_reverse.
Qed.

Lemma cluster_keys_subjoined :
  List.Forall (fun k => existsb is_subjoined k = true)
              (JS.sort_longest_first (JS.keys CLUSTER_INITIAL_MAP)).
Proof. repeat constructor. Qed.

Lemma no_subjoined_no_cluster (syll : str) :
  forallb (fun c => negb (is_subjoined c)) syll = true ->
  findClusterMap syll = None.
Proof.
  intros H. rewrite forallb_forall in H. unfold findClusterMap.
  destruct (List.find (fun k => JS.includes syll k) _) as [k|] eqn:E;
    [exfalso|reflexivity].
  apply find_some in E as [Hin Hinc].
  pose proof cluster_keys_subjoined as Hall.
  rewrite List.Forall_forall in Hall. specialize (Hall k Hin).
  apply existsb_exists in Hall as (c & Hc & Hsub).
  specialize (H c (includes_In syll k c Hinc Hc)). now rewrite Hsub in H.
Qed.

Lemma medial_is_subjoined (c : N) : is_medial c = true -> is_subjoined c = true.
Proof.
  intros H. apply has_truthy_In in H.
  in_table H ltac:(injection H as <-; reflexivity).
Qed.

Lemma no_subjoined_no_medial (syll : str) :
  forallb (fun c => negb (is_subjoined c)) syll = true ->
  medialsFound (decomposeSyllableRaw syll) = [].
Proof.
  intros H. rewrite forallb_forall in H. rewrite medialsFound_filter.
  rewrite (filter_none is_medial (fun c => negb (is_subjoined c)) syll);
    [reflexivity| |].
  - now apply List.Forall_forall.
  - intros a Ha. destruct (is_medial a) eqn:E; [|reflexivity].
    now rewrite (medial_is_subjoined a E) in Ha.
Qed.

Lemma splice_first_In (l : str) (v : str) (c : N) :
  In c (JS.splice_first l v) -> In c l.
Proof.
  induction l as [|a l IH]; [intros []|]. cbn [JS.splice_first].
  case_bool_decide as Hv; [now right|]. intros [->|Hc]; [now left|right; auto].
Qed.

Lemma findVowelSign_In (ks : list str) (l : str) (c : N) :
  In c (snd (findVowelSign ks l)) -> In c l.
Proof.
  induction ks as [|v ks IH]; [auto|]. cbn [findVowelSign].
  destruct (JS.truthy v && JS.array_includes l v); [|exact IH].
  apply splice_first_In.
Qed.

Lemma ext_no_subjoined (syll : str) :
  forallb (fun c => negb (is_subjoined c)) syll = true ->
  Extended.hasSubjoined (Extended.decomposeSyllable syll) = false.
Proof.
  intros H. rewrite forallb_forall in H. unfold Extended.decomposeSyllable.
  rewrite findVowelSign_same.
  destruct (findVowelSign _ _) as [v remaining] eqn:E.
  cbn [Extended.hasSubjoined].
  apply existsb_false_forallb, forallb_forall. intros c Hc. apply H.
  change remaining with (snd (v, remaining)) in Hc. rewrite <- E in Hc.
  apply findVowelSign_In in Hc.
  apply List.filter_In in Hc as [Hc _].
  now apply List.filter_In in Hc as [Hc _].
Qed.

Lemma ext_not_exception (syll : str) :
  forallb (fun c => negb (is_subjoined c)) syll = true ->
  existsb is_root syll = true ->
  EXCEPTIONS !! normalizeKey syll = None ->
  Extended.read Extended.exceptions syll = None.
Proof.
  intros Hsub Hroot He. unfold Extended.read.
  destruct (JS.get Extended.exceptions syll) as [v|] eqn:E.
  - exfalso. apply get_In in E.
    in_table E ltac:(injection E as <- <-;
                     first [discriminate Hsub|discriminate He]).
  - unfold JS.set_has. case_bool_decide as Hp; [exfalso|reflexivity].
    apply list_elem_of_In in Hp.
    in_table Hp ltac:(subst syll; discriminate Hroot).
Qed.

Lemma initial_forms (b : N) (hp : bool) :
  is_root b = true ->
  match JS.get Extended.initialMap [b] with
  | Some initialInfo =>
      if hp then Extended.hard initialInfo else Extended.soft initialInfo
  | None => [b]
  end
  = devoice hp b (JS.get_or INITIAL_BASE [b] [b]).
Proof.
  intros H. apply has_truthy_In in H.
  in_table H ltac:(injection H as <-; now destruct hp).
Qed.

Lemma kept_plainSpaces (syll : str) :
  forallb kept syll = true -> plainSpaces syll = true.
Proof.
  unfold plainSpaces. rewrite !forallb_forall. intros H c Hc.
  specialize (H c Hc). destruct (JS.is_space c) eqn:E; [|reflexivity].
  now rewrite (space_not_kept c E) in H.
Qed.

(** On a syllable without tsheg, punctuation mark or white space and
    without subjoined letter, in which a root letter occurs and which is
    no key of the exception table of the checked converter, the extended
    converter and the checked converter return the same Roman form. *)
Theorem converters_agree (syll : str) :
  forallb kept syll = true ->
  forallb (fun c => negb (is_subjoined c)) syll = true ->
  existsb is_root syll = true ->
  EXCEPTIONS !! normalizeKey syll = None ->
  Extended.convertSyllable syll = Extended.Str (Checked.convertSyllable syll).
Proof.
  intros Hk Hsub Hroot He.
  destruct (kept_extTrimmed syll Hk) as [Hext Htrim].
  destruct (has_root_baseInitial syll Hroot) as [b Hb].
  assert (Hne : JS.truthy syll = true).
  { destruct syll; [discriminate Hroot|reflexivity]. }
  assert (Hr : rulePath syll b).
  { unfold rulePath, normToken. rewrite Htrim.
    split; [exact Hne|]. split; [exact He|]. split; [|exact Hb].
    intros cm Hcm. now rewrite (no_subjoined_no_cluster syll Hsub) in Hcm. }
  rewrite (convertSyllable_rulePath syll b Hr). unfold initialOf.
  rewrite Htrim, (no_subjoined_no_cluster syll Hsub),
    (no_subjoined_no_medial syll Hsub).
  cbn [addMedials fold_left hardened initialHint clusterHint].
  unfold Extended.convertSyllable. rewrite Hne. cbn [negb].
  fold (extTrimmed syll). rewrite Hext.
  rewrite (ext_not_exception syll Hsub Hroot He).
  destruct (decompose_fields_agree syll (kept_plainSpaces syll Hk))
    as (-> & -> & -> & -> & ->).
  rewrite Hb, (ext_no_subjoined syll Hsub), orb_false_r.
  rewrite (initial_forms b _ (baseInitial_is_root _ _ Hb)).
  reflexivity.
Qed.

Lemma converters_agree_witness :
  forallb kept (u "བཟང") = true
  /\ forallb (fun c => negb (is_subjoined c)) (u "བཟང") = true
  /\ existsb is_root (u "བཟང") = true
  /\ EXCEPTIONS !! normalizeKey (u "བཟང") = None
  /\ Extended.convertSyllable (u "བཟང")
     = Extended.Str (Checked.convertSyllable (u "བཟང")).
Proof.
  assert (Hk : forallb kept (u "བཟང") = true) by (vm_compute; reflexivity).
  assert (Hs : forallb (fun c => negb (is_subjoined c)) (u "བཟང") = true)
    by (vm_compute; reflexivity).
  assert (Hr : existsb is_root (u "བཟང") = true) by (vm_compute; reflexivity).
  assert (He : EXCEPTIONS !! normalizeKey (u "བཟང") = None)
    by (vm_compute; reflexivity).
  exact (conj Hk (conj Hs (conj Hr (conj He
           (converters_agree _ Hk Hs Hr He))))).
Defined.

End Agreement.

(** * Further properties of the extended converter *)

Section ExtendedEdges.

Lemma dropStart_app (cls : N -> bool) (ws s : str) :
  forallb cls ws = true ->
  Extended.dropStart cls (ws ++ s) = Extended.dropStart cls s.
Proof.
  induction ws as [|c r IH]; [reflexivity|].
  cbn [forallb app Extended.dropStart].
  intros H. apply andb_prop in H as [-> Hr]. auto.
Qed.

Lemma dropStart_all (cls : N -> bool) (s : str) :
  forallb cls s = true -> Extended.dropStart cls s = [].
Proof.
  intros H. rewrite <- (app_nil_r s). now rewrite dropStart_app.
Qed.

Lemma dropStart_cases (cls : N -> bool) (s : str) :
  (Extended.dropStart cls s = [] /\ forallb cls s = true)
  \/ exists c r,
       Extended.dropStart cls s = c :: r /\ cls c = false
       /\ forall z, Extended.dropStart cls (s ++ z) = c :: r ++ z.
Proof.
  induction s as [|a s IH]; [now left|]. cbn [Extended.dropStart forallb app].
  destruct (cls a) eqn:E.
  - destruct IH as [[H1 H2]|(c & r & H1 & H2 & H3)]; [now left|].
    right. exists c, r. auto.
  - right. exists a, s. auto.
Qed.

(** Characters of the class at the two ends do not count. *)
Lemma stripEnds_pad (cls : N -> bool) (ws s ws' : str) :
  forallb cls ws = true -> forallb cls ws' = true ->
  Extended.stripEnds cls (ws ++ s ++ ws') = Extended.stripEnds cls s.
Proof.
  intros Hws Hws'. unfold Extended.stripEnds.
  rewrite (dropStart_app cls ws _ Hws).
  destruct (dropStart_cases cls s) as [[H1 H2]|(c & r & H1 & H2 & H3)].
  - rewrite H1, (dropStart_all cls (s ++ ws')); [reflexivity|].
    now rewrite forallb_app, H2, Hws'.
  - rewrite H3, H1.
    change (c :: r ++ ws') with ((c :: r) ++ ws').
    rewrite rev_app_distr, dropStart_app; [reflexivity|].
    now rewrite forallb_reverse.
Qed.

Lemma extTrimmed_pad (pre s post : str) :
  forallb Extended.is_tsheg_or_space pre = true ->
  forallb Extended.is_tsheg_or_space post = true ->
  extTrimmed (pre ++ s ++ post)
  = Extended.stripEnds Extended.is_tsheg_or_space s.
Proof.
  intros Hpre Hpost. unfold extTrimmed.
  destruct (trim_split (pre ++ s ++ post)) as (ws & ws' & Hs & Hws & Hws').
  assert (Hcls : forall l, Forall (fun c => JS.is_space c = true) l ->
                           forallb Extended.is_tsheg_or_space l = true).
  { intros l Hl. apply forallb_forall. rewrite List.Forall_forall in Hl.
    intros c Hc. unfold Extended.is_tsheg_or_space. rewrite (Hl c Hc).
    apply orb_true_r. }
  rewrite <- (stripEnds_pad _ ws (JS.trim _) ws' (Hcls _ Hws) (Hcls _ Hws')).
  rewrite <- Hs. now apply stripEnds_pad.
Qed.

(** Every key of the exception dictionary of the extended converter is
    converted to the Roman form stored for it, whatever tshegs and white
    space stand before and after it. *)
Theorem extended_exception_key (k v pre post : str) :
  JS.get Extended.exceptions k = Some v ->
  forallb Extended.is_tsheg_or_space pre = true ->
  forallb Extended.is_tsheg_or_space post = true ->
  Extended.convertSyllable (pre ++ k ++ post) = Extended.Str v.
Proof.
  intros Hk Hpre Hpost. unfold Extended.convertSyllable.
  fold (extTrimmed (pre ++ k ++ post)).
  rewrite (extTrimmed_pad _ _ _ Hpre Hpost).
  apply get_In in Hk.
  assert (Hne : JS.truthy (pre ++ k ++ post) = true).
  { apply truthy_app_r, truthy_app_l.
    in_table Hk ltac:(injection Hk as <- <-; reflexivity). }
  rewrite Hne. cbn [negb].
  in_table Hk ltac:(injection Hk as <- <-; reflexivity).
Qed.

Lemma extended_exception_key_witness :
  JS.get Extended.exceptions (u "རྨགཔ") = Some (u "'map")
  /\ forallb Extended.is_tsheg_or_space (u "་") = true
  /\ forallb Extended.is_tsheg_or_space (u " ་ ") = true
  /\ Extended.convertSyllable (u "་" ++ u "རྨགཔ" ++ u " ་ ")
     = Extended.Str (u "'map").
Proof.
  assert (Hk : JS.get Extended.exceptions (u "རྨགཔ") = Some (u "'map"))
    by reflexivity.
  assert (Hpre : forallb Extended.is_tsheg_or_space (u "་") = true)
    by reflexivity.
  assert (Hpost : forallb Extended.is_tsheg_or_space (u " ་ ") = true)
    by reflexivity.
  exact (conj Hk (conj Hpre (conj Hpost
           (extended_exception_key _ _ _ _ Hk Hpre Hpost)))).
Defined.

Lemma initialMap_keys_tibetan (c : N) :
  is_root c = true -> Extended.isTibetanChar [c] = true.
Proof.
  intros H. apply has_truthy_In in H.
  in_table H ltac:(injection H as <-; reflexivity).
Qed.

(** A syllable without any character of the Tibetan block, once the white
    space and the tshegs at its ends are stripped, is returned stripped
    and otherwise unchanged by the extended converter, unless it is the
    name of a property of [Object.prototype]. *)
Theorem extended_foreign_syllable (syll : str) :
  romanized (extTrimmed syll) = true ->
  JS.set_has Extended.prototype_names (extTrimmed syll) = false ->
  Extended.convertSyllable syll = Extended.Str (extTrimmed syll).
Proof.
  intros Hrom Hproto. unfold Extended.convertSyllable.
  destruct (JS.truthy syll) eqn:Hne; cbn [negb].
  2: { destruct syll; [reflexivity|discriminate Hne]. }
  fold (extTrimmed syll).
  assert (Hread : Extended.read Extended.exceptions (extTrimmed syll) = None).
  { unfold Extended.read. rewrite Hproto.
    destruct (JS.get Extended.exceptions (extTrimmed syll)) as [v|] eqn:E;
      [exfalso|reflexivity].
    apply get_In in E. revert Hrom. generalize dependent (extTrimmed syll).
    intros x _ E.
    in_table E ltac:(injection E as <- <-; discriminate). }
  rewrite Hread.
  assert (Hb : Extended.baseInitial
                 (Extended.decomposeSyllable (extTrimmed syll)) = None).
  { unfold Extended.decomposeSyllable. rewrite findVowelSign_same.
    destruct (findVowelSign _ _) as [v remaining] eqn:E.
    cbn [Extended.baseInitial].
    rewrite (find_pointwise _ is_root _ initialMap_is_root).
    apply find_root_none. intros c Hc.
    change remaining with (snd (v, remaining)) in Hc. rewrite <- E in Hc.
    apply findVowelSign_In in Hc.
    apply List.filter_In in Hc as [Hc _].
    apply List.filter_In in Hc as [Hc _].
    unfold romanized in Hrom. rewrite forallb_forall in Hrom.
    specialize (Hrom c Hc). destruct (is_root c) eqn:Er; [|reflexivity].
    now rewrite (initialMap_keys_tibetan c Er) in Hrom. }
  now rewrite Hb.
Qed.

Lemma extended_foreign_syllable_witness :
  romanized (extTrimmed (u " Thimphu་")) = true
  /\ JS.set_has Extended.prototype_names (extTrimmed (u " Thimphu་")) = false
  /\ Extended.convertSyllable (u " Thimphu་")
     = Extended.Str (extTrimmed (u " Thimphu་")).
Proof.
  assert (Hr : romanized (extTrimmed (u " Thimphu་")) = true)
    by (vm_compute; reflexivity).
  assert (Hp : JS.set_has Extended.prototype_names (extTrimmed (u " Thimphu་"))
               = false) by (vm_compute; reflexivity).
  exact (conj Hr (conj Hp (extended_foreign_syllable _ Hr Hp))).
Defined.

End ExtendedEdges.

(** ** The dictionary in a text *)

Section ExtendedKeys.

Lemma splitRuns_app_free (sep : N -> bool) (k z : str) :
  forall cur,
    forallb (fun c => negb (sep c)) k = true ->
    JS.splitRuns sep (k ++ z) cur false
    = JS.splitRuns sep z (rev k ++ cur) false.
Proof.
  induction k as [|c k IH]; intros cur H; [reflexivity|].
  cbn [forallb] in H. apply andb_prop in H as [Hc Hk].
  apply negb_true_iff in Hc. cbn [app JS.splitRuns]. rewrite Hc.
  rewrite (IH _ Hk). cbn [rev]. now rewrite <- app_assoc.
Qed.

Lemma tokenize_key_sep (k sp rest : str) :
  JS.truthy k = true ->
  forallb (fun c => negb (is_space_or_tsheg c)) k = true ->
  JS.truthy sp = true ->
  forallb is_space_or_tsheg sp = true ->
  tokenize (k ++ sp ++ rest) = k :: tokenize rest.
Proof.
  intros Hk Hfree Hsp Hsep. unfold tokenize, JS.split.
  rewrite (splitRuns_app_free _ k _ [] Hfree), app_nil_r.
  destruct sp as [|c sp']; [discriminate Hsp|].
  cbn [forallb] in Hsep. apply andb_prop in Hsep as [Hc Hsep].
  cbn [app JS.splitRuns]. rewrite Hc. cbn [List.filter].
  rewrite rev_involutive, Hk. f_equal.
  rewrite splitRuns_flag, splitRuns_leading; [reflexivity|].
  apply List.Forall_forall. now apply forallb_forall.
Qed.

Lemma ext_class_separator (c : N) :
  Extended.is_tsheg_or_space c = is_space_or_tsheg c.
Proof.
  unfold Extended.is_tsheg_or_space, is_space_or_tsheg, TSHEG.
  apply orb_comm.
Qed.

(** A text made of keys of the exception dictionary of the extended
    converter, each followed by tshegs or white space, is converted to the
    Roman forms stored for the keys, in order, with a single space between
    them. *)
Theorem extended_text_of_keys (l : list (str * str * str)) :
  Forall (fun '(k, v, sp) =>
            JS.get Extended.exceptions k = Some v
            /\ JS.truthy sp = true
            /\ forallb Extended.is_tsheg_or_space sp = true) l ->
  Extended.convertDzongkhaText
    (concat (List.map (fun '(k, _, sp) => k ++ sp) l))
  = Some (JS.join (u " ") (List.map (fun '(_, v, _) => v) l)).
Proof.
  intros H.
  assert (Hm : mapM Extended.rendered
                 (List.map Extended.convertSyllable
                    (List.map (fun '(k, _, _) => k) l))
               = Some (List.map (fun '(_, v, _) => v) l)).
  { induction H as [|[[k v] sp] l (Hk & _) _ IH]; [reflexivity|].
    cbn [List.map mapM]. rewrite IH.
    apply get_In in Hk.
    in_table Hk ltac:(injection Hk as <- <-; reflexivity). }
  assert (Htok : Extended.tokenize
                   (concat (List.map (fun '(k, _, sp) => k ++ sp) l))
                 = List.map (fun '(k, _, _) => k) l).
  { clear Hm. rewrite ext_tokenize.
    induction H as [|[[k v] sp] l (Hk & Hsp & Hsep) _ IH]; [reflexivity|].
    cbn [List.map concat]. rewrite <- app_assoc.
    rewrite tokenize_key_sep, IH; [reflexivity| | |exact Hsp|].
    - apply get_In in Hk.
      in_table Hk ltac:(injection Hk as <- <-; reflexivity).
    - apply get_In in Hk.
      in_table Hk ltac:(injection Hk as <- <-; reflexivity).
    - rewrite forallb_forall in Hsep. apply forallb_forall. intros c Hc.
      rewrite <- ext_class_separator. auto. }
  unfold Extended.convertDzongkhaText. rewrite Htok, Hm.
  destruct l as [|[[k v] sp] l]; [reflexivity|].
  apply List.Forall_cons_iff in H as [(Hk & _) _].
  assert (Hne : JS.truthy (concat (List.map (fun '(k, _, sp) => k ++ sp)
                                     ((k, v, sp) :: l))) = true).
  { cbn [List.map concat]. apply truthy_app_l, truthy_app_l.
    apply get_In in Hk.
    in_table Hk ltac:(injection Hk as <- <-; reflexivity). }
  now rewrite Hne.
Qed.

Lemma extended_text_of_keys_witness :
  Forall (fun '(k, v, sp) =>
            JS.get Extended.exceptions k = Some v
            /\ JS.truthy sp = true
            /\ forallb Extended.is_tsheg_or_space sp = true)
         [ (u "བརྒྱད", u "gä", u "་ "); (u "རྨགཔ", u "'map", u "་ ");
           (u "སྐུ", u "ku", u " "); (u "ཀུཝ", u "kû", u "་") ]
  /\ Extended.convertDzongkhaText (u "བརྒྱད་ རྨགཔ་ སྐུ ཀུཝ་")
     = Some (u "gä 'map ku kû").
Proof.
  assert (H : Forall (fun '(k, v, sp) =>
                        JS.get Extended.exceptions k = Some v
                        /\ JS.truthy sp = true
                        /\ forallb Extended.is_tsheg_or_space sp = true)
                [ (u "བརྒྱད", u "gä", u "་ "); (u "རྨགཔ", u "'map", u "་ ");
                  (u "སྐུ", u "ku", u " "); (u "ཀུཝ", u "kû", u "་") ])
    by (repeat constructor).
  exact (conj H (extended_text_of_keys _ H)).
Defined.

End ExtendedKeys.

(** * Properties of the complete converter *)

(** ** The tokenizer *)

Section CompleteTokens.

Lemma vowel_mark_not_stack (c : N) :
  is_vowel_mark c = true -> is_stack c = false.
Proof.
  intros H. apply has_truthy_In in H.
  in_table H ltac:(first [discriminate H|injection H as <-; reflexivity]).
Qed.

Lemma coda_not_stack_nor_vowel (c : N) :
  is_coda c = true -> is_stack c = false /\ is_vowel_mark c = false.
Proof.
  intros H. apply has_truthy_In in H.
  in_table H ltac:(injection H as <-; split; reflexivity).
Qed.

Lemma classify_filters (chars : list N) :
  forall h st vo fi re,
    Complete.classify chars (Complete.mkToken h st vo fi re)
    = Complete.mkToken h
        (st ++ List.filter is_stack chars)
        (vo ++ List.filter is_vowel_mark chars)
        (fi ++ List.filter is_coda chars)
        (re ++ List.filter unclassified chars).
Proof.
  induction chars as [|c r IH]; intros h st vo fi re.
  - cbn. now rewrite !app_nil_r.
  - cbn [Complete.classify List.filter]. unfold unclassified.
    fold (is_stack c) (is_vowel_mark c) (is_coda c).
    destruct (is_stack c) eqn:Es.
    + rewrite IH.
      destruct (is_vowel_mark c) eqn:Ev;
        [now rewrite (vowel_mark_not_stack c Ev) in Es|].
      destruct (is_coda c) eqn:Ec;
        [now rewrite (proj1 (coda_not_stack_nor_vowel c Ec)) in Es|].
      cbn [negb andb]. now rewrite <- !app_assoc.
    + destruct (is_vowel_mark c) eqn:Ev.
      * rewrite IH.
        destruct (is_coda c) eqn:Ec;
          [now rewrite (proj2 (coda_not_stack_nor_vowel c Ec)) in Ev|].
        cbn [negb andb]. now rewrite <- !app_assoc.
      * destruct (is_coda c) eqn:Ec; rewrite IH; cbn [negb andb];
          now rewrite <- !app_assoc.
Qed.

Lemma tokenizeSyllable_filters (first : N) (others : str) :
  Complete.tokenizeSyllable (first :: others)
  = Complete.mkToken
      (if is_head first then [first] else [])
      (List.filter is_stack others)
      (List.filter is_vowel_mark others)
      (List.filter is_coda others)
      ((if is_head first then [] else [first])
       ++ List.filter unclassified others).
Proof.
  unfold Complete.tokenizeSyllable. fold (is_head first).
  destruct (is_head first); now rewrite classify_filters.
Qed.

(** What the tokenizer makes of a syllable.  The token of the empty
    syllable is empty.  Otherwise the first character is the head when it
    is a root letter, and goes to the rest when it is not; of the
    characters after it, the subjoined letters make the stacks, the vowel
    signs the vowels and the letters of the final table the finals, each
    in the order of the syllable, and every other character goes to the
    rest.  The three tables have no key in common, so that the order of
    the tests does not matter. *)
Theorem tokenizeSyllable_classes (first : N) (others : str) :
  Complete.tokenizeSyllable [] = Complete.mkToken [] [] [] [] []
  /\ Complete.tokenizeSyllable (first :: others)
     = Complete.mkToken
         (if is_head first then [first] else [])
         (List.filter is_stack others)
         (List.filter is_vowel_mark others)
         (List.filter is_coda others)
         ((if is_head first then [] else [first])
          ++ List.filter unclassified others)
  /\ (forall c, is_stack c && is_vowel_mark c = false
                /\ is_stack c && is_coda c = false
                /\ is_vowel_mark c && is_coda c = false).
Proof.
  split; [reflexivity|]. split; [apply tokenizeSyllable_filters|].
  intros c. repeat split.
  - destruct (is_vowel_mark c) eqn:E; [|apply andb_false_r].
    now rewrite (vowel_mark_not_stack c E).
  - destruct (is_coda c) eqn:E; [|apply andb_false_r].
    now rewrite (proj1 (coda_not_stack_nor_vowel c E)).
  - destruct (is_coda c) eqn:E; [|apply andb_false_r].
    now rewrite (proj2 (coda_not_stack_nor_vowel c E)).
Qed.

End CompleteTokens.

(** ** The raw Roman form of a token *)

Section CompleteRoman.

Lemma fold_append_prefix (T : JS.obj str) (l : list N) :
  forall rom,
    exists tail,
      fold_left (fun rom s => rom ++ default [] (JS.get T [s])) l rom
      = rom ++ tail
      /\ forall P : N -> bool,
           Forall (fun v => forallb P v = true) (List.map snd T) ->
           forallb P tail = true.
Proof.
  induction l as [|c l IH]; intros rom.
  - exists []. split; [now rewrite app_nil_r|reflexivity].
  - cbn [fold_left].
    destruct (IH (rom ++ default [] (JS.get T [c]))) as (tail & -> & Ht).
    exists (default [] (JS.get T [c]) ++ tail).
    split; [now rewrite app_assoc|].
    intros P HP. rewrite forallb_app, (Ht P HP), andb_true_r.
    destruct (JS.get T [c]) as [v|] eqn:E; [|reflexivity].
    apply get_In in E. apply (in_map snd) in E.
    rewrite List.Forall_forall in HP. exact (HP _ E).
Qed.

Lemma forallb_take {A : Type} (P : A -> bool) (n : nat) (l : list A) :
  forallb P l = true -> forallb P (take n l) = true.
Proof.
  rewrite !forallb_forall. intros H a Ha. apply H.
  apply list_elem_of_In. apply list_elem_of_In in Ha.
  now apply (subseteq_take n).
Qed.

Lemma vowelLoop_nil (st : str * bool) : vowelLoop [] st = st.
Proof. reflexivity. Qed.

Lemma vowelLoop_last (vs : list N) (v : N) (st : str * bool) :
  exists rom,
    vowelLoop (vs ++ [v]) st
    = (rom ++ default [] (JS.get Complete.VOWEL [v]), true)
    /\ forall P : N -> bool,
         forallb P (fst st) = true ->
         Forall (fun v => forallb P v = true) (List.map snd Complete.VOWEL) ->
         forallb P rom = true.
Proof.
  unfold vowelLoop. rewrite fold_left_app. cbn [fold_left].
  revert st. induction vs as [|a vs IH]; intros [rom flag].
  - cbn [fold_left]. eexists. split; [reflexivity|].
    intros P Hrom _. cbn [fst] in Hrom.
    destruct (JS.endsWith rom (u "a")); [|exact Hrom].
    unfold JS.replaceSuffix.
    destruct (JS.endsWith rom (u "a")); [|exact Hrom].
    rewrite app_nil_r. now apply forallb_take.
  - cbn [fold_left].
    destruct (IH ((if JS.endsWith rom (u "a")
                   then JS.replaceSuffix (u "a") [] rom else rom)
                  ++ default [] (JS.get Complete.VOWEL [a]), true))
      as (rom' & -> & Hrom').
    exists rom'. split; [reflexivity|].
    intros P Hrom HP. apply Hrom'; [|exact HP]. cbn [fst] in *.
    rewrite forallb_app. apply andb_true_intro. split.
    + destruct (JS.endsWith rom (u "a")); [|exact Hrom].
      unfold JS.replaceSuffix.
      destruct (JS.endsWith rom (u "a")); [|exact Hrom].
      rewrite app_nil_r. now apply forallb_take.
    + destruct (JS.get Complete.VOWEL [a]) as [x|] eqn:E; [|reflexivity].
      apply get_In in E. apply (in_map snd) in E.
      rewrite List.Forall_forall in HP. exact (HP _ E).
Qed.

Lemma buildRomanFromToken_unfold (token : Complete.Token) :
  Complete.buildRomanFromToken token
  = let rom :=
      if JS.truthy (Complete.head token)
      then default [] (JS.get Complete.ROOT (Complete.head token)) else [] in
    let rom :=
      fold_left (fun rom s => rom ++ default [] (JS.get Complete.SUB [s]))
                (Complete.stacks token) rom in
    let st := vowelLoop (Complete.vowels token) (rom, false) in
    let rom :=
      fold_left (fun rom f => rom ++ default [] (JS.get Complete.FINAL [f]))
                (Complete.finals token) (fst st) in
    if negb (snd st)
       && negb (existsb Complete.is_vowel_letter (drop (length rom - 1) rom))
    then rom ++ u "a"
    else rom.
Proof.
  unfold Complete.buildRomanFromToken, vowelLoop. cbv zeta.
  destruct (JS.truthy (Complete.head token)); cbn [app];
    destruct (fold_left _ (Complete.vowels token) _) as [rom flag];
    reflexivity.
Qed.

End CompleteRoman.

Section CompleteNucleus.

Lemma existsb_drop {A : Type} (p : A -> bool) (n : nat) (l : list A) :
  existsb p (drop n l) = true -> existsb p l = true.
Proof.
  rewrite !existsb_exists. intros (a & Ha & Hp). exists a. split; [|exact Hp].
  apply list_elem_of_In. apply list_elem_of_In in Ha.
  now apply (subseteq_drop n).
Qed.

Lemma vowel_mark_value (v : N) :
  is_vowel_mark v = true ->
  hasNucleus (default [] (JS.get Complete.VOWEL [v])) = true.
Proof.
  intros H. apply has_truthy_In in H.
  in_table H ltac:(first [discriminate H|injection H as <-; reflexivity]).
Qed.

Lemma hasNucleus_app (s t : str) :
  hasNucleus (s ++ t) = hasNucleus s || hasNucleus t.
Proof. apply existsb_app. Qed.

(** The raw Roman form of a token, when every character of its vowel
    list is a vowel sign, holds a vowel letter. *)
Lemma buildRomanFromToken_nucleus (token : Complete.Token) :
  Forall (fun v => is_vowel_mark v = true) (Complete.vowels token) ->
  hasNucleus (Complete.buildRomanFromToken token) = true.
Proof.
  intros Hv. rewrite buildRomanFromToken_unfold. cbv zeta.
  set (rom2 := fold_left _ (Complete.stacks token) _).
  induction (Complete.vowels token) as [|v0 vs0 _] using rev_ind.
  - rewrite vowelLoop_nil. cbn [fst snd negb andb].
    set (rom := fold_left _ (Complete.finals token) rom2).
    destruct (existsb Complete.is_vowel_letter (drop (length rom - 1) rom))
      eqn:Ed; cbn [negb].
    + exact (existsb_drop _ _ _ Ed).
    + rewrite hasNucleus_app. apply orb_true_r.
  - destruct (vowelLoop_last vs0 v0 (rom2, false)) as (rom & -> & _).
    cbn [fst snd negb andb].
    destruct (fold_append_prefix Complete.FINAL (Complete.finals token)
                (rom ++ default [] (JS.get Complete.VOWEL [v0])))
      as (tail & -> & _).
    rewrite !hasNucleus_app, vowel_mark_value; [now rewrite orb_true_r|].
    rewrite List.Forall_forall in Hv. apply Hv.
    apply in_or_app. right. now left.
Qed.

(** The raw Roman form of a syllable always holds a vowel letter: a vowel
    sign of the syllable gives one, and the inherent [a] is added when
    there is no vowel sign and the form does not end in a vowel letter.
    The form of the empty syllable is [a]. *)
Theorem rawSyllable_has_nucleus (syl : str) :
  hasNucleus (Complete.buildRomanFromToken (Complete.tokenizeSyllable syl))
  = true.
Proof.
  apply buildRomanFromToken_nucleus.
  destruct syl as [|first others]; [constructor|].
  rewrite tokenizeSyllable_filters. cbn [Complete.vowels].
  apply List.Forall_forall. intros v Hv.
  now apply List.filter_In in Hv as [_ Hv].
Qed.

End CompleteNucleus.

(** ** The prefix rules *)

Section CompleteRules.

Lemma collapseRepeats_head (c : N) (s : str) :
  hd_error (JS.collapseRepeats c s) = hd_error s.
Proof.
  induction s as [|a r IH]; [reflexivity|]. cbn [JS.collapseRepeats].
  destruct r as [|b r']; [reflexivity|].
  destruct ((a =? c) && (b =? c)) eqn:E; [|reflexivity].
  rewrite IH. cbn. apply andb_prop in E as [Ha Hb].
  apply N.eqb_eq in Ha, Hb. congruence.
Qed.

Lemma collapseRepeats_no_double (c : N) (s : str) :
  JS.includes (JS.collapseRepeats c s) [c; c] = false.
Proof.
  induction s as [|a r IH]; [reflexivity|]. cbn [JS.collapseRepeats].
  destruct r as [|b r']; [cbn; now rewrite andb_false_r|].
  destruct ((a =? c) && (b =? c)) eqn:E; [exact IH|].
  cbn [JS.includes]. rewrite IH, orb_false_r.
  pose proof (collapseRepeats_head c (b :: r')) as Hh.
  destruct (JS.collapseRepeats c (b :: r')) as [|b' t]; [discriminate Hh|].
  injection Hh as ->. cbn [JS.startsWith].
  rewrite (N.eqb_sym c a), (N.eqb_sym c b), andb_true_r.
  exact E.
Qed.

(** No two apostrophes stand side by side in a word that the rules
    return. *)
Theorem applyRules_no_double_apostrophe (word : str) :
  JS.includes (Complete.applyRules word) [0x2019; 0x2019] = false.
Proof. unfold Complete.applyRules. apply collapseRepeats_no_double. Qed.

End CompleteRules.

(** ** The punctuation of a text *)

Section CompleteRestore.

Local Open Scope nat_scope.
Local Opaque Complete.convertLine.

Lemma splitEachFrom_cons (sep : N -> bool) (s cur : str) :
  exists p ps, JS.splitEachFrom sep s cur = p :: ps.
Proof.
  revert cur. induction s as [|c r IH]; intros cur; cbn [JS.splitEachFrom].
  - eauto.
  - destruct (sep c); eauto.
Qed.

Lemma restoreStep_end (text part out : str) (cursor : nat) :
  cursor + length part = length text ->
  Complete.restoreStep text (out, cursor) part
  = (out ++ Complete.convertLine part, length text).
Proof.
  intros H. unfold Complete.restoreStep. rewrite H.
  rewrite (proj2 (nth_error_None text (length text))) by lia.
  reflexivity.
Qed.

Lemma restoreStep_mark (pre part rest out : str) (c : N) :
  shadOrNyis c = true ->
  Complete.restoreStep (pre ++ part ++ c :: rest) (out, length pre) part
  = (out ++ Complete.convertLine part ++ u ". ",
     length (pre ++ part ++ [c])).
Proof.
  intros Hc. unfold Complete.restoreStep. cbv zeta.
  assert (Hn : nth_error (pre ++ part ++ c :: rest) (length pre + length part)
               = Some c).
  { rewrite app_assoc, nth_error_app2 by (rewrite length_app; lia).
    rewrite length_app. now replace (_ - _) with 0 by lia. }
  rewrite Hn.
  assert (Hlen : length (pre ++ part ++ [c]) = length pre + length part + 1).
  { rewrite !length_app. cbn [length]. lia. }
  rewrite Hlen.
  unfold shadOrNyis in Hc. apply orb_prop in Hc as [Hc|Hc];
    apply N.eqb_eq in Hc; subst c.
  - rewrite (bool_decide_eq_true_2 (Some Complete.SHAD = Some Complete.SHAD))
      by reflexivity.
    rewrite (bool_decide_eq_false_2 (Some Complete.SHAD = Some Complete.NYIS))
      by discriminate.
    rewrite (bool_decide_eq_false_2 (Some Complete.SHAD = Some Complete.TSEC))
      by discriminate.
    cbn [orb]. now rewrite <- app_assoc.
  - rewrite (bool_decide_eq_true_2 (Some Complete.NYIS = Some Complete.NYIS))
      by reflexivity.
    rewrite (bool_decide_eq_false_2 (Some Complete.NYIS = Some Complete.SHAD))
      by discriminate.
    rewrite (bool_decide_eq_false_2 (Some Complete.NYIS = Some Complete.TSEC))
      by discriminate.
    cbn [orb]. now rewrite <- app_assoc.
Qed.

Lemma restore_loop (text : str) :
  forall s cur pre out,
    text = pre ++ rev cur ++ s ->
    fst (fold_left (Complete.restoreStep text)
           (JS.splitEachFrom shadOrNyis s cur) (out, length pre))
    = out ++ JS.join (u ". ")
               (List.map Complete.convertLine
                  (JS.splitEachFrom shadOrNyis s cur)).
Proof.
  induction s as [|c r IH]; intros cur pre out Ht; cbn [JS.splitEachFrom].
  - cbn [fold_left List.map JS.join]. rewrite restoreStep_end; [reflexivity|].
    rewrite Ht, !length_app. cbn. lia.
  - destruct (shadOrNyis c) eqn:Hc.
    + cbn [fold_left List.map]. subst text.
      rewrite (restoreStep_mark pre (rev cur) r out c Hc).
      rewrite (IH [] (pre ++ rev cur ++ [c]));
        [|cbn [rev app]; now rewrite <- !app_assoc].
      destruct (splitEachFrom_cons shadOrNyis r []) as (p & ps & ->).
      cbn [List.map JS.join]. now rewrite <- !app_assoc.
    + apply IH. rewrite Ht. cbn [rev]. now rewrite <- !app_assoc.
Qed.

(** The loop that restores the punctuation.  The text is cut at every
    shad and nyis shad; the cursor stands on the mark that ended the part
    each time the loop reads the character after a part, so that a full
    stop and a space follow the conversion of every part but the last,
    and the branch for the tsek is never taken.  The result is the
    conversions of the parts joined by a full stop and a space, trimmed,
    and passed through the two replacements that tidy the full stops. *)
Theorem convertDzongkha_parts (text : str) :
  Complete.convertDzongkha text
  = JS.replaceDotSpacesDot
      (JS.dropSpacesBeforeDot
         (JS.trim
            (JS.join (u ". ")
               (List.map Complete.convertLine
                  (JS.splitEach shadOrNyis text)))))
      JS.Idle.
Proof.
  unfold Complete.convertDzongkha.
  pose proof (restore_loop text text [] [] [] eq_refl) as H.
  cbn [length app] in H. fold (JS.splitEach shadOrNyis text) in H.
  change (JS.splitEach
            (fun c => (c =? Complete.SHAD)%N || (c =? Complete.NYIS)%N) text)
    with (JS.splitEach shadOrNyis text).
  destruct (fold_left _ _ _) as [out cursor]. cbn [fst] in H. now rewrite H.
Qed.

End CompleteRestore.

(** ** The conversion of a line *)

Section CompleteLine.

Lemma default_get_value (P : N -> bool) (T : JS.obj str) (k : str) :
  Forall (fun v => forallb P v = true) (List.map snd T) ->
  forallb P (default [] (JS.get T k)) = true.
Proof.
  intros HP. destruct (JS.get T k) as [v|] eqn:E; [|reflexivity].
  apply get_In in E. apply (in_map snd) in E.
  rewrite List.Forall_forall in HP. exact (HP _ E).
Qed.

Lemma vowelLoop_forall (P : N -> bool) (vs : list N) (st : str * bool) :
  forallb P (fst st) = true ->
  Forall (fun v => forallb P v = true) (List.map snd Complete.VOWEL) ->
  forallb P (fst (vowelLoop vs st)) = true.
Proof.
  intros Hst HP. induction vs as [|v0 vs0 _] using rev_ind; [exact Hst|].
  destruct (vowelLoop_last vs0 v0 st) as (rom & -> & Hrom).
  cbn [fst]. rewrite forallb_app, (Hrom P Hst HP).
  now rewrite default_get_value.
Qed.

Lemma buildRomanFromToken_forall (P : N -> bool) (token : Complete.Token) :
  Forall (fun v => forallb P v = true)
    (List.map snd Complete.ROOT ++ List.map snd Complete.SUB
     ++ List.map snd Complete.VOWEL ++ List.map snd Complete.FINAL) ->
  P 0x61 = true ->
  forallb P (Complete.buildRomanFromToken token) = true.
Proof.
  intros HP Ha. apply Forall_app in HP as [HR HP].
  apply Forall_app in HP as [HS HP]. apply Forall_app in HP as [HV HF].
  rewrite buildRomanFromToken_unfold. cbv zeta.
  set (rom1 := if JS.truthy (Complete.head token) then _ else _).
  assert (H1 : forallb P rom1 = true).
  { unfold rom1. destruct (JS.truthy _); [|reflexivity].
    now apply default_get_value. }
  destruct (fold_append_prefix Complete.SUB (Complete.stacks token) rom1)
    as (t2 & -> & Ht2).
  assert (H2 : forallb P (rom1 ++ t2) = true)
    by (now rewrite forallb_app, H1, Ht2).
  pose proof (vowelLoop_forall P (Complete.vowels token) (rom1 ++ t2, false)
                H2 HV) as H3.
  destruct (fold_append_prefix Complete.FINAL (Complete.finals token)
              (fst (vowelLoop (Complete.vowels token) (rom1 ++ t2, false))))
    as (t4 & -> & Ht4).
  assert (H4 : forallb P
                 (fst (vowelLoop (Complete.vowels token) (rom1 ++ t2, false))
                  ++ t4) = true)
    by (now rewrite forallb_app, H3, Ht4).
  destruct (_ && _); [|exact H4].
  rewrite forallb_app, H4. change (u "a") with [0x61]. cbn [forallb andb].
  now rewrite Ha.
Qed.

Lemma rawSyllable_spaceFree (syl : str) : spaceFree (rawSyllable syl) = true.
Proof.
  apply buildRomanFromToken_forall; [repeat constructor|reflexivity].
Qed.

Lemma rawSyllable_truthy (syl : str) : JS.truthy (rawSyllable syl) = true.
Proof.
  assert (H : hasNucleus (rawSyllable syl) = true).
  { apply buildRomanFromToken_nucleus.
    destruct syl as [|first others]; [constructor|].
    rewrite tokenizeSyllable_filters. cbn [Complete.vowels].
    apply List.Forall_forall. intros v Hv.
    now apply List.filter_In in Hv as [_ Hv]. }
  destruct (rawSyllable syl); [discriminate H|reflexivity].
Qed.

(** *** Joining with spaces, collapsing, trimming and splitting again *)

Lemma collapseSpaces_spaceFree (x z : str) (r : bool) :
  spaceFree x = true ->
  JS.collapseSpaces (x ++ z) r
  = x ++ JS.collapseSpaces z (match x with [] => r | _ :: _ => false end).
Proof.
  revert r. induction x as [|c x IH]; intros r H; [reflexivity|].
  cbn [spaceFree forallb] in H. apply andb_prop in H as [Hc Hx].
  apply negb_true_iff in Hc. cbn [app JS.collapseSpaces]. rewrite Hc.
  rewrite (IH false Hx). now destruct x.
Qed.

Lemma join_cons2 (sep x y : str) (l : list str) :
  JS.join sep (x :: y :: l) = x ++ sep ++ JS.join sep (y :: l).
Proof. reflexivity. Qed.

Lemma collapse_join (xs : list str) :
  Forall (fun x => spaceFree x = true) xs ->
  forall r, exists l t,
    Forall (fun c => JS.is_space c = true) l
    /\ Forall (fun c => JS.is_space c = true) t
    /\ (r = true -> l = [])
    /\ JS.collapseSpaces (JS.join (u " ") xs) r
       = l ++ JS.join (u " ") (List.filter JS.truthy xs) ++ t.
Proof.
  induction 1 as [|x xs Hx Hxs IH]; intros r.
  - exists [], []. repeat split; auto.
  - destruct xs as [|y rest].
    + exists [], []. repeat split; auto.
      cbn [JS.join List.filter]. rewrite <- (app_nil_r x) at 1.
      rewrite (collapseSpaces_spaceFree x [] r Hx). cbn [JS.collapseSpaces].
      destruct x; reflexivity.
    + rewrite join_cons2, (collapseSpaces_spaceFree x _ r Hx).
      destruct (IH true) as (l' & t' & _ & Ht' & Hl' & Hc).
      rewrite (Hl' eq_refl) in Hc. cbn [app] in Hc.
      change (u " " ++ JS.join (u " ") (y :: rest))
        with (0x20 :: JS.join (u " ") (y :: rest)).
      cbn [JS.collapseSpaces].
      change (JS.is_space 0x20) with true. cbv iota. rewrite Hc.
      set (ys := List.filter JS.truthy (y :: rest)).
      destruct x as [|c x'].
      * change (List.filter JS.truthy ([] :: y :: rest)) with ys.
        destruct r.
        -- exists [], t'. repeat split; auto.
        -- exists [0x20], t'. repeat split; auto. discriminate.
      * change (List.filter JS.truthy ((c :: x') :: y :: rest))
          with ((c :: x') :: ys).
        destruct ys as [|y' ys'].
        -- exists [], (0x20 :: t').
           split; [constructor|]. split; [now constructor|].
           split; reflexivity.
        -- exists [], t'. repeat split; auto.
           rewrite join_cons2. cbn [app]. now rewrite <- !app_assoc.
Qed.

Lemma trimStart_spaces (l z : str) :
  Forall (fun c => JS.is_space c = true) l ->
  JS.trimStart (l ++ z) = JS.trimStart z.
Proof.
  induction 1 as [|c l Hc _ IH]; [reflexivity|].
  cbn [app JS.trimStart]. now rewrite Hc.
Qed.

Lemma trimStart_clean (s t : str) :
  startsClean s = true ->
  Forall (fun c => JS.is_space c = true) t ->
  JS.trimStart (s ++ t) = s ++ match s with [] => [] | _ :: _ => t end.
Proof.
  intros Hs Ht. destruct s as [|c s].
  - cbn [app]. rewrite <- (app_nil_r t), trimStart_spaces; auto.
  - cbn [app JS.trimStart]. cbn in Hs. apply negb_true_iff in Hs.
    now rewrite Hs.
Qed.

Lemma trimStart_fixed (s : str) :
  startsClean s = true -> JS.trimStart s = s.
Proof.
  destruct s as [|c s]; [reflexivity|]. cbn. intros H.
  apply negb_true_iff in H. now rewrite H.
Qed.

Lemma trim_padded (l s t : str) :
  Forall (fun c => JS.is_space c = true) l ->
  Forall (fun c => JS.is_space c = true) t ->
  startsClean s = true -> startsClean (rev s) = true ->
  JS.trim (l ++ s ++ t) = s.
Proof.
  intros Hl Ht Hs Hr. unfold JS.trim, JS.trimEnd.
  rewrite (trimStart_spaces l _ Hl), (trimStart_clean s t Hs Ht).
  destruct s as [|c s]; [reflexivity|].
  rewrite rev_app_distr, trimStart_spaces.
  - now rewrite (trimStart_fixed _ Hr), rev_involutive.
  - apply List.Forall_forall. intros a Ha. rewrite List.Forall_forall in Ht.
    apply Ht. now apply in_rev.
Qed.

Lemma join_snoc (sep : str) (l : list str) (z : str) :
  JS.join sep (l ++ [z])
  = match l with [] => z | _ :: _ => JS.join sep l ++ sep ++ z end.
Proof.
  induction l as [|x l IH]; [reflexivity|].
  destruct l as [|y l]; [reflexivity|].
  change ((x :: y :: l) ++ [z]) with (x :: (y :: l) ++ [z]).
  change ((y :: l) ++ [z]) with (y :: l ++ [z]) at 1.
  rewrite join_cons2. change (y :: l ++ [z]) with ((y :: l) ++ [z]).
  rewrite IH, join_cons2. now rewrite <- !app_assoc.
Qed.

Lemma startsClean_app (s t : str) :
  JS.truthy s = true -> spaceFree s = true -> startsClean (s ++ t) = true.
Proof.
  destruct s as [|c s]; [discriminate|]. intros _ H.
  cbn in H. apply andb_prop in H as [Hc _]. exact Hc.
Qed.

Lemma join_clean (ys : list str) :
  Forall (fun y => JS.truthy y = true /\ spaceFree y = true) ys ->
  startsClean (JS.join (u " ") ys) = true
  /\ startsClean (rev (JS.join (u " ") ys)) = true.
Proof.
  intros H. split.
  - destruct H as [|y ys [Hy Hs] _]; [reflexivity|].
    destruct ys; [|rewrite join_cons2]; cbn [JS.join].
    + rewrite <- (app_nil_r y). now apply startsClean_app.
    + now apply startsClean_app.
  - induction ys as [|y0 ys0 _] using rev_ind; [reflexivity|].
    apply Forall_app in H as [_ H].
    inversion H as [|? ? [Hy Hs] _]; subst.
    rewrite join_snoc.
    assert (Hrev : JS.truthy (rev y0) = true /\ spaceFree (rev y0) = true).
    { split.
      - destruct y0 as [|c r]; [discriminate Hy|]. cbn [rev].
        now apply truthy_app_r.
      - unfold spaceFree. now rewrite forallb_reverse. }
    destruct ys0.
    + rewrite <- (app_nil_r (rev y0)). now apply startsClean_app.
    + rewrite !rev_app_distr. rewrite <- app_assoc.
      now apply startsClean_app.
Qed.

Lemma filter_truthy_spaceFree (xs : list str) :
  Forall (fun x => spaceFree x = true) xs ->
  Forall (fun y => JS.truthy y = true /\ spaceFree y = true)
         (List.filter JS.truthy xs).
Proof.
  intros H. apply List.Forall_forall. intros y Hy.
  apply List.filter_In in Hy as [Hin Hy]. rewrite List.Forall_forall in H. auto.
Qed.

Lemma trim_collapse_join (xs : list str) :
  Forall (fun x => spaceFree x = true) xs ->
  JS.trim (JS.collapseSpaces (JS.join (u " ") xs) false)
  = JS.join (u " ") (List.filter JS.truthy xs).
Proof.
  intros H. destruct (collapse_join xs H false) as (l & t & Hl & Ht & _ & ->).
  destruct (join_clean _ (filter_truthy_spaceFree xs H)) as [H1 H2].
  now apply trim_padded.
Qed.

Lemma splitEachFrom_app (sep : N -> bool) (x z cur : str) :
  forallb (fun c => negb (sep c)) x = true ->
  JS.splitEachFrom sep (x ++ z) cur = JS.splitEachFrom sep z (rev x ++ cur).
Proof.
  revert cur. induction x as [|c x IH]; intros cur H; [reflexivity|].
  cbn [forallb] in H. apply andb_prop in H as [Hc Hx].
  apply negb_true_iff in Hc. cbn [app JS.splitEachFrom]. rewrite Hc.
  rewrite (IH _ Hx). cbn [rev]. now rewrite <- app_assoc.
Qed.

Lemma spaceFree_no_blank (x : str) :
  spaceFree x = true -> forallb (fun c => negb (0x20 =? c)) x = true.
Proof.
  unfold spaceFree. rewrite !forallb_forall. intros H c Hc.
  specialize (H c Hc). destruct (0x20 =? c) eqn:E; [|reflexivity].
  apply N.eqb_eq in E as <-. discriminate H.
Qed.

Lemma splitEach_join (y : str) (ys : list str) :
  Forall (fun x => spaceFree x = true) (y :: ys) ->
  JS.splitEach (N.eqb 0x20) (JS.join (u " ") (y :: ys)) = y :: ys.
Proof.
  unfold JS.splitEach. revert y. induction ys as [|y' ys IH]; intros y H.
  - cbn [JS.join]. rewrite <- (app_nil_r y) at 1.
    rewrite splitEachFrom_app.
    + cbn [JS.splitEachFrom]. now rewrite app_nil_r, rev_involutive.
    + apply spaceFree_no_blank. now inversion H.
  - rewrite join_cons2. inversion H as [|? ? Hy Hys]; subst.
    rewrite splitEachFrom_app by now apply spaceFree_no_blank.
    change (u " " ++ JS.join (u " ") (y' :: ys))
      with (0x20 :: JS.join (u " ") (y' :: ys)).
    cbn [JS.splitEachFrom]. change (0x20 =? 0x20) with true. cbv iota.
    rewrite app_nil_r, rev_involutive. f_equal. now apply IH.
Qed.

Lemma map_raw_filter (syls : list str) :
  List.filter JS.truthy
    (List.map (fun syl => if negb (JS.truthy syl) then []
                          else Complete.buildRomanFromToken
                                 (Complete.tokenizeSyllable syl)) syls)
  = List.map rawSyllable (List.filter JS.truthy syls).
Proof.
  induction syls as [|s syls IH]; [reflexivity|].
  cbn [List.map List.filter]. destruct (JS.truthy s) eqn:E; cbn [negb].
  - fold (rawSyllable s). rewrite (rawSyllable_truthy s).
    cbn [List.map]. now rewrite IH.
  - exact IH.
Qed.

(** The conversion of a line is the normalized raw Roman forms of its
    non-empty syllables, with a single space between them: joining the
    raw forms with spaces, collapsing the white space, trimming and
    splitting on the space give back the raw forms of the non-empty
    syllables. *)
Theorem convertLine_syllables (line : str) :
  Complete.convertLine line
  = JS.join (u " ")
      (List.map (fun syl => Complete.normalizeWord (rawSyllable syl))
         (List.filter JS.truthy (Complete.splitSyllables line))).
Proof.
  unfold Complete.convertLine. cbv zeta.
  set (rawSyls := List.map _ (Complete.splitSyllables line)).
  assert (Hfree : Forall (fun x => spaceFree x = true) rawSyls).
  { apply List.Forall_forall. intros x Hx. unfold rawSyls in Hx.
    apply in_map_iff in Hx as (syl & <- & _).
    destruct (negb (JS.truthy syl)); [reflexivity|].
    apply rawSyllable_spaceFree. }
  rewrite (trim_collapse_join rawSyls Hfree).
  unfold rawSyls. rewrite map_raw_filter.
  rewrite <- (map_map rawSyllable Complete.normalizeWord).
  destruct (List.map rawSyllable _) as [|y ys] eqn:E; [reflexivity|].
  rewrite splitEach_join; [reflexivity|].
  rewrite <- E. apply List.Forall_forall. intros x Hx.
  apply in_map_iff in Hx as (syl & <- & _). apply rawSyllable_spaceFree.
Qed.

End CompleteLine.

(** ** Text without any character of the tables *)

Section CompleteUnmapped.

Local Open Scope nat_scope.

Lemma splitEach_no_sep (sep : N -> bool) (s : str) :
  forallb (fun c => negb (sep c)) s = true -> JS.splitEach sep s = [s].
Proof.
  intros H. unfold JS.splitEach. rewrite <- (app_nil_r s) at 1.
  rewrite (splitEachFrom_app sep s [] [] H). cbn [JS.splitEachFrom].
  now rewrite app_nil_r, rev_involutive.
Qed.

Lemma rawSyllable_unmapped (syl : str) :
  forallb unmapped syl = true -> rawSyllable syl = u "a".
Proof.
  intros H. destruct syl as [|first others]; [reflexivity|].
  cbn [forallb] in H. apply andb_prop in H as [Hf Ho].
  rewrite forallb_forall in Ho. unfold rawSyllable.
  rewrite tokenizeSyllable_filters.
  assert (Hh : is_head first = false).
  { unfold unmapped in Hf. now destruct (is_head first). }
  assert (Hnone : forall p : N -> bool,
             (forall c, unclassified c = true -> p c = false) ->
             List.filter p others = []).
  { intros p Hp. apply (filter_none p unmapped).
    - now apply List.Forall_forall.
    - intros a Ha. apply Hp. unfold unmapped in Ha.
      destruct (unclassified a); [reflexivity|].
      now rewrite andb_false_r in Ha. }
  rewrite Hh, (Hnone is_stack), (Hnone is_vowel_mark), (Hnone is_coda);
    [reflexivity|..]; intros c Hc; unfold unclassified in Hc;
    destruct (is_stack c), (is_vowel_mark c), (is_coda c);
    first [reflexivity|discriminate Hc].
Qed.

(** A text that is not empty and holds no character of the four tables
    and no tsheg, shad or nyis shad is converted to the single letter
    [a]: its characters go to the rest of the token, which the builder
    does not read, and the inherent vowel is all that is left. *)
Theorem convertDzongkha_unmapped (text : str) :
  JS.truthy text = true ->
  forallb unmapped text = true ->
  Complete.convertLine text = u "a"
  /\ Complete.convertDzongkha text = u "a".
Proof.
  intros Hne Hu.
  assert (Hline : Complete.convertLine text = u "a").
  { unfold Complete.convertLine, Complete.splitSyllables. cbv zeta.
    rewrite (splitEach_no_sep (N.eqb Complete.TSHEG) text).
    - cbn [List.map]. cbv beta. rewrite Hne. cbn [negb].
      fold (rawSyllable text). rewrite (rawSyllable_unmapped text Hu).
      reflexivity.
    - rewrite forallb_forall in Hu. apply forallb_forall. intros c Hc.
      specialize (Hu c Hc). unfold unmapped in Hu.
      rewrite (N.eqb_sym Complete.TSHEG).
      destruct (c =? Complete.TSHEG)%N; [|reflexivity].
      now rewrite !andb_false_r in Hu. }
  split; [exact Hline|].
  unfold Complete.convertDzongkha. rewrite splitEach_no_sep.
  - cbn [fold_left].
    rewrite (restoreStep_end text text [] 0 eq_refl), Hline. reflexivity.
  - rewrite forallb_forall in Hu. apply forallb_forall. intros c Hc.
    specialize (Hu c Hc). unfold unmapped in Hu.
    destruct (c =? Complete.SHAD)%N; [now rewrite !andb_false_r in Hu|].
    destruct (c =? Complete.NYIS)%N; [now rewrite !andb_false_r in Hu|].
    reflexivity.
Qed.

Lemma convertDzongkha_unmapped_witness :
  JS.truthy (u "Thimphu 2024") = true
  /\ forallb unmapped (u "Thimphu 2024") = true
  /\ Complete.convertLine (u "Thimphu 2024") = u "a"
  /\ Complete.convertDzongkha (u "Thimphu 2024") = u "a".
Proof.
  assert (Hne : JS.truthy (u "Thimphu 2024") = true) by reflexivity.
  assert (Hu : forallb unmapped (u "Thimphu 2024") = true)
    by (vm_compute; reflexivity).
  exact (conj Hne (conj Hu (convertDzongkha_unmapped _ Hne Hu))).
Defined.

End CompleteUnmapped.

(** * The short converters *)

Section SiblingBuilders.

Lemma dropPrefixBefore_z (s : str) :
  JS.dropPrefixBefore (u "b") [u "z"; u "zh"] s
  = JS.dropPrefixBefore (u "b") [u "z"] s.
Proof.
  unfold JS.dropPrefixBefore. cbn [existsb].
  set (y := drop (length (u "b")) s).
  replace (JS.startsWith y (u "z") || (JS.startsWith y (u "zh") || false))
    with (JS.startsWith y (u "z") || false); [reflexivity|].
  destruct y as [|c y']; [reflexivity|]. cbn [JS.startsWith].
  change (u "z") with [0x7A]. change (u "zh") with [0x7A; 0x68].
  cbn [JS.startsWith]. now destruct (0x7A =? c).
Qed.

(** The prefix rules of the converter with escaped code points and those
    of the phonological converter are the same function: the second
    alternative of the lookahead [z|zh] adds nothing to the first. *)
Theorem prefix_rules_agree (word : str) :
  Escaped.applyRules word = Phonological.applyPhonologicalRules word.
Proof.
  unfold Escaped.applyRules, Phonological.applyPhonologicalRules. cbv zeta.
  now rewrite dropPrefixBefore_z.
Qed.

Lemma fold_left_filter {A B : Type} (f : A -> B -> A) (p : B -> bool)
  (l : list B) :
  forall a,
    fold_left f (List.filter p l) a
    = fold_left (fun acc x => if p x then f acc x else acc) l a.
Proof.
  induction l as [|x l IH]; intros a; [reflexivity|].
  cbn [List.filter fold_left]. destruct (p x); cbn [fold_left]; apply IH.
Qed.

Lemma fold_left_pointwise {A B : Type} (f g : A -> B -> A) (l : list B) :
  (forall x, In x l -> forall a, f a x = g a x) ->
  forall a, fold_left f l a = fold_left g l a.
Proof.
  induction l as [|x l IH]; intros H a; [reflexivity|].
  cbn [fold_left]. rewrite (H x) by now left.
  apply IH. intros y Hy. apply H. now right.
Qed.

Lemma root_consonant (c : N) :
  palatal c = false ->
  JS.get Complete.ROOT [c] = JS.get Phonological.consonantMap [c].
Proof.
  intros Hpal. unfold Complete.ROOT, Phonological.consonantMap.
  cbn [JS.get]. by_keys Hpal.
Qed.

Lemma sub_subjoined (c : N) :
  palatal c = false ->
  JS.get Complete.SUB [c] = JS.get Phonological.subjoinedMap [c].
Proof.
  intros Hpal. unfold Complete.SUB, Phonological.subjoinedMap.
  cbn [JS.get]. by_keys Hpal.
Qed.

Lemma replaceSuffix_guarded (p r s : str) :
  (if JS.endsWith s p then JS.replaceSuffix p r s else s)
  = JS.replaceSuffix p r s.
Proof. unfold JS.replaceSuffix. now destruct (JS.endsWith s p). Qed.

(** On a syllable without the letters ca and cha and their subjoined
    forms, the phonological converter builds the same Roman form as the
    tokenizer and the builder of the complete converter. *)
Theorem builders_agree (syllable : str) :
  forallb (fun c => negb (palatal c)) syllable = true ->
  Phonological.convertSyllable syllable = rawSyllable syllable.
Proof.
  intros Hpal. unfold rawSyllable. rewrite buildRomanFromToken_unfold.
  unfold Phonological.convertSyllable. cbv zeta.
  change Phonological.vowelMap with Complete.VOWEL.
  change Phonological.finalMap with Complete.FINAL.
  change Phonological.is_vowel_letter with Complete.is_vowel_letter.
  destruct syllable as [|first others].
  { reflexivity. }
  cbn [forallb] in Hpal. apply andb_prop in Hpal as [Hf Ho].
  apply negb_true_iff in Hf. rewrite forallb_forall in Ho.
  rewrite tokenizeSyllable_filters.
  cbn [Complete.head Complete.stacks Complete.vowels Complete.finals tail].
  assert (H1 : (if JS.has_truthy Phonological.consonantMap [first]
                then [] ++ default [] (JS.get Phonological.consonantMap [first])
                else [])
               = (if JS.truthy (if is_head first then [first] else [])
                  then default [] (JS.get Complete.ROOT
                                     (if is_head first then [first] else []))
                  else [])).
  { unfold is_head, JS.has_truthy. rewrite (root_consonant first Hf).
    destruct (JS.get Phonological.consonantMap [first]) as [v|] eqn:E;
      [|reflexivity].
    destruct (JS.truthy v); [|reflexivity].
    cbn [JS.truthy app]. now rewrite (root_consonant first Hf), E. }
  rewrite H1. set (rom1 := if JS.truthy _ then _ else _).
  rewrite (fold_left_filter _ is_stack others rom1).
  rewrite (fold_left_pointwise
             (fun result ch =>
                if JS.has_truthy Phonological.subjoinedMap [ch]
                then result
                     ++ default [] (JS.get Phonological.subjoinedMap [ch])
                else result)
             (fun acc x =>
                if is_stack x
                then acc ++ default [] (JS.get Complete.SUB [x]) else acc)
             others).
  2: { intros x Hx a. specialize (Ho x Hx). apply negb_true_iff in Ho.
       unfold is_stack, JS.has_truthy. now rewrite (sub_subjoined x Ho). }
  set (rom2 := fold_left _ others rom1).
  assert (Hv : fold_left
                 (fun '(result, vowelApplied) ch =>
                    if JS.has_truthy Complete.VOWEL [ch]
                    then (JS.replaceSuffix (u "a") [] result
                          ++ default [] (JS.get Complete.VOWEL [ch]), true)
                    else (result, vowelApplied))
                 others (rom2, false)
               = vowelLoop (List.filter is_vowel_mark others) (rom2, false)).
  { unfold vowelLoop. rewrite fold_left_filter. apply fold_left_pointwise.
    intros x _ [rom flag]. fold (is_vowel_mark x).
    destruct (is_vowel_mark x); [|reflexivity].
    now rewrite replaceSuffix_guarded. }
  rewrite Hv.
  destruct (vowelLoop _ (rom2, false)) as [rom3 flag]. cbn [fst snd].
  rewrite (fold_left_filter _ is_coda others rom3).
  reflexivity.
Qed.

Lemma builders_agree_witness :
  forallb (fun c => negb (palatal c)) (u "བཟློག") = true
  /\ Phonological.convertSyllable (u "བཟློག") = rawSyllable (u "བཟློག").
Proof.
  assert (H : forallb (fun c => negb (palatal c)) (u "བཟློག") = true)
    by (vm_compute; reflexivity).
  exact (conj H (builders_agree _ H)).
Defined.

End SiblingBuilders.
